(** * TUI Calculator Pro (tui_calc.c): a shallow embedding of the expression
    engine and of the numeric methods built on it.

    The C program keeps its state in file-level globals ([g_vars],
    [g_last_result], [g_mode]) and reports failures by returning 0 and
    writing a message into a caller-supplied buffer.  Here the globals are a
    record that is passed explicitly, a failure is a constructor of
    [CalcError] (one constructor per message of the source), and a C
    [double] is a primitive binary64 float, so that the embedding can be run
    on concrete inputs.  The functions the program takes from the C math
    library are a record [Libm]: every statement holds for any such
    library. *)

From Stdlib Require Import ZArith List String Ascii Bool Lia.
From Stdlib Require Import Floats.
From Stdlib Require Import Reals Lra.
From Stdlib Require Import Permutation.
Import ListNotations.

Set Warnings "-inexact-float".
Local Open Scope bool_scope.

(** ** Configuration (the #define block) *)

Definition MAX_STACK : nat := 1024.
Definition MAX_VARS : nat := 64.
Definition NAME_LEN : nat := 16.

(** ** C doubles *)

Module CDouble.

(** [(double) i] for an integer [i]: round to nearest, ties to even. *)
Definition of_Z (z : Z) : float :=
  SF2Prim (binary_normalize prec emax z 0 false).

(** [isfinite] of <math.h>. *)
Definition isfinite (x : float) : bool := PrimFloat.is_finite x.

(** [floor] of <math.h>, exact on every double. *)
Definition floor (x : float) : float :=
  match Prim2SF x with
  | S754_finite s m e =>
      if (0 <=? e)%Z then x
      else
        let q := Z.shiftr (Zpos m) (- e) in
        let exact := (Z.shiftl q (- e) =? Zpos m)%Z in
        if s then (if exact then x else of_Z (- (q + 1)))
        else (if exact then x else of_Z q)
  | _ => x
  end.

(** [ceil] of <math.h>. *)
Definition ceil (x : float) : float := (- floor (- x))%float.

(** [fabs] of <math.h>. *)
Definition fabs (x : float) : float := PrimFloat.abs x.

(** [M_PI], the double nearest to pi. *)
Definition M_PI : float := 0x1.921fb54442d18p+1%float.

End CDouble.

(** ** errno and the math library *)

Inductive Errno : Type := E0 | EDOM | ERANGE.

Definition errno_eqb (a b : Errno) : bool :=
  match a, b with
  | E0, E0 | EDOM, EDOM | ERANGE, ERANGE => true
  | _, _ => false
  end.

(** The transcendental functions of <math.h> that the evaluator calls.  Only
    [pow] has its [errno] inspected by the program. *)
Record Libm : Type := {
  c_sin : float -> float;
  c_cos : float -> float;
  c_tan : float -> float;
  c_asin : float -> float;
  c_acos : float -> float;
  c_atan : float -> float;
  c_log : float -> float;
  c_log10 : float -> float;
  c_exp : float -> float;
  c_lgamma : float -> float;
  c_pow : float -> float -> float * Errno
}.

(** ** Characters *)

Module CType.

Definition code (c : ascii) : nat := nat_of_ascii c.

Definition isdigit (c : ascii) : bool := (48 <=? code c) && (code c <=? 57).
Definition isupper (c : ascii) : bool := (65 <=? code c) && (code c <=? 90).
Definition islower (c : ascii) : bool := (97 <=? code c) && (code c <=? 122).
Definition isalpha (c : ascii) : bool := isupper c || islower c.
Definition tolower (c : ascii) : ascii :=
  if isupper c then ascii_of_nat (code c + 32) else c.
Definition digit_val (c : ascii) : Z := Z.of_nat (code c - 48).

End CType.

(** ** strtod

    The decimal grammar of C89 [strtod] as the lexer can reach it (it is
    called only on a digit or a dot): digits, an optional fraction, an
    optional exponent that is taken only when a digit follows it.  The
    value is rounded to nearest even. *)

Module Strtod.
Import CType.

(** The longest run of digits, as a number, with its length. *)
Fixpoint digits (s : list ascii) (acc : Z) (n : nat) : Z * nat * list ascii :=
  match s with
  | c :: s' => if isdigit c then digits s' (10 * acc + digit_val c)%Z (S n)
               else (acc, n, s)
  | [] => (acc, n, s)
  end.

(** The exponent part: [e], an optional sign, at least one digit. *)
Definition exponent (s : list ascii) : Z * nat :=
  match s with
  | c :: s1 =>
      if (c =? "e")%char || (c =? "E")%char then
        let '(neg, sgn, s2) :=
          match s1 with
          | d :: s2 => if (d =? "-")%char then (true, 1, s2)
                       else if (d =? "+")%char then (false, 1, s2)
                       else (false, 0, s1)
          | [] => (false, 0, s1)
          end in
        let '(e, n, _) := digits s2 0%Z 0 in
        if (n =? 0)%nat then (0%Z, 0) else ((if neg then - e else e)%Z, 1 + sgn + n)
      else (0%Z, 0)
  | [] => (0%Z, 0)
  end.

(** [m * 10^e] rounded to a double. *)
Definition round_decimal (m e : Z) : float :=
  if (m =? 0)%Z then 0%float
  else if (400 <? e)%Z then infinity
  else if (e + Z.log2 m <? -1200)%Z then 0%float
  else if (0 <=? e)%Z then CDouble.of_Z (m * 10 ^ e)
  else
    let d := (10 ^ (- e))%Z in
    let s := Z.max 0 (64 + Z.log2 d - Z.log2 m) in
    let n := Z.shiftl m s in
    let q := (n / d)%Z in
    let sticky := if (n mod d =? 0)%Z then 0%Z else 1%Z in
    SF2Prim (binary_normalize prec emax (2 * q + sticky) (- s - 1) false).

(** The smallest positive normal double, [DBL_MIN]. *)
Definition DBL_MIN : float := 0x1p-1022%float.

(** [strtod s]: the value, the number of characters consumed (0 when no
    conversion could be made) and the [errno] it leaves. *)
Definition strtod (s : list ascii) : float * nat * Errno :=
  let '(ip, ni, s1) := digits s 0%Z 0 in
  let '(m, nf, nd, s2) :=
    match s1 with
    | c :: s1' =>
        if (c =? ".")%char then
          let '(m, nf, s2) := digits s1' ip 0 in (m, nf, 1, s2)
        else (ip, 0, 0, s1)
    | [] => (ip, 0, 0, s1)
    end in
  if (ni + nf =? 0)%nat then (0%float, 0, E0)
  else
    let '(e, ne) := exponent s2 in
    let v := round_decimal m (e - Z.of_nat nf) in
    let range := negb (m =? 0)%Z &&
                 (is_infinity v || (v <? DBL_MIN)%float) in
    (v, ni + nd + nf + ne, if range then ERANGE else E0).

End Strtod.

Definition chars (s : string) : list ascii := list_ascii_of_string s.

(** ** Angle mode, variable table and the other globals *)

Inductive AngleMode : Type := MODE_RAD | MODE_DEG.

(** One slot of [g_vars].  [name] is the C string held in the 16-byte
    buffer, so it has at most 15 characters. *)
Record VarItem : Type := {
  name : string;
  value : float;
  in_use : bool
}.

Record Globals : Type := {
  g_vars : list VarItem;
  g_last_result : float;
  g_mode : AngleMode
}.

Definition with_vars (g : Globals) (vs : list VarItem) : Globals :=
  {| g_vars := vs; g_last_result := g_last_result g; g_mode := g_mode g |}.

Definition to_radian (g : Globals) (x : float) : float :=
  match g_mode g with
  | MODE_DEG => (x * CDouble.M_PI / 180)%float
  | MODE_RAD => x
  end.

Definition from_radian (g : Globals) (x : float) : float :=
  match g_mode g with
  | MODE_DEG => (x * 180 / CDouble.M_PI)%float
  | MODE_RAD => x
  end.

Module Vars.

(** [strncpy(dst, src, NAME_LEN-1); dst[NAME_LEN-1] = 0]. *)
Definition strncpy_name (src : string) : string :=
  substring 0 (NAME_LEN - 1) src.

(** The index of the first slot in use under [nm]; [None] is the C -1. *)
Fixpoint var_find_index (vs : list VarItem) (nm : string) : option nat :=
  match vs with
  | [] => None
  | it :: vs' =>
      if in_use it && (name it =? nm)%string then Some 0
      else option_map S (var_find_index vs' nm)
  end.

(** The index of the first slot not in use. *)
Fixpoint first_free (vs : list VarItem) : option nat :=
  match vs with
  | [] => None
  | it :: vs' =>
      if negb (in_use it) then Some 0 else option_map S (first_free vs')
  end.

(** [vs[i] := f vs[i]]. *)
Fixpoint update (i : nat) (f : VarItem -> VarItem) (vs : list VarItem)
  {struct vs} : list VarItem :=
  match vs, i with
  | [], _ => []
  | it :: vs', 0 => f it :: vs'
  | it :: vs', S i' => it :: update i' f vs'
  end.

Definition var_set (vs : list VarItem) (nm : string) (v : float)
  : list VarItem * bool :=
  match var_find_index vs nm with
  | Some i =>
      (update i (fun it =>
         {| name := name it; value := v; in_use := in_use it |}) vs, true)
  | None =>
      match first_free vs with
      | Some i =>
          (update i (fun _ =>
             {| name := strncpy_name nm; value := v; in_use := true |}) vs,
           true)
      | None => (vs, false)
      end
  end.

Definition var_get (vs : list VarItem) (nm : string) : option float :=
  match var_find_index vs nm with
  | Some i => option_map value (nth_error vs i)
  | None => None
  end.

Definition var_del (vs : list VarItem) (nm : string)
  : list VarItem * bool :=
  match var_find_index vs nm with
  | Some i =>
      (update i (fun it =>
         {| name := ""; value := value it; in_use := false |}) vs, true)
  | None => (vs, false)
  end.

(** What the table binds: slot by slot, the name and value of a slot in
    use.  A slot not in use keeps stale bytes that no function reads. *)
Definition binding (it : VarItem) : option (string * float) :=
  if in_use it then Some (name it, value it) else None.

Definition bindings (vs : list VarItem) : list (option (string * float)) :=
  map binding vs.

(** The zero-initialised table of a fresh process. *)
Definition empty_slot : VarItem :=
  {| name := ""; value := 0%float; in_use := false |}.

Definition empty_table : list VarItem := repeat empty_slot MAX_VARS.

End Vars.
Import Vars.

(** ** Tokens *)

Inductive CalcTokType : Type :=
| CALC_T_NUMBER | CALC_T_OPERATOR | CALC_T_LPAREN | CALC_T_RPAREN
| CALC_T_FUNC | CALC_T_COMMA | CALC_T_IDENT.

Inductive OpKind : Type :=
| OP_ADD | OP_SUB | OP_MUL | OP_DIV | OP_POW
| OP_UNARY_MINUS | OP_FACT | OP_PERCENT.

(** The C struct carries every field in every token and fills only those
    its [type] needs; no function reads a field its [type] did not fill, so
    a token is the tagged union of the filled fields. *)
Inductive CalcToken : Type :=
| TNumber (v : float)
| TOperator (op : OpKind)
| TLParen
| TRParen
| TFunc (nm : string) (arity : Z)
| TComma
| TIdent (nm : string).

Definition tok_type (tk : CalcToken) : CalcTokType :=
  match tk with
  | TNumber _ => CALC_T_NUMBER
  | TOperator _ => CALC_T_OPERATOR
  | TLParen => CALC_T_LPAREN
  | TRParen => CALC_T_RPAREN
  | TFunc _ _ => CALC_T_FUNC
  | TComma => CALC_T_COMMA
  | TIdent _ => CALC_T_IDENT
  end.

(** ** Errors: one constructor per message the source writes *)

Inductive OperandSite : Type :=
| AtPostfix | AtUnaryMinus | AtBinary | AtFunction | AtPow.

Inductive CalcError : Type :=
| InvalidNumber                      (* "非法数字" *)
| NumberOutOfRange                   (* "数字越界" *)
| UnrecognizedCharacter (c : ascii)  (* "无法识别的字符" *)
| MismatchedComma                    (* "逗号位置或括号不匹配" *)
| MismatchedParen                    (* "括号不匹配" *)
| StackOverflow                      (* "栈溢出" *)
| UndefinedVariable (nm : string)    (* "未定义变量" *)
| MissingOperand (site : OperandSite)
| FactorialDomainError               (* "阶乘参数需为[0..170]整数" *)
| DivisionByZero                     (* "除零错误" *)
| DomainOrRangeError                 (* pow: "幂运算越界/域错误", "pow 域/范围错误" *)
| DomainError (fn : string)          (* sqrt, ln, log *)
| UnknownOperator                    (* "未知操作" *)
| UnknownFunction                    (* "未知函数", "未知多参函数" *)
| UnsupportedArity                   (* "函数元数不支持" *)
| IllegalRpnToken                    (* "RPN 非法 token" *)
| MalformedExpression (sp : nat)     (* "表达式错误(栈剩余=%d)" *)
| ZeroOrNonFiniteDerivative (x : float) (* "导数为0/非数 at x=" *)
| DidNotConverge (maxit : Z).        (* "迭代未收敛(maxit=%d)" *)

Inductive result (A : Type) : Type :=
| Ok (a : A)
| Err (e : CalcError).
Arguments Ok {A} a.
Arguments Err {A} e.

(** ** Operator table *)

Definition is_func_char_local (c : ascii) : bool :=
  CType.isalpha c || (c =? "_")%char.

Definition is_func_name_local (s : string) : option Z :=
  if ((s =? "sin") || (s =? "cos") || (s =? "tan") ||
      (s =? "sqrt") || (s =? "ln") || (s =? "log") ||
      (s =? "abs") || (s =? "exp") ||
      (s =? "asin") || (s =? "acos") || (s =? "atan"))%string then Some 1%Z
  else if (s =? "pow")%string then Some 2%Z
  else None.

Definition precedence_local (op : OpKind) : Z :=
  match op with
  | OP_FACT | OP_PERCENT => 5
  | OP_UNARY_MINUS => 4
  | OP_POW => 3
  | OP_MUL | OP_DIV => 2
  | OP_ADD | OP_SUB => 1
  end.

Definition is_right_assoc_local (op : OpKind) : bool :=
  match op with OP_POW | OP_UNARY_MINUS => true | _ => false end.

Definition is_postfix_local (op : OpKind) : bool :=
  match op with OP_FACT | OP_PERCENT => true | _ => false end.

(** ** Factorial helpers *)

Definition round_local (x : float) : float :=
  if (0 <=? x)%float then CDouble.floor (x + 0.5) else CDouble.ceil (x - 0.5).

Definition nearly_integer_local (x : float) : bool :=
  (CDouble.fabs (x - round_local x) <? 1e-9)%float.

Definition factorial_ok_local (x : float) : bool :=
  if negb (nearly_integer_local x) then false
  else if (x <? 0)%float || (170 <? x)%float then false
  else true.

Definition factorial_val_local (L : Libm) (x : float) : float :=
  let n := round_local x in
  c_exp L (c_lgamma L (n + 1)).

(** ** Lexer (tokenize_local)

    The C loop moves an index [i] over the text.  The recursion below walks
    the text one character at a time; [skip] counts the characters that the
    token just emitted has already consumed, so the loop body runs exactly
    at the positions the C index visits.  [out] is the token array filled so
    far and [prev] the type of the token emitted last.  The arrays of the
    source hold 1024 tokens and an input line at most 511 characters, so
    they never fill; the lists here carry no bound. *)

Module Lexer.
Import CType.

(** The identifier loop: copy lowercased characters while they are
    letters or underscores and the buffer has room ([j < NAME_LEN-1]). *)
Fixpoint scan_name (s : list ascii) (j : nat) (buf : list ascii)
  : list ascii * nat :=
  match s with
  | c :: s' =>
      if is_func_char_local c && (j <? NAME_LEN - 1)%nat
      then scan_name s' (S j) (buf ++ [tolower c])
      else (buf, j)
  | [] => (buf, j)
  end.

Definition is_operator_char (c : ascii) : bool :=
  ((c =? "+") || (c =? "-") || (c =? "*") || (c =? "/") ||
   (c =? "^") || (c =? "!") || (c =? "%"))%char.

Definition operator_of (c : ascii) (prev : CalcTokType) (count : nat)
  : OpKind :=
  if (c =? "+")%char then OP_ADD
  else if (c =? "-")%char then
    match prev with
    | CALC_T_OPERATOR | CALC_T_LPAREN | CALC_T_COMMA => OP_UNARY_MINUS
    | _ => if (count =? 0)%nat then OP_UNARY_MINUS else OP_SUB
    end
  else if (c =? "*")%char then OP_MUL
  else if (c =? "/")%char then OP_DIV
  else if (c =? "^")%char then OP_POW
  else if (c =? "!")%char then OP_FACT
  else OP_PERCENT.

Fixpoint tokenize_loop (s : list ascii) (skip : nat) (prev : CalcTokType)
  (out : list CalcToken) : result (list CalcToken) :=
  match s with
  | [] => Ok out
  | c :: s' =>
      match skip with
      | S k => tokenize_loop s' k prev out
      | 0 =>
          if (code c <=? 32)%nat then tokenize_loop s' 0 prev out
          else if isdigit c || (c =? ".")%char then
            let '(v, n, errno) := Strtod.strtod s in
            if (n =? 0)%nat then Err InvalidNumber
            else if errno_eqb errno ERANGE then Err NumberOutOfRange
            else tokenize_loop s' (n - 1) CALC_T_NUMBER (out ++ [TNumber v])
          else if is_func_char_local c then
            let '(buf, j) := scan_name s 0 [] in
            let nm := string_of_list_ascii buf in
            match is_func_name_local nm with
            | Some ar =>
                tokenize_loop s' (j - 1) CALC_T_FUNC
                  (out ++ [TFunc (strncpy_name nm) ar])
            | None =>
                tokenize_loop s' (j - 1) CALC_T_IDENT
                  (out ++ [TIdent (strncpy_name nm)])
            end
          else if (c =? "(")%char then
            tokenize_loop s' 0 CALC_T_LPAREN (out ++ [TLParen])
          else if (c =? ")")%char then
            tokenize_loop s' 0 CALC_T_RPAREN (out ++ [TRParen])
          else if (c =? ",")%char then
            tokenize_loop s' 0 CALC_T_COMMA (out ++ [TComma])
          else if is_operator_char c then
            tokenize_loop s' 0 CALC_T_OPERATOR
              (out ++ [TOperator (operator_of c prev (List.length out))])
          else Err (UnrecognizedCharacter c)
      end
  end.

Definition tokenize_local (s : string) : result (list CalcToken) :=
  tokenize_loop (chars s) 0 CALC_T_OPERATOR [].

End Lexer.
Import Lexer.

(** ** Shunting yard (to_rpn_local)

    [opstack] has its top at the head; [out] is the output array. *)

Module Parser.

(** The [while] of the operator case. *)
Fixpoint pop_operators (op : OpKind) (opstack out : list CalcToken)
  : list CalcToken * list CalcToken :=
  match opstack with
  | TOperator o2 :: rest =>
      let p1 := precedence_local op in
      let p2 := precedence_local o2 in
      if (negb (is_right_assoc_local op) && (p1 <=? p2)%Z) ||
         (is_right_assoc_local op && (p1 <? p2)%Z)
      then pop_operators op rest (out ++ [TOperator o2])
      else (opstack, out)
  | _ => (opstack, out)
  end.

(** The [while] of the comma and right-parenthesis cases: pop to the
    output until a left parenthesis is on top; [None] when the stack
    empties first. *)
Fixpoint pop_to_lparen (opstack out : list CalcToken)
  : option (list CalcToken * list CalcToken) :=
  match opstack with
  | [] => None
  | TLParen :: _ => Some (opstack, out)
  | tk :: rest => pop_to_lparen rest (out ++ [tk])
  end.

(** The final [while]: flush the stack. *)
Fixpoint flush (opstack out : list CalcToken) : result (list CalcToken) :=
  match opstack with
  | [] => Ok out
  | TLParen :: _ | TRParen :: _ => Err MismatchedParen
  | tk :: rest => flush rest (out ++ [tk])
  end.

Fixpoint to_rpn_loop (input opstack out : list CalcToken)
  : result (list CalcToken) :=
  match input with
  | [] => flush opstack out
  | tk :: input' =>
      match tk with
      | TNumber _ | TIdent _ => to_rpn_loop input' opstack (out ++ [tk])
      | TFunc _ _ => to_rpn_loop input' (tk :: opstack) out
      | TOperator op =>
          let '(opstack', out') := pop_operators op opstack out in
          to_rpn_loop input' (tk :: opstack') out'
      | TLParen => to_rpn_loop input' (tk :: opstack) out
      | TComma =>
          match pop_to_lparen opstack out with
          | Some (opstack', out') => to_rpn_loop input' opstack' out'
          | None => Err MismatchedComma
          end
      | TRParen =>
          match pop_to_lparen opstack out with
          | Some (_ :: TFunc nm ar :: opstack', out') =>
              to_rpn_loop input' opstack' (out' ++ [TFunc nm ar])
          | Some (_ :: opstack', out') => to_rpn_loop input' opstack' out'
          | Some ([], _) | None => Err MismatchedParen
          end
      end
  end.

Definition to_rpn_local (input : list CalcToken) : result (list CalcToken) :=
  to_rpn_loop input [] [].

End Parser.
Import Parser.

(** ** Postfix evaluator (eval_rpn_local)

    The operand stack [st] has its top at the head; [sp] is its length. *)

Section Evaluator.
Variable L : Libm.

(** [if (sp >= MAX_STACK) fail; st[sp++] = v]. *)
Definition push_checked (v : float) (st : list float) : result (list float) :=
  if (MAX_STACK <=? List.length st)%nat then Err StackOverflow
  else Ok (v :: st).

(** The arity-1 dispatch on the function name. *)
Definition apply_func1 (g : Globals) (nm : string) (x : float)
  : result float :=
  if (nm =? "sin")%string then Ok (c_sin L (to_radian g x))
  else if (nm =? "cos")%string then Ok (c_cos L (to_radian g x))
  else if (nm =? "tan")%string then Ok (c_tan L (to_radian g x))
  else if (nm =? "asin")%string then Ok (from_radian g (c_asin L x))
  else if (nm =? "acos")%string then Ok (from_radian g (c_acos L x))
  else if (nm =? "atan")%string then Ok (from_radian g (c_atan L x))
  else if (nm =? "sqrt")%string then
    if (x <? 0)%float then Err (DomainError "sqrt") else Ok (PrimFloat.sqrt x)
  else if (nm =? "ln")%string then
    if (x <=? 0)%float then Err (DomainError "ln") else Ok (c_log L x)
  else if (nm =? "log")%string then
    if (x <=? 0)%float then Err (DomainError "log") else Ok (c_log10 L x)
  else if (nm =? "abs")%string then Ok (CDouble.fabs x)
  else if (nm =? "exp")%string then Ok (c_exp L x)
  else Err UnknownFunction.

(** [errno = 0; y = pow(a, b); if (errno == EDOM || errno == ERANGE) fail]. *)
Definition checked_pow (a b : float) : result float :=
  let '(y, errno) := c_pow L a b in
  if errno_eqb errno EDOM || errno_eqb errno ERANGE
  then Err DomainOrRangeError else Ok y.

(** The [switch] of the binary operators, on [b = st[--sp], a = st[--sp]]. *)
Definition apply_binary (op : OpKind) (a b : float) : result float :=
  match op with
  | OP_ADD => Ok (a + b)%float
  | OP_SUB => Ok (a - b)%float
  | OP_MUL => Ok (a * b)%float
  | OP_DIV => if (b =? 0)%float then Err DivisionByZero else Ok (a / b)%float
  | OP_POW => checked_pow a b
  | _ => Err UnknownOperator
  end.

Definition lift_push (r : result float) (st : list float)
  : result (list float) :=
  match r with Ok y => Ok (y :: st) | Err e => Err e end.

(** One turn of the [for] loop: token [tk] against the stack [st]. *)
Definition eval_token (g : Globals) (tk : CalcToken) (st : list float)
  : result (list float) :=
  match tk with
  | TNumber v => push_checked v st
  | TIdent nm =>
      if (nm =? "ans")%string then push_checked (g_last_result g) st
      else match var_get (g_vars g) nm with
           | None => Err (UndefinedVariable nm)
           | Some v => push_checked v st
           end
  | TOperator op =>
      if is_postfix_local op then
        match st with
        | [] => Err (MissingOperand AtPostfix)
        | a :: st' =>
            match op with
            | OP_FACT =>
                if negb (factorial_ok_local a) then Err FactorialDomainError
                else Ok (factorial_val_local L a :: st')
            | OP_PERCENT => Ok ((a * 0.01)%float :: st')
            | _ => Ok st'
            end
        end
      else
        match op with
        | OP_UNARY_MINUS =>
            match st with
            | [] => Err (MissingOperand AtUnaryMinus)
            | a :: st' => Ok ((- a)%float :: st')
            end
        | _ =>
            match st with
            | b :: a :: st' => lift_push (apply_binary op a b) st'
            | _ => Err (MissingOperand AtBinary)
            end
        end
  | TFunc nm arity =>
      if (arity =? 1)%Z then
        match st with
        | [] => Err (MissingOperand AtFunction)
        | x :: st' => lift_push (apply_func1 g nm x) st'
        end
      else if (arity =? 2)%Z then
        if negb (nm =? "pow")%string then Err UnknownFunction
        else match st with
             | b :: a :: st' => lift_push (checked_pow a b) st'
             | _ => Err (MissingOperand AtPow)
             end
      else Err UnsupportedArity
  | TLParen | TRParen | TComma => Err IllegalRpnToken
  end.

Fixpoint eval_rpn_loop (g : Globals) (rpn : list CalcToken) (st : list float)
  : result float :=
  match rpn with
  | [] =>
      match st with
      | [v] => Ok v
      | _ => Err (MalformedExpression (List.length st))
      end
  | tk :: rpn' =>
      match eval_token g tk st with
      | Ok st' => eval_rpn_loop g rpn' st'
      | Err e => Err e
      end
  end.

Definition eval_rpn_local (g : Globals) (rpn : list CalcToken)
  : result float :=
  eval_rpn_loop g rpn [].

(** The facade: lex, parse, evaluate. *)
Definition eval_expr_local (g : Globals) (expr : string) : result float :=
  match tokenize_local expr with
  | Err e => Err e
  | Ok tl =>
      match to_rpn_local tl with
      | Err e => Err e
      | Ok rpn => eval_rpn_local g rpn
      end
  end.

(** ** Evaluation under a transient binding (eval_with_var)

    Lexing, parsing and evaluating only read the globals, so the table
    that [var_set] produced is the one the restore step starts from. *)
Definition eval_with_var (g : Globals) (expr vname : string) (x : float)
  : result float * Globals :=
  let existed := var_get (g_vars g) vname in
  let g1 := with_vars g (fst (var_set (g_vars g) vname x)) in
  let ok := eval_expr_local g1 expr in
  let g2 :=
    match existed with
    | Some old => with_vars g1 (fst (var_set (g_vars g1) vname old))
    | None => with_vars g1 (fst (var_del (g_vars g1) vname))
    end in
  (ok, g2).

End Evaluator.

(** ** Numeric methods *)

Section Numeric.
Variable L : Libm.

(** Central difference.  A failed evaluation returns [NAN]. *)
Definition diff_center (g : Globals) (expr v : string) (x h : float)
  : float * Globals :=
  match eval_with_var L g expr v (x + h)%float with
  | (Err _, g1) => (nan, g1)
  | (Ok f1, g1) =>
      match eval_with_var L g1 expr v (x - h)%float with
      | (Err _, g2) => (nan, g2)
      | (Ok f2, g2) => (((f1 - f2) / (2 * h))%float, g2)
      end
  end.

(** The [for (k = 0; k < maxit; ++k)] loop of [solve_newton], with [k]
    counting the iterations left. *)
Fixpoint newton_loop (expr v : string) (maxit : Z) (tol : float)
  (k : nat) (g : Globals) (x : float) : result float * Globals :=
  match k with
  | 0 => (Err (DidNotConverge maxit), g)
  | S k' =>
      match eval_with_var L g expr v x with
      | (Err e, g1) => (Err e, g1)
      | (Ok fx, g1) =>
          let '(dfx, g2) := diff_center g1 expr v x 1e-6 in
          if negb (CDouble.isfinite dfx) || (dfx =? 0)%float
          then (Err (ZeroOrNonFiniteDerivative x), g2)
          else
            let x' := (x - fx / dfx)%float in
            if (CDouble.fabs fx <? tol)%float then (Ok x', g2)
            else newton_loop expr v maxit tol k' g2 x'
      end
  end.

Definition solve_newton (g : Globals) (expr v : string) (x0 : float)
  (maxit : Z) (tol : float) : result float * Globals :=
  newton_loop expr v maxit tol (Z.to_nat maxit) g x0.

(** The largest [int], of 32 bits. *)
Definition INT_MAX : Z := 2147483647.

(** [if (n <= 0) n = 200; if (n % 2) n++;] on the [int] [n].  At
    [INT_MAX], which is odd, [n++] overflows: the behaviour of the
    program is undefined there and the model answers [None]. *)
Definition simpson_segments (n : Z) : option Z :=
  let n1 := if (n <=? 0)%Z then 200%Z else n in
  if Z.odd n1
  then (if (n1 <? INT_MAX)%Z then Some (n1 + 1)%Z else None)
  else Some n1.

(** The [for (i = 1; i < n; i++)] loop of [integ_simpson]; [cnt] counts
    the interior points left and [s] is the running sum. *)
Fixpoint simpson_loop (expr v : string) (a h : float)
  (cnt : nat) (i : Z) (g : Globals) (s : float) : result float * Globals :=
  match cnt with
  | 0 => (Ok s, g)
  | S cnt' =>
      let x := (a + CDouble.of_Z i * h)%float in
      match eval_with_var L g expr v x with
      | (Err e, g1) => (Err e, g1)
      | (Ok fx, g1) =>
          simpson_loop expr v a h cnt' (i + 1)%Z g1
            (s + (if Z.odd i then 4 * fx else 2 * fx))%float
      end
  end.

(** The body of [integ_simpson] from [h = (b-a)/n] on, for the segment
    count the two [if]s have left. *)
Definition simpson_sum (g : Globals) (expr v : string) (a b : float)
  (n : Z) : result float * Globals :=
  let h := ((b - a) / CDouble.of_Z n)%float in
  match eval_with_var L g expr v a with
  | (Err e, g1) => (Err e, g1)
  | (Ok fa, g1) =>
      match simpson_loop expr v a h (Z.to_nat (n - 1)) 1%Z g1 (0 + fa)%float with
      | (Err e, g2) => (Err e, g2)
      | (Ok s, g2) =>
          match eval_with_var L g2 expr v b with
          | (Err e, g3) => (Err e, g3)
          | (Ok fb, g3) => (Ok ((s + fb) * h / 3)%float, g3)
          end
      end
  end.

(** [integ_simpson]: [None] where the segment count overflows. *)
Definition integ_simpson (g : Globals) (expr v : string) (a b : float)
  (n : Z) : option (result float * Globals) :=
  match simpson_segments n with
  | Some n' => Some (simpson_sum g expr v a b n')
  | None => None
  end.

(** ** The range-finding pass of [plot_ascii] *)

(** [if (W <= 0) W = 60; if (W > 120) W = 120;] *)
Definition plot_width (W : Z) : Z :=
  let W1 := if (W <=? 0)%Z then 60%Z else W in
  if (120 <? W1)%Z then 120%Z else W1.

(** The sampling loop [for (i = 0; i < W; ++i)]. *)
Fixpoint plot_range_loop (expr v : string) (xmin xmax : float) (W : Z)
  (cnt : nat) (i : Z) (g : Globals) (ymin ymax : float)
  : float * float * Globals :=
  match cnt with
  | 0 => (ymin, ymax, g)
  | S cnt' =>
      let x := (xmin + (xmax - xmin) * CDouble.of_Z i
                       / (CDouble.of_Z W - 1))%float in
      match eval_with_var L g expr v x with
      | (Err _, g1) =>
          plot_range_loop expr v xmin xmax W cnt' (i + 1)%Z g1 ymin ymax
      | (Ok y, g1) =>
          if CDouble.isfinite y then
            let ymin' := if (y <? ymin)%float then y else ymin in
            let ymax' := if (ymax <? y)%float then y else ymax in
            plot_range_loop expr v xmin xmax W cnt' (i + 1)%Z g1 ymin' ymax'
          else
            plot_range_loop expr v xmin xmax W cnt' (i + 1)%Z g1 ymin ymax
      end
  end.

(** The condition of the padding [if]. *)
Definition plot_pad_test (ymin ymax : float) : bool :=
  negb (CDouble.isfinite ymin && CDouble.isfinite ymax) ||
  (ymin =? ymax)%float.

(** The y-range [plot_ascii] hands to the grid: the sampling loop from
    the sentinels [1e300] and [-1e300], then the padding [if]. *)
Definition plot_yrange (g : Globals) (expr v : string) (xmin xmax : float)
  (W : Z) : float * float * Globals :=
  let W := plot_width W in
  let '(ymin, ymax, g') :=
    plot_range_loop expr v xmin xmax W (Z.to_nat W) 0%Z g
      1e300%float (- 1e300)%float in
  if plot_pad_test ymin ymax
  then ((ymin - 1)%float, (ymax + 1)%float, g')
  else (ymin, ymax, g').

End Numeric.

(** ** Self-test (run_selftest_local)

    One turn of the self-test loop: the case passes when the expression
    evaluates and the value is within [tol] of [expect]. *)
Definition selftest_case (L : Libm) (g : Globals) (expr : string)
  (expect tol : float) : bool :=
  match eval_expr_local L g expr with
  | Ok out => (CDouble.fabs (out - expect) <=? tol)%float
  | Err _ => false
  end.

(** ** Concrete inputs

    A math library and a state to run the embedding on.  [pow] with a small
    non-negative integral exponent is the repeated product, exact whenever
    the product is; every other call answers NaN.  The closed examples
    below use it only where no other call is reached. *)

Fixpoint pow_nat (a : float) (n : nat) : float :=
  match n with
  | 0 => 1%float
  | S n' => (a * pow_nat a n')%float
  end.

Definition pow_ref (a b : float) : float * Errno :=
  match find (fun n => (CDouble.of_Z (Z.of_nat n) =? b)%float) (seq 0 64) with
  | Some n =>
      let y := pow_nat a n in
      (y, if is_infinity y && CDouble.isfinite a then ERANGE else E0)
  | None => (nan, EDOM)
  end.

Definition libm_ref : Libm :=
  {| c_sin := fun _ => nan; c_cos := fun _ => nan; c_tan := fun _ => nan;
     c_asin := fun _ => nan; c_acos := fun _ => nan; c_atan := fun _ => nan;
     c_log := fun _ => nan; c_log10 := fun _ => nan; c_exp := fun _ => nan;
     c_lgamma := fun _ => nan; c_pow := pow_ref |}.


(** The zero-initialised globals of a fresh process. *)
Definition g_zero : Globals :=
  {| g_vars := empty_table; g_last_result := 0%float; g_mode := MODE_RAD |}.

(** [g_zero] after [/let x = 2]. *)
Definition g_x2 : Globals :=
  with_vars g_zero (fst (var_set (g_vars g_zero) "x" 2%float)).

(** Two states that no evaluation can tell apart. *)
Definition same_view (g g' : Globals) : Prop :=
  bindings (g_vars g) = bindings (g_vars g') /\
  g_last_result g = g_last_result g' /\
  g_mode g = g_mode g'.

(** ** The specification's wording

    Definitions that follow the wording of the specification, to be
    compared with the ones above, which follow the source. *)

(** "[a] within [0,170] and within 1e-9 of an integer". *)
Definition factorial_in_domain (a : float) : bool :=
  ((0 <=? a) && (a <=? 170) &&
   (CDouble.fabs (a - round_local a) <? 1e-9))%float.

(** The Newton solver, sentence by sentence: what a call with [k]
    iterations left, in state [g] at the iterate [x], may answer. *)
Section NewtonRun.
Variable L : Libm.
Variables expr v : string.
Variable maxit : Z.
Variable tol : float.

Inductive newton_run : nat -> Globals -> float -> result float -> Prop :=
| run_budget_exhausted g x :
    newton_run 0 g x (Err (DidNotConverge maxit))
| run_evaluation_fails k g x e :
    fst (eval_with_var L g expr v x) = Err e ->
    newton_run (S k) g x (Err e)
| run_bad_derivative k g x fx g1 :
    eval_with_var L g expr v x = (Ok fx, g1) ->
    let d := fst (diff_center L g1 expr v x 1e-6) in
    CDouble.isfinite d = false \/ (d =? 0)%float = true ->
    newton_run (S k) g x (Err (ZeroOrNonFiniteDerivative x))
| run_converged k g x fx g1 :
    eval_with_var L g expr v x = (Ok fx, g1) ->
    let d := fst (diff_center L g1 expr v x 1e-6) in
    CDouble.isfinite d = true -> (d =? 0)%float = false ->
    (CDouble.fabs fx <? tol)%float = true ->
    newton_run (S k) g x (Ok (x - fx / d)%float)
| run_iterate k g x fx g1 r :
    eval_with_var L g expr v x = (Ok fx, g1) ->
    let d := fst (diff_center L g1 expr v x 1e-6) in
    CDouble.isfinite d = true -> (d =? 0)%float = false ->
    (CDouble.fabs fx <? tol)%float = false ->
    newton_run k (snd (diff_center L g1 expr v x 1e-6)) (x - fx / d)%float r ->
    newton_run (S k) g x r.

End NewtonRun.

(** What a sample contributes to the plotted range: nothing, when the
    evaluation failed or gave a non-finite value. *)
Definition no_finite_sample (r : result float) : Prop :=
  match r with
  | Ok y => CDouble.isfinite y = false
  | Err _ => True
  end.

(** Composite Simpson's rule as the specification words it, over any
    carrier of numbers: the integrand at [a], at the interior points
    [a + i*h] for [i = 1 .. n-1] with weight 4 for odd [i] and 2 for even
    [i], and at [b]; the sum times [h/3], where [h = (b-a)/n]. *)
Section SimpsonRule.
Variable T : Type.
Variables add sub mul div : T -> T -> T.
Variable of_Z : Z -> T.

Definition simpson_weight (i : Z) : Z := if Z.odd i then 4%Z else 2%Z.

Definition interior_indices (n : Z) : list Z :=
  map Z.of_nat (seq 1 (Z.to_nat (n - 1))).

Definition simpson_term (f : T -> T) (a h : T) (s : T) (i : Z) : T :=
  add s (mul (of_Z (simpson_weight i)) (f (add a (mul (of_Z i) h)))).

Definition simpson_rule (f : T -> T) (a b : T) (n : Z) : T :=
  let h := div (sub b a) (of_Z n) in
  let s := fold_left (simpson_term f a h) (interior_indices n)
             (add (of_Z 0) (f a)) in
  div (mul (add s (f b)) h) (of_Z 3).

End SimpsonRule.

(** The rule in double arithmetic, and in exact real arithmetic. *)
Definition simpson_rule_double : (float -> float) -> float -> float -> Z -> float :=
  simpson_rule float PrimFloat.add PrimFloat.sub PrimFloat.mul PrimFloat.div
    CDouble.of_Z.

Definition simpson_rule_real : (R -> R) -> R -> R -> Z -> R :=
  simpson_rule R Rplus Rminus Rmult Rdiv IZR.

(** The even segment counts 2, 4, ..., 2k. *)
Definition even_counts (k : nat) : list Z :=
  map (fun i => (2 * Z.of_nat i)%Z) (seq 1 k).

(** A success within 1e-15 of 1/3, a few units in the last place: the
    sharpest tolerance the small counts meet. *)
Definition near_third (r : result float) : bool :=
  match r with
  | Ok y => (CDouble.fabs (y - 1 / 3) <? 1e-15)%float
  | Err _ => false
  end.

(** ** Preset constants (vars_init_defaults) *)

Definition vars_init_defaults (L : Libm) (vs : list VarItem) : list VarItem :=
  let vs1 := fst (var_set vs "pi" CDouble.M_PI) in
  let vs2 := fst (var_set vs1 "e" (c_exp L 1)) in
  fst (var_set vs2 "ans" 0).

(** ** History (history_add)

    [g_hist] with [g_hist_count] is the list of the items held, oldest
    first.  [dupstr_local] is taken to succeed; [errmsg] is [None] for a
    null pointer. *)

Definition MAX_HISTORY : nat := 50.

Record HistoryItem : Type := {
  h_expr : string;
  h_result : float;
  h_ok : bool;
  h_err : string
}.

Definition history_add (hist : list HistoryItem) (expr : string)
  (value : float) (ok : bool) (errmsg : option string) : list HistoryItem :=
  let hist1 := if (List.length hist =? MAX_HISTORY)%nat then tl hist else hist in
  let err :=
    match errmsg with
    | Some m => if negb ok then substring 0 127 m else ""%string
    | None => ""%string
    end in
  hist1 ++ [{| h_expr := expr; h_result := value; h_ok := ok; h_err := err |}].

(** ** The token array at a failing return

    [tokenize_local] writes [out->items] as it goes, and a return of 0
    leaves in the array the tokens written so far.  [tokenize_loop] drops
    them, as every caller does; [written_loop] is the same loop with the
    array as its only result, whatever the function returns. *)

Definition MAX_TOKENS : nat := 1024.

Fixpoint written_loop (s : list ascii) (skip : nat) (prev : CalcTokType)
  (out : list CalcToken) : list CalcToken :=
  match s with
  | [] => out
  | c :: s' =>
      match skip with
      | S k => written_loop s' k prev out
      | 0 =>
          if (CType.code c <=? 32)%nat then written_loop s' 0 prev out
          else if CType.isdigit c || (c =? ".")%char then
            let '(v, n, errno) := Strtod.strtod s in
            if (n =? 0)%nat then out
            else if errno_eqb errno ERANGE then out
            else written_loop s' (n - 1) CALC_T_NUMBER (out ++ [TNumber v])
          else if is_func_char_local c then
            let '(buf, j) := scan_name s 0 [] in
            let nm := string_of_list_ascii buf in
            match is_func_name_local nm with
            | Some ar =>
                written_loop s' (j - 1) CALC_T_FUNC
                  (out ++ [TFunc (strncpy_name nm) ar])
            | None =>
                written_loop s' (j - 1) CALC_T_IDENT
                  (out ++ [TIdent (strncpy_name nm)])
            end
          else if (c =? "(")%char then
            written_loop s' 0 CALC_T_LPAREN (out ++ [TLParen])
          else if (c =? ")")%char then
            written_loop s' 0 CALC_T_RPAREN (out ++ [TRParen])
          else if (c =? ",")%char then
            written_loop s' 0 CALC_T_COMMA (out ++ [TComma])
          else if is_operator_char c then
            written_loop s' 0 CALC_T_OPERATOR
              (out ++ [TOperator (operator_of c prev (List.length out))])
          else out
      end
  end.

Definition tokenize_written (s : string) : list CalcToken :=
  written_loop (chars s) 0 CALC_T_OPERATOR [].

(** ** trim_spaces

    [i] is the index of the first character that is not a blank and [j]
    the index of the last one; [jp] below is [j + 1], so that the C [-1]
    is 0.  The text left is [s[i..j]]. *)

Definition is_blank (c : ascii) : bool :=
  ((c =? " ") || (c =? "009"))%char.

Fixpoint leading_blanks (s : list ascii) : nat :=
  match s with
  | c :: s' => if is_blank c then S (leading_blanks s') else 0
  | [] => 0
  end.

(** [while (j >= i && blank(s[j])) j--], on [jp = j + 1]. *)
Fixpoint trailing_bound (s : list ascii) (i jp : nat) : nat :=
  match jp with
  | 0 => 0
  | S j =>
      if (i <=? j)%nat && is_blank (nth j s "000"%char)
      then trailing_bound s i j
      else jp
  end.

Definition trim_spaces (s : list ascii) : list ascii :=
  let i := leading_blanks s in
  let jp := trailing_bound s i (List.length s) in
  firstn (jp - i) (skipn i s).

(** ** print_bin

    The characters [putchar] receives, for an [unsigned long] of [bits]
    bits; [n] counts the bit positions [n-1 .. 0] still to visit. *)

Fixpoint print_bin_loop (v : Z) (n : nat) (started : bool)
  : list ascii * bool :=
  match n with
  | 0 => ([], started)
  | S i =>
      let bit := Z.land (Z.shiftr v (Z.of_nat i)) 1 in
      let started1 := if (bit =? 0)%Z then started else true in
      let here :=
        if started1 then [if (bit =? 0)%Z then "0"%char else "1"%char]
        else [] in
      let '(rest, fin) := print_bin_loop v i started1 in
      (here ++ rest, fin)
  end.

Definition print_bin (bits : nat) (v : Z) : list ascii :=
  let '(out, started) := print_bin_loop v bits false in
  if started then out else ["0"%char].

(** ** The evaluation branch of the main loop

    What [main] does with a line that is not a command: on success it
    stores the value in [g_last_result] and under [ans], remembers the
    line for [=] and logs it; on failure it only logs.  [render] is the
    text [snprintf] wrote for the error. *)

Definition MAX_LINE : nat := 512.

Record Session : Type := {
  s_globals : Globals;
  s_hist : list HistoryItem;
  s_last_expr : string
}.

Definition main_evaluate (L : Libm) (render : CalcError -> string)
  (s : Session) (line : string) : Session :=
  match eval_expr_local L (s_globals s) line with
  | Ok val =>
      let g := s_globals s in
      {| s_globals :=
           {| g_vars := fst (var_set (g_vars g) "ans" val);
              g_last_result := val;
              g_mode := g_mode g |};
         s_hist := history_add (s_hist s) line val true None;
         s_last_expr := substring 0 (MAX_LINE - 1) line |}
  | Err e =>
      {| s_globals := s_globals s;
         s_hist := history_add (s_hist s) line 0 false (Some (render e));
         s_last_expr := s_last_expr s |}
  end.

(** ** Vocabulary of the properties below *)

(** No two slots in use carry the same name. *)
Fixpoint names_unique (vs : list VarItem) : Prop :=
  match vs with
  | [] => True
  | it :: vs' =>
      (in_use it = true -> var_find_index vs' (name it) = None) /\
      names_unique vs'
  end.

(** A character an identifier token can hold. *)
Definition is_name_char (c : ascii) : bool :=
  CType.islower c || (c =? "_")%char.

(** What the lexer promises about a token it emits. *)
Definition lexed_token (tk : CalcToken) : Prop :=
  match tk with
  | TIdent nm =>
      1 <= String.length nm <= NAME_LEN - 1 /\
      forallb is_name_char (chars nm) = true /\
      is_func_name_local nm = None
  | TFunc nm ar => is_func_name_local nm = Some ar
  | _ => True
  end.

(** Tokens that reach the postfix form: everything but parentheses and
    commas. *)
Definition is_rpn_token (tk : CalcToken) : bool :=
  match tk with
  | TLParen | TRParen | TComma => false
  | _ => true
  end.

(** What the operator stack of the shunting yard may hold. *)
Definition is_stack_token (tk : CalcToken) : bool :=
  match tk with
  | TOperator _ | TFunc _ _ | TLParen => true
  | _ => false
  end.

Definition is_operand (tk : CalcToken) : bool :=
  match tk with
  | TNumber _ | TIdent _ => true
  | _ => false
  end.

Definition is_lparen (tk : CalcToken) : bool :=
  match tk with TLParen => true | _ => false end.

Definition is_rparen (tk : CalcToken) : bool :=
  match tk with TRParen => true | _ => false end.

(** What a token does to the height of the operand stack. *)
Definition stack_effect (tk : CalcToken) : Z :=
  match tk with
  | TNumber _ | TIdent _ => 1
  | TOperator op =>
      if is_postfix_local op then 0
      else match op with OP_UNARY_MINUS => 0 | _ => -1 end
  | TFunc _ ar => if (ar =? 1)%Z then 0 else -1
  | _ => 0
  end%Z.

Definition stack_effects (rpn : list CalcToken) : Z :=
  fold_right Z.add 0%Z (map stack_effect rpn).

(** The errors that guard the evaluator's own assumptions about its
    input, as opposed to errors in the user's text. *)
Definition is_internal_error (e : CalcError) : bool :=
  match e with
  | IllegalRpnToken | UnknownFunction | UnsupportedArity | UnknownOperator =>
      true
  | _ => false
  end.

(** The errors of the lexer. *)
Definition is_lexer_error (e : CalcError) : bool :=
  match e with
  | InvalidNumber | NumberOutOfRange | UnrecognizedCharacter _ => true
  | _ => false
  end.

(** The functions that look at the angle mode. *)
Definition uses_angle_mode (tk : CalcToken) : bool :=
  match tk with
  | TFunc nm ar =>
      (ar =? 1)%Z &&
      ((nm =? "sin") || (nm =? "cos") || (nm =? "tan") ||
       (nm =? "asin") || (nm =? "acos") || (nm =? "atan"))%string
  | _ => false
  end.

Definition with_mode (g : Globals) (m : AngleMode) : Globals :=
  {| g_vars := g_vars g; g_last_result := g_last_result g; g_mode := m |}.

(** The last [n] elements of a list. *)
Definition lastn {A : Type} (n : nat) (l : list A) : list A :=
  skipn (List.length l - n) l.

(** A text with its capital letters turned into small ones. *)
Definition lowercase (s : string) : string :=
  string_of_list_ascii (map CType.tolower (chars s)).

(** A string of binary digits read as a number. *)
Definition bin_step (acc : Z) (c : ascii) : Z :=
  (2 * acc + (if (c =? "1")%char then 1 else 0))%Z.

Definition bin_value (s : list ascii) : Z := fold_left bin_step s 0%Z.

(** ** Doubles as real numbers

    The vocabulary for bounding the rounding error of a computation in
    doubles: the real value of a double, and what the rounding of the
    specification of the floating-point operations keeps of an exact
    result. *)

Section RealValue.
Local Open Scope R_scope.

(** The power [2^e]. *)
Definition bpow (e : Z) : R := powerRZ 2 e.

(** Where a real [m + t] lies in the unit interval above [m], as the
    round and sticky bits record it. *)
Definition loc_ok (r s : bool) (t : R) : Prop :=
  match r, s with
  | false, false => t = 0
  | false, true => 0 < t < 1 / 2
  | true, false => t = 1 / 2
  | true, true => 1 / 2 < t < 1
  end.

(** A shift record stands for the real [x]. *)
Definition represents (mrs : shr_record) (x : R) : Prop :=
  (0 <= shr_m mrs)%Z /\
  exists t, x = IZR (shr_m mrs) + t /\ loc_ok (shr_r mrs) (shr_s mrs) t.

(** The same for the location that a division hands to the rounding. *)
Definition location_ok (l : location) (t : R) : Prop :=
  match l with
  | loc_Exact => t = 0
  | loc_Inexact Lt => 0 < t < 1 / 2
  | loc_Inexact Eq => t = 1 / 2
  | loc_Inexact Gt => 1 / 2 < t < 1
  end.

(** Positive doubles in the normal range, with their real value. *)
Definition normal_sf (s : spec_float) (X : R) : Prop :=
  exists m e,
    s = S754_finite false m e /\
    (2 ^ 52 <= Zpos m < 2 ^ 53)%Z /\ (-1074 <= e <= 971)%Z /\
    X = IZR (Zpos m) * bpow e.

(** The double [x] is positive, normal and worth [X]. *)
Definition normal (x : float) (X : R) : Prop := normal_sf (Prim2SF x) X.

(** The unit roundoff of binary64: half the gap between 1 and the next
    double. *)
Definition unit_roundoff : R := bpow (-53).

(** [X] is [A] up to [k] roundings: each rounding multiplies by a
    factor between [1 - u] and [1 / (1 - u)]. *)
Definition near (k : nat) (A X : R) : Prop :=
  A * (1 - unit_roundoff) ^ k <= X <= A * (/ (1 - unit_roundoff)) ^ k.

(** The double [x] is a positive normal double within [k] roundings of
    the real [A]. *)
Definition approx (k : nat) (A : R) (x : float) : Prop :=
  exists X, normal x X /\ near k A X.

(** A math library whose [pow] with exponent 2 gives the square to
    within three roundings (an error of one unit in the last place is
    within that), does not set [errno] on it, and gives 0 at 0. *)
Definition pow_squares (L : Libm) : Prop :=
  c_pow L 0 2 = (0%float, E0) /\
  forall x X,
    normal x X -> bpow (-100) <= X <= bpow 100 ->
    exists y, c_pow L x 2 = (y, E0) /\ approx 3 (X * X) y.

(** The integrand "x^2" as the evaluator computes it: [pow(x, 2)]. *)
Definition pow_2 (L : Libm) (x : float) : float := fst (c_pow L x 2).

(** The running sum of the Simpson loop on "x^2" before the sample of
    index [k]: the double [s] against the exact sum [E].  Before the
    first sample both are 0; after [k - 1] samples [s] is within
    [k + 13] roundings of [E]. *)
Definition simpson_partial (k : nat) (s : float) (E : R) : Prop :=
  (k = 1%nat /\ s = 0%float /\ E = 0) \/
  ((2 <= k)%nat /\ approx (k + 13) E s /\ bpow (-70) <= E <= 4 * INR k).

End RealValue.

(* ================================================================== *)
(** * Properties *)

(** ** The C library models on sample inputs *)

Example strtod_3 : Strtod.strtod (chars "3^2") = (3%float, 1, E0).
Proof. vm_compute. reflexivity. Qed.

Example strtod_3_5 : Strtod.strtod (chars "3.5!") = (3.5%float, 3, E0).
Proof. vm_compute. reflexivity. Qed.

Example strtod_1e308 : Strtod.strtod (chars "1e308*10") = (1e308%float, 5, E0).
Proof. vm_compute. reflexivity. Qed.

Example strtod_tenth : Strtod.strtod (chars "0.1") = (0.1%float, 3, E0).
Proof. vm_compute. reflexivity. Qed.

Example strtod_pi :
  Strtod.strtod (chars "3.14159265358979323846") = (CDouble.M_PI, 22, E0).
Proof. vm_compute. reflexivity. Qed.

Example strtod_overflow : Strtod.strtod (chars "1e999") = (infinity, 5, ERANGE).
Proof. vm_compute. reflexivity. Qed.

Example strtod_lone_dot : Strtod.strtod (chars ".") = (0%float, 0, E0).
Proof. vm_compute. reflexivity. Qed.

Example strtod_dangling_exponent : Strtod.strtod (chars "2e") = (2%float, 1, E0).
Proof. vm_compute. reflexivity. Qed.

Example floor_ceil_samples :
  (CDouble.floor 2.5, CDouble.floor (-2.5), CDouble.ceil 2.5,
   CDouble.ceil (-0.3), CDouble.floor 170.5) = (2, -3, 3, -0, 170)%float.
Proof. vm_compute. reflexivity. Qed.

(** ** The variable table *)

Section VarsFacts.

Lemma update_update i f h vs :
  update i f (update i h vs) = update i (fun it => f (h it)) vs.
Proof.
  revert i; induction vs as [|it vs IH]; intros [|i]; simpl; auto.
  now rewrite IH.
Qed.

Lemma update_fixed i f vs it :
  nth_error vs i = Some it -> f it = it -> update i f vs = vs.
Proof.
  revert i; induction vs as [|a vs IH]; intros [|i]; simpl; try discriminate.
  - intros [= ->] ->. reflexivity.
  - intros Hn Hf. now rewrite (IH _ Hn Hf).
Qed.

Lemma bindings_update i f vs it :
  nth_error vs i = Some it -> binding (f it) = binding it ->
  bindings (update i f vs) = bindings vs.
Proof.
  unfold bindings.
  revert i; induction vs as [|a vs IH]; intros [|i]; simpl; try discriminate.
  - intros [= ->] ->. reflexivity.
  - intros Hn Hf. now rewrite (IH _ Hn Hf).
Qed.

Lemma find_index_spec vs nm i :
  var_find_index vs nm = Some i ->
  exists it, nth_error vs i = Some it /\ in_use it = true /\ name it = nm.
Proof.
  revert i; induction vs as [|a vs IH]; simpl; intros i; try discriminate.
  destruct (in_use a && (name a =? nm)%string) eqn:E.
  - intros [= <-]. apply andb_prop in E as [Hu Hn].
    exists a. apply String.eqb_eq in Hn. auto.
  - destruct (var_find_index vs nm) as [j|]; simpl; try discriminate.
    intros [= <-]. apply (IH j eq_refl).
Qed.

Lemma first_free_spec vs i :
  first_free vs = Some i ->
  exists it, nth_error vs i = Some it /\ in_use it = false.
Proof.
  revert i; induction vs as [|a vs IH]; simpl; intros i; try discriminate.
  destruct (in_use a) eqn:E; simpl.
  - destruct (first_free vs) as [j|]; simpl; try discriminate.
    intros [= <-]. apply (IH j eq_refl).
  - intros [= <-]. exists a. auto.
Qed.

(** Updating a slot without touching its name or flag moves no index. *)
Lemma find_index_update_value i f vs nm :
  (forall it, in_use (f it) = in_use it /\ name (f it) = name it) ->
  var_find_index (update i f vs) nm = var_find_index vs nm.
Proof.
  intros Hf. revert i; induction vs as [|a vs IH]; intros [|i]; simpl; auto.
  - destruct (Hf a) as [-> ->]. reflexivity.
  - now rewrite IH.
Qed.

(** Filling the first free slot under a name not yet bound makes that
    slot the one the name is found at. *)
Lemma find_index_fill vs nm i it :
  var_find_index vs nm = None -> first_free vs = Some i ->
  in_use it = true -> name it = nm ->
  var_find_index (update i (fun _ => it) vs) nm = Some i.
Proof.
  intros Hnone Hfree Hu Hn. revert i Hnone Hfree.
  induction vs as [|a vs IH]; simpl; intros i; try discriminate.
  destruct (in_use a) eqn:Ea; simpl.
  - destruct (name a =? nm)%string eqn:En; try discriminate.
    destruct (var_find_index vs nm) eqn:Ef; try discriminate.
    destruct (first_free vs) as [j|] eqn:Eff; simpl; try discriminate.
    intros _ [= <-]. simpl. rewrite Ea, En. simpl.
    now rewrite (IH j eq_refl eq_refl).
  - intros _ [= <-]. simpl. rewrite Hu, Hn, String.eqb_refl. reflexivity.
Qed.

Lemma strncpy_name_short nm :
  String.length nm <= NAME_LEN - 1 -> strncpy_name nm = nm.
Proof.
  unfold strncpy_name. generalize (NAME_LEN - 1). intros n.
  revert n; induction nm as [|c nm IH]; intros [|n]; simpl; auto; try lia.
  intros H. f_equal. apply IH. lia.
Qed.

(** What [var_get] answers is decided by the bindings alone. *)
Lemma find_index_bindings vs vs' nm :
  bindings vs = bindings vs' -> var_find_index vs nm = var_find_index vs' nm.
Proof.
  unfold bindings. revert vs'; induction vs as [|a vs IH]; intros [|b vs'];
    simpl; try discriminate; auto.
  intros [= Hb Hrest]. rewrite (IH _ Hrest).
  unfold binding in Hb.
  destruct (in_use a), (in_use b); try discriminate; simpl; auto.
  now injection Hb as -> _.
Qed.

Lemma var_get_bindings vs vs' nm :
  bindings vs = bindings vs' -> var_get vs nm = var_get vs' nm.
Proof.
  intros Hb. unfold var_get. rewrite (find_index_bindings _ _ nm Hb).
  destruct (var_find_index vs' nm) as [i|] eqn:Ef; auto.
  destruct (find_index_spec _ _ _ Ef) as (b & Hnb & Hub & _).
  rewrite <- (find_index_bindings _ _ nm Hb) in Ef.
  destruct (find_index_spec _ _ _ Ef) as (a & Hna & Hua & _).
  rewrite Hna, Hnb. simpl.
  assert (H : nth_error (bindings vs) i = nth_error (bindings vs') i)
    by now rewrite Hb.
  unfold bindings in H. rewrite !nth_error_map, Hna, Hnb in H. simpl in H.
  unfold binding in H. rewrite Hua, Hub in H. now injection H as _ ->.
Qed.

Lemma nth_error_update_same i f vs it :
  nth_error vs i = Some it -> nth_error (update i f vs) i = Some (f it).
Proof.
  revert i; induction vs as [|a vs IH]; intros [|i]; simpl; try discriminate.
  - now intros [= ->].
  - apply IH.
Qed.

(** A [var_set] that succeeds is read back, for a name that fits the
    buffer; whether it succeeds does not depend on the value. *)
Lemma var_get_var_set_same vs nm v :
  String.length nm <= NAME_LEN - 1 ->
  snd (var_set vs nm v) = true ->
  var_get (fst (var_set vs nm v)) nm = Some v.
Proof.
  intros Hlen. unfold var_set, var_get.
  destruct (var_find_index vs nm) as [i|] eqn:Ef; simpl.
  - intros _. rewrite find_index_update_value by (intros; simpl; auto).
    rewrite Ef. destruct (find_index_spec _ _ _ Ef) as (it & Hnth & _).
    now rewrite (nth_error_update_same _ _ _ _ Hnth).
  - destruct (first_free vs) as [i|] eqn:Eff; simpl; [|discriminate].
    intros _. rewrite (find_index_fill vs nm i)
      by (auto; simpl; now apply strncpy_name_short).
    destruct (first_free_spec _ _ Eff) as (it & Hnth & _).
    now rewrite (nth_error_update_same _ _ _ _ Hnth).
Qed.

Lemma var_set_succeeds_any vs nm v w :
  snd (var_set vs nm v) = snd (var_set vs nm w).
Proof.
  unfold var_set. destruct (var_find_index vs nm); [reflexivity|].
  destruct (first_free vs); reflexivity.
Qed.

End VarsFacts.

(** ** Transient bindings *)

Section TransientBinding.
Variable L : Libm.

Lemma same_view_refl g : same_view g g.
Proof. repeat split. Qed.

Lemma same_view_sym g g' : same_view g g' -> same_view g' g.
Proof. intros (? & ? & ?); repeat split; auto. Qed.

Lemma same_view_trans g1 g2 g3 :
  same_view g1 g2 -> same_view g2 g3 -> same_view g1 g3.
Proof.
  intros (? & ? & ?) (? & ? & ?); repeat split; etransitivity; eauto.
Qed.

Lemma first_free_bindings vs vs' :
  bindings vs = bindings vs' -> first_free vs = first_free vs'.
Proof.
  unfold bindings. revert vs'; induction vs as [|a vs IH]; intros [|b vs'];
    simpl; try discriminate; auto.
  intros [= Hb Hrest]. rewrite (IH _ Hrest).
  unfold binding in Hb.
  destruct (in_use a), (in_use b); try discriminate; reflexivity.
Qed.

Lemma bindings_update_congr i f f' vs vs' :
  bindings vs = bindings vs' ->
  (forall it it', binding it = binding it' -> binding (f it) = binding (f' it')) ->
  bindings (update i f vs) = bindings (update i f' vs').
Proof.
  unfold bindings. intros Hb Hf.
  revert i vs' Hb; induction vs as [|a vs IH]; intros i [|b vs'];
    simpl; try discriminate; auto.
  intros [= Hab Hrest]. destruct i as [|i]; simpl.
  - now rewrite (Hf _ _ Hab), Hrest.
  - now rewrite Hab, (IH i _ Hrest).
Qed.

Lemma var_set_bindings vs vs' nm x :
  bindings vs = bindings vs' ->
  bindings (fst (var_set vs nm x)) = bindings (fst (var_set vs' nm x)).
Proof.
  intros Hb. unfold var_set.
  rewrite (find_index_bindings _ _ nm Hb), (first_free_bindings _ _ Hb).
  destruct (var_find_index vs' nm) as [i|]; simpl.
  - apply bindings_update_congr; auto.
    intros a b Hab. unfold binding in *. simpl.
    destruct (in_use a), (in_use b); try discriminate; auto.
    now injection Hab as -> _.
  - destruct (first_free vs') as [i|]; simpl; auto.
    apply bindings_update_congr; auto.
Qed.

(** The evaluator reads the state only through [var_get] on names other
    than [ans], the last result and the angle mode. *)
Lemma eval_token_reads g g' tk st :
  (forall nm, nm <> "ans"%string ->
              var_get (g_vars g) nm = var_get (g_vars g') nm) ->
  g_last_result g = g_last_result g' -> g_mode g = g_mode g' ->
  eval_token L g tk st = eval_token L g' tk st.
Proof.
  intros Hv Hl Hm. destruct tk as [v|op| | |nm ar| |nm]; simpl; auto.
  - destruct (ar =? 1)%Z; auto. destruct st as [|x st]; auto.
    unfold apply_func1, to_radian, from_radian. now rewrite Hm.
  - destruct (nm =? "ans")%string eqn:E.
    + now rewrite Hl.
    + apply String.eqb_neq in E. now rewrite (Hv nm E).
Qed.

Lemma eval_rpn_loop_reads g g' rpn st :
  (forall nm, nm <> "ans"%string ->
              var_get (g_vars g) nm = var_get (g_vars g') nm) ->
  g_last_result g = g_last_result g' -> g_mode g = g_mode g' ->
  eval_rpn_loop L g rpn st = eval_rpn_loop L g' rpn st.
Proof.
  intros Hv Hl Hm. revert st; induction rpn as [|tk rpn IH]; intros st;
    simpl; auto.
  rewrite (eval_token_reads g g' tk st Hv Hl Hm).
  destruct (eval_token L g' tk st); auto.
Qed.

Lemma eval_expr_reads g g' expr :
  (forall nm, nm <> "ans"%string ->
              var_get (g_vars g) nm = var_get (g_vars g') nm) ->
  g_last_result g = g_last_result g' -> g_mode g = g_mode g' ->
  eval_expr_local L g expr = eval_expr_local L g' expr.
Proof.
  intros Hv Hl Hm. unfold eval_expr_local, eval_rpn_local.
  destruct (tokenize_local expr) as [tl|e]; auto.
  destruct (to_rpn_local tl) as [rpn|e]; auto.
  now apply eval_rpn_loop_reads.
Qed.

Lemma eval_expr_same_view g g' expr :
  same_view g g' -> eval_expr_local L g expr = eval_expr_local L g' expr.
Proof.
  intros (Hb & Hl & Hm). apply eval_expr_reads; auto.
  intros nm _. now apply var_get_bindings.
Qed.

(** The value [eval_with_var] computes. *)
Lemma eval_with_var_fst g expr v x :
  fst (eval_with_var L g expr v x) =
  eval_expr_local L (with_vars g (fst (var_set (g_vars g) v x))) expr.
Proof. reflexivity. Qed.

Lemma eval_with_var_same_view g g' expr v x :
  same_view g g' ->
  fst (eval_with_var L g expr v x) = fst (eval_with_var L g' expr v x).
Proof.
  intros (Hb & Hl & Hm). rewrite !eval_with_var_fst.
  apply eval_expr_same_view. repeat split; simpl; auto.
  now apply var_set_bindings.
Qed.

(** Restoring after the binding: the table binds what it bound before. *)
Lemma restore_bindings vs v x :
  String.length v <= NAME_LEN - 1 ->
  let vs1 := fst (var_set vs v x) in
  bindings (match var_get vs v with
            | Some old => fst (var_set vs1 v old)
            | None => fst (var_del vs1 v)
            end) = bindings vs.
Proof.
  intros Hlen. simpl. unfold var_get, var_set at 2 3.
  destruct (var_find_index vs v) as [i|] eqn:Ef.
  - destruct (find_index_spec _ _ _ Ef) as (it & Hnth & Hu & Hn).
    rewrite Hnth. simpl. unfold var_set.
    rewrite find_index_update_value by (intros; simpl; auto).
    rewrite Ef. simpl. rewrite update_update.
    f_equal. apply update_fixed with (it := it); auto.
    destruct it; reflexivity.
  - destruct (first_free vs) as [i|] eqn:Eff; simpl.
    + unfold var_del.
      rewrite (find_index_fill vs v i) by
        (auto; simpl; now apply strncpy_name_short).
      simpl. rewrite update_update.
      destruct (first_free_spec _ _ Eff) as (it & Hnth & Hu).
      apply bindings_update with (it := it); auto.
      unfold binding. simpl. now rewrite Hu.
    + unfold var_del. now rewrite Ef.
Qed.

Lemma eval_with_var_restores g expr v x :
  String.length v <= NAME_LEN - 1 ->
  same_view (snd (eval_with_var L g expr v x)) g.
Proof.
  intros Hlen. unfold eval_with_var. simpl.
  pose proof (restore_bindings (g_vars g) v x Hlen) as H. simpl in H.
  destruct (var_get (g_vars g) v); repeat split; simpl; auto.
Qed.

End TransientBinding.

(** C4: for a variable name that fits the 16-byte name buffers (every
    caller copies it into one), the state after [eval_with_var] binds what
    it bound before, slot by slot, so every name reads as before; the last
    result and the angle mode are untouched.  The statement does not look
    at the outcome of the inner evaluation: it holds when that succeeded
    and when it failed. *)
Theorem C4_eval_with_var_restores_store :
  forall (L : Libm) (g : Globals) (expr vname : string) (x : float),
    String.length vname <= NAME_LEN - 1 ->
    let g' := snd (eval_with_var L g expr vname x) in
    bindings (g_vars g') = bindings (g_vars g) /\
    (forall nm, var_get (g_vars g') nm = var_get (g_vars g) nm) /\
    g_last_result g' = g_last_result g /\
    g_mode g' = g_mode g.
Proof.
  intros L g expr vname x Hlen g'.
  destruct (eval_with_var_restores L g expr vname x Hlen) as (Hb & Hl & Hm).
  repeat split; auto.
  intros nm. now apply var_get_bindings.
Qed.

(** C4 at work: [x] bound to 2 and an inner evaluation that fails ([q] is
    unbound), and [x] unbound with one that succeeds. *)
Lemma C4_witness :
  (String.length "x" <= NAME_LEN - 1 /\
   fst (eval_with_var libm_ref g_x2 "x+q" "x" 5) = Err (UndefinedVariable "q") /\
   var_get (g_vars (snd (eval_with_var libm_ref g_x2 "x+q" "x" 5))) "x"
     = Some 2%float) /\
  (fst (eval_with_var libm_ref g_zero "x*x" "x" 5) = Ok 25%float /\
   var_get (g_vars (snd (eval_with_var libm_ref g_zero "x*x" "x" 5))) "x"
     = None).
Proof.
  assert (H : String.length "x" <= NAME_LEN - 1) by (vm_compute; lia).
  split; [split; [exact H|split]|split].
  - vm_compute. reflexivity.
  - rewrite (proj1 (proj2 (C4_eval_with_var_restores_store
               libm_ref g_x2 "x+q" "x" 5%float H))).
    vm_compute. reflexivity.
  - vm_compute. reflexivity.
  - rewrite (proj1 (proj2 (C4_eval_with_var_restores_store
               libm_ref g_zero "x*x" "x" 5%float H))).
    vm_compute. reflexivity.
Defined.

(** A name of 16 characters, which no caller can pass, would be stored
    under its first 15 and not found again by the delete. *)
Example eval_with_var_long_name :
  var_get (g_vars (snd (eval_with_var libm_ref g_zero "1" "abcdefghijklmnop" 5)))
    "abcdefghijklmno" = Some 5%float.
Proof. vm_compute. reflexivity. Qed.

(** ** The identifier [ans] *)

Section AnsRegister.
Variable L : Libm.

Lemma var_get_cons it vs nm :
  var_get (it :: vs) nm =
  if in_use it && (name it =? nm)%string then Some (value it)
  else var_get vs nm.
Proof.
  unfold var_get. simpl.
  destruct (in_use it && (name it =? nm)%string); simpl; auto.
  destruct (var_find_index vs nm); reflexivity.
Qed.

(** Rewriting a slot that does not answer to [nm], into one that does not
    either, changes nothing for [nm]. *)
Lemma var_get_update_other vs i f nm it :
  nth_error vs i = Some it ->
  in_use it && (name it =? nm)%string = false ->
  in_use (f it) && (name (f it) =? nm)%string = false ->
  var_get (update i f vs) nm = var_get vs nm.
Proof.
  revert i; induction vs as [|a vs IH]; intros [|i]; simpl; try discriminate.
  - intros [= ->] Ha Hfa. now rewrite !var_get_cons, Ha, Hfa.
  - intros Hn Ha Hfa. rewrite !var_get_cons. now rewrite (IH i Hn Ha Hfa).
Qed.

Lemma var_get_set_other vs n x nm :
  nm <> n -> nm <> strncpy_name n ->
  var_get (fst (var_set vs n x)) nm = var_get vs nm.
Proof.
  intros Hn Hn'. unfold var_set.
  destruct (var_find_index vs n) as [i|] eqn:Ef; simpl.
  - destruct (find_index_spec _ _ _ Ef) as (it & Hnth & Hu & Hname).
    assert (E : (name it =? nm)%string = false)
      by (apply String.eqb_neq; congruence).
    apply var_get_update_other with (it := it); simpl; auto;
      rewrite E; apply andb_false_r.
  - destruct (first_free vs) as [i|] eqn:Ef'; simpl; auto.
    destruct (first_free_spec _ _ Ef') as (it & Hnth & Hu).
    apply var_get_update_other with (it := it); simpl; auto.
    + now rewrite Hu.
    + apply String.eqb_neq. congruence.
Qed.

Lemma eval_with_var_ans g expr x :
  fst (eval_with_var L g expr "ans" x) = eval_expr_local L g expr.
Proof.
  rewrite eval_with_var_fst. apply eval_expr_reads; simpl; auto.
  intros nm Hnm. apply var_get_set_other; auto.
Qed.

End AnsRegister.

(** C10: the identifier [ans] pushes the last-result register whatever the
    variable table holds; an evaluation gives the same outcome under any
    table that agrees with the current one on every name other than [ans];
    and a transient binding of [ans] made by [eval_with_var] leaves the
    outcome of the inner evaluation as it is without the binding. *)
Theorem C10_ans_reads_last_result :
  forall (L : Libm) (g : Globals),
    (forall st,
        eval_token L g (TIdent "ans") st = push_checked (g_last_result g) st) /\
    (forall vs expr,
        (forall nm, nm <> "ans"%string -> var_get vs nm = var_get (g_vars g) nm) ->
        eval_expr_local L (with_vars g vs) expr = eval_expr_local L g expr) /\
    (forall expr x,
        fst (eval_with_var L g expr "ans" x) = eval_expr_local L g expr).
Proof.
  intros L g. split; [|split].
  - reflexivity.
  - intros vs expr H. apply eval_expr_reads; auto.
  - intros expr x. apply eval_with_var_ans.
Qed.

(** C10 at work: with the register at 7, [ans+1] is 8 under a table that
    binds [ans] to 100, and under a transient binding of [ans] to 100. *)
Lemma C10_witness :
  let g := {| g_vars := empty_table; g_last_result := 7%float;
              g_mode := MODE_RAD |} in
  let vs := fst (var_set empty_table "ans" 100%float) in
  var_get vs "ans" = Some 100%float /\
  eval_expr_local libm_ref (with_vars g vs) "ans+1" = Ok 8%float /\
  fst (eval_with_var libm_ref g "ans+1" "ans" 100) = Ok 8%float.
Proof.
  intros g vs.
  destruct (C10_ans_reads_last_result libm_ref g) as (_ & Hvs & Htr).
  split; [vm_compute; reflexivity|split].
  - rewrite (Hvs vs "ans+1"%string).
    + vm_compute. reflexivity.
    + intros nm Hnm. apply (var_get_set_other empty_table "ans" 100%float nm);
        vm_compute; exact Hnm.
  - rewrite Htr. vm_compute. reflexivity.
Defined.

(** ** Order on doubles *)

Section FloatOrder.

Lemma SFcompare_antisym x y :
  SFcompare y x = option_map CompOpp (SFcompare x y).
Proof.
  destruct x as [sx|sx| |sx mx ex], y as [sy|sy| |sy my ey]; simpl;
    try reflexivity;
    try (destruct sx; reflexivity); try (destruct sy; reflexivity);
    try (destruct sx, sy; reflexivity).
  destruct sx, sy; simpl; try reflexivity;
    rewrite (Z.compare_antisym ex ey);
    destruct (ex ?= ey)%Z; simpl; try reflexivity;
    rewrite (Pos.compare_cont_antisym mx my Eq); reflexivity.
Qed.

Lemma SFcompare_defined x y :
  x <> S754_nan -> y <> S754_nan -> SFcompare x y <> None.
Proof.
  destruct x, y; simpl; congruence.
Qed.

(** Away from NaN, [x < y] is the negation of [y <= x]. *)
Lemma ltb_negb_leb x y :
  Prim2SF x <> S754_nan -> Prim2SF y <> S754_nan ->
  (x <? y)%float = negb (y <=? x)%float.
Proof.
  intros Hx Hy. rewrite ltb_spec, leb_spec. unfold SFltb, SFleb.
  rewrite (SFcompare_antisym (Prim2SF x) (Prim2SF y)).
  pose proof (SFcompare_defined _ _ Hx Hy) as Hd.
  destruct (SFcompare (Prim2SF x) (Prim2SF y)) as [[]|]; simpl; congruence.
Qed.

Lemma nearly_integer_not_nan x :
  nearly_integer_local x = true -> Prim2SF x <> S754_nan.
Proof.
  unfold nearly_integer_local, CDouble.fabs.
  rewrite ltb_spec, abs_spec, sub_spec. intros H Hn.
  rewrite Hn in H. discriminate H.
Qed.

(** The source's domain test is the specification's. *)
Lemma factorial_ok_in_domain a :
  factorial_ok_local a = factorial_in_domain a.
Proof.
  unfold factorial_ok_local, factorial_in_domain.
  destruct (nearly_integer_local a) eqn:E; simpl.
  - pose proof (nearly_integer_not_nan a E) as Hn.
    unfold nearly_integer_local in E. rewrite E.
    rewrite (ltb_negb_leb a 0), (ltb_negb_leb 170 a); auto;
      try (vm_compute; discriminate).
    destruct (0 <=? a)%float, (a <=? 170)%float; reflexivity.
  - unfold nearly_integer_local in E. rewrite E.
    now rewrite andb_false_r.
Qed.

End FloatOrder.

(** ** The operators of the evaluator *)



(** C9: on the operands [a] and [b] (with [b] popped first) the division
    operator fails with the division-by-zero error exactly when [b == 0.0]
    and pushes [a / b] otherwise; addition, subtraction and multiplication
    always push their IEEE result; "1/0" evaluates to that error. *)
Theorem C9_division_by_zero :
  forall (L : Libm) (g : Globals) (a b : float) (st : list float),
    eval_token L g (TOperator OP_DIV) (b :: a :: st) =
      (if (b =? 0)%float then Err DivisionByZero
       else Ok ((a / b)%float :: st)) /\
    eval_token L g (TOperator OP_ADD) (b :: a :: st) = Ok ((a + b)%float :: st) /\
    eval_token L g (TOperator OP_SUB) (b :: a :: st) = Ok ((a - b)%float :: st) /\
    eval_token L g (TOperator OP_MUL) (b :: a :: st) = Ok ((a * b)%float :: st) /\
    eval_expr_local L g "1/0" = Err DivisionByZero.
Proof.
  intros L g a b st. repeat split; try reflexivity.
  simpl. destruct (b =? 0)%float; reflexivity.
Qed.

(** ** Unary minus against the power operator *)

(** C1: "-3^2" and "(-3)^2" have the same postfix form, 3 negated then
    raised to 2, because the shunting yard pops the pending unary minus
    (precedence 4) when the power operator (precedence 3) arrives; both
    texts evaluate to whatever [pow(-3, 2)] gives.  The negation is applied
    to the base, not to the result of the exponentiation. *)
Theorem C1_unary_minus_applies_to_base :
  forall (L : Libm) (g : Globals),
    let rpn := [TNumber 3; TOperator OP_UNARY_MINUS; TNumber 2;
                TOperator OP_POW] in
    tokenize_local "-3^2" =
      Ok [TOperator OP_UNARY_MINUS; TNumber 3; TOperator OP_POW; TNumber 2] /\
    to_rpn_local [TOperator OP_UNARY_MINUS; TNumber 3; TOperator OP_POW;
                  TNumber 2] = Ok rpn /\
    eval_expr_local L g "-3^2" = checked_pow L (-3) 2 /\
    eval_expr_local L g "(-3)^2" = checked_pow L (-3) 2.
Proof.
  intros L g rpn.
  assert (Ht : tokenize_local "-3^2" =
               Ok [TOperator OP_UNARY_MINUS; TNumber 3; TOperator OP_POW;
                   TNumber 2]) by (vm_compute; reflexivity).
  assert (Hr : to_rpn_local [TOperator OP_UNARY_MINUS; TNumber 3;
                             TOperator OP_POW; TNumber 2] = Ok rpn)
    by (vm_compute; reflexivity).
  assert (Hp : match tokenize_local "(-3)^2" with
               | Ok tl => to_rpn_local tl
               | Err e => Err e
               end = Ok rpn) by (vm_compute; reflexivity).
  assert (He : eval_rpn_local L g rpn = checked_pow L (-3) 2).
  { unfold eval_rpn_local, rpn. cbn -[checked_pow].
    destruct (checked_pow L (-3) 2); reflexivity. }
  split; [exact Ht|split; [exact Hr|split]]; unfold eval_expr_local.
  - now rewrite Ht, Hr.
  - destruct (tokenize_local "(-3)^2") as [tl|e]; try discriminate.
    now rewrite Hp.
Qed.

(** With a [pow] that squares exactly, both texts give 9, and the case
    [{"-3^2", -9, 1e-12}] of the program's own self-test does not pass. *)
Example minus_three_squared :
  eval_expr_local libm_ref g_zero "-3^2" = Ok 9%float /\
  eval_expr_local libm_ref g_zero "(-3)^2" = Ok 9%float /\
  eval_expr_local libm_ref g_zero "-(3^2)" = Ok (-9)%float /\
  selftest_case libm_ref g_zero "-3^2" (-9) 1e-12 = false /\
  selftest_case libm_ref g_zero "(-3)^2" 9 1e-12 = true.
Proof. repeat split; vm_compute; reflexivity. Qed.

(** ** Identifiers longer than the name buffer *)

Section LexerFacts.
Import CType.

Lemma func_char_class c :
  is_func_char_local c = true ->
  (code c <=? 32)%nat = false /\ isdigit c || (c =? ".")%char = false.
Proof.
  destruct c as [[] [] [] [] [] [] [] []]; vm_compute; intros H;
    try discriminate H; split; reflexivity.
Qed.

Lemma func_name_short s ar :
  is_func_name_local s = Some ar -> String.length s <= 4.
Proof.
  unfold is_func_name_local.
  repeat match goal with
         | |- context [String.eqb s ?k] =>
             destruct (String.eqb_spec s k) as [->|_]; [intros; simpl; lia|]
         end.
  simpl. discriminate.
Qed.

Lemma length_string_of_list l :
  String.length (string_of_list_ascii l) = List.length l.
Proof. induction l; simpl; auto. Qed.

(** The identifier loop on a run that fills the buffer exactly. *)
Lemma scan_name_run name rest j buf :
  forallb is_func_char_local name = true ->
  j + List.length name = NAME_LEN - 1 ->
  scan_name (name ++ rest) j buf = (buf ++ map tolower name, NAME_LEN - 1).
Proof.
  change (NAME_LEN - 1) with 15.
  revert j buf; induction name as [|c name IH]; intros j buf Hall Hlen.
  - simpl in *. rewrite Nat.add_0_r in Hlen. subst j. rewrite app_nil_r.
    destruct rest as [|c rest]; simpl; auto.
    change (15 <? NAME_LEN - 1)%nat with false. now rewrite andb_false_r.
  - simpl in Hall, Hlen. apply andb_prop in Hall as [Hc Hall].
    simpl. rewrite Hc. change (NAME_LEN - 1) with 15.
    assert (Hj : (j <? 15)%nat = true) by (apply Nat.ltb_lt; lia).
    rewrite Hj. simpl. rewrite (IH (S j)); auto; try lia.
    now rewrite <- app_assoc.
Qed.

(** Characters already consumed are stepped over. *)
Lemma tokenize_loop_skip l1 l2 prev out :
  tokenize_loop (l1 ++ l2) (List.length l1) prev out =
  tokenize_loop l2 0 prev out.
Proof.
  induction l1 as [|c l1 IH]; [reflexivity|exact IH].
Qed.

(** The loop body at a letter or underscore. *)
Lemma tokenize_loop_name c s prev out :
  is_func_char_local c = true ->
  tokenize_loop (c :: s) 0 prev out =
  let '(buf, j) := scan_name (c :: s) 0 [] in
  let nm := string_of_list_ascii buf in
  match is_func_name_local nm with
  | Some ar =>
      tokenize_loop s (j - 1) CALC_T_FUNC (out ++ [TFunc (strncpy_name nm) ar])
  | None =>
      tokenize_loop s (j - 1) CALC_T_IDENT (out ++ [TIdent (strncpy_name nm)])
  end.
Proof.
  intros H. destruct (func_char_class c H) as [H1 H2].
  cbn [tokenize_loop]. rewrite H1, H2, H. reflexivity.
Qed.

(** After a run of [NAME_LEN-1] letters the lexer has emitted one
    identifier and stands at the next character, whatever it is. *)
Lemma tokenize_loop_full_name name rest prev out :
  List.length name = NAME_LEN - 1 ->
  forallb is_func_char_local name = true ->
  tokenize_loop (name ++ rest) 0 prev out =
  tokenize_loop rest 0 CALC_T_IDENT
    (out ++ [TIdent (string_of_list_ascii (map tolower name))]).
Proof.
  intros Hlen Hall.
  destruct name as [|c name']; [discriminate Hlen|].
  assert (Hc : is_func_char_local c = true)
    by (simpl in Hall; now apply andb_prop in Hall as [? _]).
  change ((c :: name') ++ rest) with (c :: (name' ++ rest)).
  rewrite (tokenize_loop_name c (name' ++ rest) prev out Hc).
  change (c :: name' ++ rest) with ((c :: name') ++ rest).
  rewrite (scan_name_run (c :: name') rest 0 []) by auto.
  cbv beta iota zeta. rewrite app_nil_l.
  set (nm := string_of_list_ascii (map tolower (c :: name'))).
  assert (Hnm : String.length nm = NAME_LEN - 1)
    by (unfold nm; now rewrite length_string_of_list, length_map).
  destruct (is_func_name_local nm) as [ar|] eqn:E.
  - apply func_name_short in E. rewrite Hnm in E. vm_compute in E. lia.
  - rewrite strncpy_name_short by lia.
    replace (NAME_LEN - 1 - 1) with (List.length name')
      by (simpl in Hlen; change (NAME_LEN - 1) with 15 in *; lia).
    apply tokenize_loop_skip.
Qed.

End LexerFacts.

(** C3: a run of letters longer than 15 characters is not lexed as one
    identifier.  After the first 15 characters (lowercased) have been
    emitted as an identifier the lexer resumes at the 16th, which starts a
    further token; the 20 letters below give two identifiers, and 15
    letters followed by [sin] give an identifier and a function. *)
Theorem C3_long_identifier_is_split :
  (forall (name rest : list ascii) (prev : CalcTokType) (out : list CalcToken),
      List.length name = NAME_LEN - 1 ->
      forallb is_func_char_local name = true ->
      tokenize_loop (name ++ rest) 0 prev out =
      tokenize_loop rest 0 CALC_T_IDENT
        (out ++ [TIdent (string_of_list_ascii (map CType.tolower name))])) /\
  tokenize_local "abcdefghijklmnopqrst" =
    Ok [TIdent "abcdefghijklmno"; TIdent "pqrst"] /\
  tokenize_local "ABCDEFGHIJKLMNOsin(2)" =
    Ok [TIdent "abcdefghijklmno"; TFunc "sin" 1; TLParen; TNumber 2; TRParen].
Proof.
  split; [exact tokenize_loop_full_name|].
  split; vm_compute; reflexivity.
Qed.

(** C3 at work on the 20 letters. *)
Lemma C3_witness :
  tokenize_loop (chars "abcdefghijklmno" ++ chars "pqrst") 0 CALC_T_OPERATOR [] =
  Ok [TIdent "abcdefghijklmno"; TIdent "pqrst"].
Proof.
  rewrite (proj1 C3_long_identifier_is_split
             (chars "abcdefghijklmno") (chars "pqrst") CALC_T_OPERATOR []).
  - vm_compute. reflexivity.
  - vm_compute. reflexivity.
  - vm_compute. reflexivity.
Defined.

(** ** Success values and guarded domain violations *)

(** C2, as stated, fails: "1e308*10" overflows and the evaluation succeeds
    with +Inf; multiplied by 0 it succeeds with NaN. *)
Lemma C2_counterexample :
  eval_expr_local libm_ref g_zero "1e308*10" = Ok infinity /\
  CDouble.isfinite infinity = false /\
  eval_expr_local libm_ref g_zero "1e308*10*0" = Ok nan /\
  CDouble.isfinite nan = false.
Proof. repeat split; vm_compute; reflexivity. Qed.

(** C2, amended: a success value need not be finite (the overflow above is
    a success under every math library), and the domain violations that
    the evaluator guards stop the evaluation with their typed error,
    whatever tokens follow, while the unguarded case goes on with the
    computed value: division by exactly zero, [sqrt] of a negative, [ln]
    and [log] of a non-positive argument, a factorial operand outside its
    domain, and a [pow] (operator or function) that left EDOM or ERANGE. *)
Theorem C2_guarded_violations_are_errors :
  forall (L : Libm) (g : Globals) (rest : list CalcToken) (st : list float)
         (a b x : float),
    eval_expr_local L g "1e308*10" = Ok infinity /\
    eval_rpn_loop L g (TOperator OP_DIV :: rest) (b :: a :: st) =
      (if (b =? 0)%float then Err DivisionByZero
       else eval_rpn_loop L g rest ((a / b)%float :: st)) /\
    eval_rpn_loop L g (TFunc "sqrt" 1 :: rest) (x :: st) =
      (if (x <? 0)%float then Err (DomainError "sqrt")
       else eval_rpn_loop L g rest (PrimFloat.sqrt x :: st)) /\
    eval_rpn_loop L g (TFunc "ln" 1 :: rest) (x :: st) =
      (if (x <=? 0)%float then Err (DomainError "ln")
       else eval_rpn_loop L g rest (c_log L x :: st)) /\
    eval_rpn_loop L g (TFunc "log" 1 :: rest) (x :: st) =
      (if (x <=? 0)%float then Err (DomainError "log")
       else eval_rpn_loop L g rest (c_log10 L x :: st)) /\
    eval_rpn_loop L g (TOperator OP_FACT :: rest) (x :: st) =
      (if factorial_in_domain x
       then eval_rpn_loop L g rest (factorial_val_local L x :: st)
       else Err FactorialDomainError) /\
    eval_rpn_loop L g (TOperator OP_POW :: rest) (b :: a :: st) =
      (if errno_eqb (snd (c_pow L a b)) EDOM ||
          errno_eqb (snd (c_pow L a b)) ERANGE
       then Err DomainOrRangeError
       else eval_rpn_loop L g rest (fst (c_pow L a b) :: st)) /\
    eval_rpn_loop L g (TFunc "pow" 2 :: rest) (b :: a :: st) =
      (if errno_eqb (snd (c_pow L a b)) EDOM ||
          errno_eqb (snd (c_pow L a b)) ERANGE
       then Err DomainOrRangeError
       else eval_rpn_loop L g rest (fst (c_pow L a b) :: st)).
Proof.
  intros L g rest st a b x.
  split; [vm_compute; reflexivity|].
  repeat split; cbn [eval_rpn_loop eval_token is_postfix_local lift_push
                     apply_binary].
  - destruct (b =? 0)%float; reflexivity.
  - unfold apply_func1. simpl. destruct (x <? 0)%float; reflexivity.
  - unfold apply_func1. simpl. destruct (x <=? 0)%float; reflexivity.
  - unfold apply_func1. simpl. destruct (x <=? 0)%float; reflexivity.
  - rewrite factorial_ok_in_domain.
    destruct (factorial_in_domain x); reflexivity.
  - unfold checked_pow. destruct (c_pow L a b) as [y e]. simpl.
    destruct (errno_eqb e EDOM || errno_eqb e ERANGE); reflexivity.
  - simpl. unfold checked_pow. destruct (c_pow L a b) as [y e]. simpl.
    destruct (errno_eqb e EDOM || errno_eqb e ERANGE); reflexivity.
Qed.

(** The inverse trigonometric functions have no guard: whatever the
    library answers outside [-1,1] is pushed as a value. *)
Example asin_is_unguarded :
  forall (L : Libm) (g : Globals),
    eval_expr_local L g "asin(2)" = Ok (from_radian g (c_asin L 2)) /\
    eval_expr_local L g "acos(2)" = Ok (from_radian g (c_acos L 2)).
Proof. intros L g. split; vm_compute; reflexivity. Qed.

(** ** The y-range of the plot *)

Section PlotRange.
Variable L : Libm.

Lemma plot_range_loop_no_finite expr v xmin xmax W cnt i g ymin ymax :
  (forall g' x, no_finite_sample (fst (eval_with_var L g' expr v x))) ->
  fst (plot_range_loop L expr v xmin xmax W cnt i g ymin ymax) = (ymin, ymax).
Proof.
  intros H. revert i g; induction cnt as [|cnt IH]; intros i g; auto.
  cbn [plot_range_loop]. cbv zeta.
  match goal with
  | |- context [eval_with_var L g expr v ?x] =>
      pose proof (H g x) as Hx; destruct (eval_with_var L g expr v x) as [r g1]
  end.
  simpl in Hx. destruct r as [y|e]; [rewrite Hx|]; apply IH.
Qed.

(** The order on doubles, as far as the sampling loop needs it. *)
Lemma ltb_irrefl c : (c <? c)%float = false.
Proof.
  rewrite ltb_spec. unfold SFltb.
  pose proof (SFcompare_antisym (Prim2SF c) (Prim2SF c)) as H.
  destruct (SFcompare (Prim2SF c) (Prim2SF c)) as [[]|];
    try reflexivity; discriminate H.
Qed.

Lemma ltb_asym x y : (x <? y)%float = true -> (y <? x)%float = false.
Proof.
  rewrite !ltb_spec. unfold SFltb.
  rewrite (SFcompare_antisym (Prim2SF x) (Prim2SF y)).
  destruct (SFcompare (Prim2SF x) (Prim2SF y)) as [[]|];
    try discriminate; reflexivity.
Qed.

Lemma ltb_not_eqb x y : (x <? y)%float = true -> (x =? y)%float = false.
Proof.
  rewrite ltb_spec, eqb_spec. unfold SFltb, SFeqb.
  destruct (SFcompare (Prim2SF x) (Prim2SF y)) as [[]|];
    try discriminate; reflexivity.
Qed.

(** Whatever lies above a positive double lies above every negative
    one, and whatever lies below a negative double lies below every
    positive one. *)
Lemma SFltb_above_positive x m e m' e' :
  SFltb (S754_finite false m e) x = true ->
  SFltb (S754_finite true m' e') x = true.
Proof.
  unfold SFltb, SFcompare.
  destruct x as [s|s| |s mx ex]; try discriminate;
    destruct s; try discriminate; reflexivity.
Qed.

Lemma SFltb_below_negative x m e m' e' :
  SFltb x (S754_finite true m e) = true ->
  SFltb x (S754_finite false m' e') = true.
Proof.
  unfold SFltb, SFcompare.
  destruct x as [s|s| |s mx ex]; try discriminate;
    destruct s; try discriminate; reflexivity.
Qed.

Lemma above_sentinel c :
  (1e300 <? c)%float = true -> (- 1e300 <? c)%float = true.
Proof.
  rewrite !ltb_spec.
  set (hi := Prim2SF 1e300). set (lo := Prim2SF (- 1e300)).
  vm_compute in hi, lo. subst hi lo. apply SFltb_above_positive.
Qed.

Lemma below_sentinel c :
  (c <? - 1e300)%float = true -> (c <? 1e300)%float = true.
Proof.
  rewrite !ltb_spec.
  set (hi := Prim2SF 1e300). set (lo := Prim2SF (- 1e300)).
  vm_compute in hi, lo. subst hi lo. apply SFltb_below_negative.
Qed.

Lemma finite_eqb_refl c : CDouble.isfinite c = true -> (c =? c)%float = true.
Proof.
  unfold CDouble.isfinite, is_finite, is_nan. intros H.
  destruct (c =? c)%float; [reflexivity|discriminate H].
Qed.

(** The sampling loop on an expression that gives the same finite value
    at every point: the first sample decides, the later ones change
    nothing. *)
Lemma plot_range_loop_constant expr v xmin xmax W c cnt i g ymin ymax :
  CDouble.isfinite c = true ->
  (forall g' x, fst (eval_with_var L g' expr v x) = Ok c) ->
  fst (plot_range_loop L expr v xmin xmax W (S cnt) i g ymin ymax) =
    (if (c <? ymin)%float then c else ymin,
     if (ymax <? c)%float then c else ymax).
Proof.
  intros Hc H. revert i g ymin ymax.
  induction cnt as [|cnt IH]; intros i g ymin ymax.
  - cbn [plot_range_loop]. cbv zeta.
    match goal with
    | |- context [eval_with_var L g expr v ?x] =>
        pose proof (H g x) as Hx;
        destruct (eval_with_var L g expr v x) as [r g1]
    end.
    simpl in Hx. subst r. rewrite Hc. reflexivity.
  - remember (S cnt) as k eqn:Hk. cbn [plot_range_loop]. cbv zeta.
    match goal with
    | |- context [eval_with_var L g expr v ?x] =>
        pose proof (H g x) as Hx;
        destruct (eval_with_var L g expr v x) as [r g1]
    end.
    simpl in Hx. subst r k. rewrite Hc, IH.
    destruct (c <? ymin)%float eqn:E1, (ymax <? c)%float eqn:E2;
      rewrite ?ltb_irrefl, ?E1, ?E2; reflexivity.
Qed.

Lemma plot_width_positive W : exists cnt, Z.to_nat (plot_width W) = S cnt.
Proof.
  exists (Z.to_nat (plot_width W) - 1)%nat. unfold plot_width.
  destruct (W <=? 0)%Z eqn:E1; [reflexivity|].
  apply Z.leb_gt in E1.
  destruct (120 <? W)%Z; [reflexivity|lia].
Qed.

Lemma plot_yrange_constant g expr v xmin xmax W c :
  CDouble.isfinite c = true ->
  (forall g' x, fst (eval_with_var L g' expr v x) = Ok c) ->
  fst (plot_yrange L g expr v xmin xmax W) =
    let ymin := if (c <? 1e300)%float then c else 1e300%float in
    let ymax := if (- 1e300 <? c)%float then c else (- 1e300)%float in
    if plot_pad_test ymin ymax then ((ymin - 1)%float, (ymax + 1)%float)
    else (ymin, ymax).
Proof.
  intros Hc H. unfold plot_yrange.
  destruct (plot_width_positive W) as [cnt Hcnt]. rewrite Hcnt.
  pose proof (plot_range_loop_constant expr v xmin xmax (plot_width W) c cnt
                0%Z g 1e300%float (- 1e300)%float Hc H) as Hloop.
  destruct (plot_range_loop L expr v xmin xmax (plot_width W) (S cnt) 0%Z g
              1e300%float (- 1e300)%float) as [[ymin ymax] g'].
  simpl in Hloop. injection Hloop as -> ->. cbv zeta.
  match goal with |- context [plot_pad_test ?a ?b] =>
    destruct (plot_pad_test a b) end; reflexivity.
Qed.

End PlotRange.

(** C7: the range the sampling pass hands to the grid.  When no sample is
    finite the sentinels are left, and they are what padding them by 1
    gives in double arithmetic.  When every sample is the same finite
    value [c] strictly between the sentinels, the range is the point
    padded, [c - 1, c + 1].  When that value lies beyond a sentinel the
    observed range is still the point [c], but the loop never replaces
    the sentinel on the other side: the two ends differ, the padding is
    skipped, and the grid is built on [1e300, c] (or [c, -1e300]). *)
Theorem C7_sentinel_hides_degenerate_range :
  (forall (L : Libm) (g : Globals) (expr v : string) (xmin xmax : float)
          (W : Z),
      (forall g' x, no_finite_sample (fst (eval_with_var L g' expr v x))) ->
      fst (plot_yrange L g expr v xmin xmax W) = (1e300, - 1e300)%float /\
      (1e300 - 1, - 1e300 + 1)%float = (1e300, - 1e300)%float) /\
  (forall (L : Libm) (g : Globals) (expr v : string) (xmin xmax : float)
          (W : Z) (c : float),
      CDouble.isfinite c = true ->
      (forall g' x, fst (eval_with_var L g' expr v x) = Ok c) ->
      ((c <? 1e300)%float = true -> (- 1e300 <? c)%float = true ->
       fst (plot_yrange L g expr v xmin xmax W) = (c - 1, c + 1)%float) /\
      ((1e300 <? c)%float = true ->
       fst (plot_yrange L g expr v xmin xmax W) = (1e300, c)%float) /\
      ((c <? - 1e300)%float = true ->
       fst (plot_yrange L g expr v xmin xmax W) = (c, - 1e300)%float)).
Proof.
  split.
  - intros L g expr v xmin xmax W H. split; [|vm_compute; reflexivity].
    unfold plot_yrange.
    pose proof (plot_range_loop_no_finite L expr v xmin xmax (plot_width W)
                  (Z.to_nat (plot_width W)) 0%Z g 1e300%float (-1e300)%float H)
      as Hloop.
    destruct (plot_range_loop L expr v xmin xmax (plot_width W)
                (Z.to_nat (plot_width W)) 0%Z g 1e300%float (- 1e300)%float)
      as [[ymin ymax] g'].
    simpl in Hloop. injection Hloop as -> ->. reflexivity.
  - intros L g expr v xmin xmax W c Hc H.
    rewrite (plot_yrange_constant L g expr v xmin xmax W c Hc H). cbv zeta.
    assert (Hfin : CDouble.isfinite 1e300 = true /\
                   CDouble.isfinite (- 1e300) = true)
      by (split; vm_compute; reflexivity).
    destruct Hfin as [Hhi Hlo].
    split; [|split].
    + intros H1 H2. rewrite H1, H2. unfold plot_pad_test.
      now rewrite (finite_eqb_refl c Hc), orb_true_r.
    + intros H1. rewrite (ltb_asym _ _ H1), (above_sentinel c H1).
      unfold plot_pad_test. now rewrite Hhi, Hc, (ltb_not_eqb _ _ H1).
    + intros H1. rewrite (below_sentinel c H1), (ltb_asym _ _ H1).
      unfold plot_pad_test. now rewrite Hlo, Hc, (ltb_not_eqb _ _ H1).
Qed.

(** C7 at work: the constant 1e305.  Every sample is 1e305, the observed
    range is that point, and the grid gets [1e300, 1e305], which is not
    the point padded. *)
Lemma C7_witness :
  fst (plot_yrange libm_ref g_zero "1e305" "x" 0 1 60) =
    (1e300, 1e305)%float /\
  (1e305 - 1, 1e305 + 1)%float = (1e305, 1e305)%float.
Proof.
  split; [|vm_compute; reflexivity].
  destruct (proj2 C7_sentinel_hides_degenerate_range
              libm_ref g_zero "1e305"%string "x"%string 0%float 1%float 60%Z
              1e305%float) as (_ & Habove & _).
  - vm_compute. reflexivity.
  - intros g' x. vm_compute. reflexivity.
  - apply Habove. vm_compute. reflexivity.
Defined.

(** ** The Newton solver *)

Section Newton.
Variable L : Libm.
Variables expr v : string.
Variable maxit : Z.
Variable tol : float.

Lemma newton_loop_sound k g x r :
  newton_run L expr v maxit tol k g x r ->
  fst (newton_loop L expr v maxit tol k g x) = r.
Proof.
  induction 1 as [g x|k g x e He|k g x fx g1 He d Hd|k g x fx g1 He d Hf Hz Ht
                 |k g x fx g1 r He d Hf Hz Ht Hrun IH]; cbn [newton_loop].
  - reflexivity.
  - destruct (eval_with_var L g expr v x) as [r' g1]. simpl in He.
    now subst r'.
  - rewrite He. subst d.
    destruct (diff_center L g1 expr v x 1e-6) as [dfx g2]. simpl in Hd.
    destruct Hd as [Hd|Hd]; rewrite Hd; simpl; auto.
    now rewrite orb_true_r.
  - rewrite He. subst d.
    destruct (diff_center L g1 expr v x 1e-6) as [dfx g2]. simpl in *.
    now rewrite Hf, Hz, Ht.
  - rewrite He. subst d.
    destruct (diff_center L g1 expr v x 1e-6) as [dfx g2]. simpl in *.
    now rewrite Hf, Hz, Ht.
Qed.

Lemma newton_loop_complete k g x :
  newton_run L expr v maxit tol k g x
    (fst (newton_loop L expr v maxit tol k g x)).
Proof.
  revert g x; induction k as [|k IH]; intros g x; cbn [newton_loop].
  - constructor.
  - destruct (eval_with_var L g expr v x) as [[fx|e] g1] eqn:He.
    + destruct (diff_center L g1 expr v x 1e-6) as [dfx g2] eqn:Hd.
      destruct (CDouble.isfinite dfx) eqn:Hf; simpl.
      * destruct (dfx =? 0)%float eqn:Hz; simpl.
        -- eapply run_bad_derivative; eauto. rewrite Hd. simpl. auto.
        -- destruct (CDouble.fabs fx <? tol)%float eqn:Ht; simpl.
           ++ pose proof (run_converged L expr v maxit tol k g x fx g1 He) as R.
              rewrite Hd in R. simpl in R. now apply R.
           ++ pose proof (run_iterate L expr v maxit tol k g x fx g1
                            (fst (newton_loop L expr v maxit tol k g2
                                    (x - fx / dfx)%float)) He) as R.
              rewrite Hd in R. simpl in R. apply R; auto.
      * eapply run_bad_derivative; eauto. rewrite Hd. simpl. auto.
    + apply run_evaluation_fails. now rewrite He.
Qed.

End Newton.

(** C5, as stated, fails: for "x*x" from [x0 = 0] the residual is 0, below
    the tolerance, at the first iteration, yet the call fails, because the
    central difference there is 0 and the derivative is tested first. *)
Lemma C5_counterexample :
  fst (eval_with_var libm_ref g_zero "x*x" "x" 0) = Ok 0%float /\
  (CDouble.fabs 0 <? 1e-10)%float = true /\
  fst (diff_center libm_ref g_zero "x*x" "x" 0 1e-6) = 0%float /\
  fst (solve_newton libm_ref g_zero "x*x" "x" 0 30 1e-10) =
    Err (ZeroOrNonFiniteDerivative 0).
Proof. repeat split; vm_compute; reflexivity. Qed.

(** C5, amended: the answer of [solve_newton] is the one the sentences of
    [newton_run] give for a budget of [maxit] iterations.  An iteration
    evaluates f at [x], a failure being the answer; then takes the central
    difference with step 1e-6 and answers the derivative error if it is
    zero or not finite, also when the residual is below [tol]; otherwise
    it moves to [x - f(x)/f'(x)] and answers that new point if
    [|f(x)| < tol] held at the old one; with no iteration left the answer
    is the non-convergence error carrying [maxit]. *)
Theorem C5_newton_outcome :
  forall (L : Libm) (g : Globals) (expr v : string) (x0 : float) (maxit : Z)
         (tol : float) (r : result float),
    newton_run L expr v maxit tol (Z.to_nat maxit) g x0 r <->
    fst (solve_newton L g expr v x0 maxit tol) = r.
Proof.
  intros L g expr v x0 maxit tol r. unfold solve_newton. split.
  - apply newton_loop_sound.
  - intros <-. apply newton_loop_complete.
Qed.

(** The solver on "x*x-2" from 1: the root of 2, and too small a budget. *)
Example newton_sqrt2 :
  fst (solve_newton libm_ref g_zero "x*x-2" "x" 1 30 1e-10) =
    Ok 1.4142135623730951%float /\
  fst (solve_newton libm_ref g_zero "x*x-2" "x" 1 3 1e-10) =
    Err (DidNotConverge 3).
Proof. split; vm_compute; reflexivity. Qed.

(** ** Rounding error of double arithmetic

    The operations on doubles are specified by [SpecFloat]: the exact
    result, shifted right to 53 bits with a round and a sticky bit, and
    rounded to nearest even.  For positive operands and an exact result
    well inside the normal range the double result is within a relative
    error of [2^-53] of the exact one. *)

Section RoundingError.
Local Open Scope R_scope.


Lemma bpow_pos e : 0 < bpow e.
Proof. apply powerRZ_lt. lra. Qed.

Lemma bpow_add a b : bpow (a + b) = bpow a * bpow b.
Proof. apply powerRZ_add. lra. Qed.

Lemma bpow_0 : bpow 0 = 1.
Proof. reflexivity. Qed.

Lemma bpow_1 : bpow 1 = 2.
Proof. unfold bpow. simpl. lra. Qed.

Lemma bpow_opp e : bpow (- e) = / bpow e.
Proof. apply powerRZ_neg'. Qed.

Lemma bpow_sub a b : bpow (a - b) = bpow a / bpow b.
Proof. unfold Z.sub. rewrite bpow_add, bpow_opp. reflexivity. Qed.

Lemma bpow_IZR e : (0 <= e)%Z -> bpow e = IZR (2 ^ e).
Proof.
  intros H. unfold bpow. rewrite <- (Z2Nat.id e H) at 1.
  rewrite <- pow_powerRZ. rewrite pow_IZR. rewrite Z2Nat.id by lia. reflexivity.
Qed.

Lemma bpow_le a b : (a <= b)%Z -> bpow a <= bpow b.
Proof.
  intros H. replace b with (a + (b - a))%Z by lia. rewrite bpow_add.
  assert (1 <= bpow (b - a)).
  { rewrite bpow_IZR by lia. apply IZR_le.
    pose proof (Z.pow_pos_nonneg 2 (b - a)). lia. }
  pose proof (bpow_pos a). nra.
Qed.

Lemma bpow_lt a b : (a < b)%Z -> bpow a < bpow b.
Proof.
  intros H. replace b with (a + (b - a))%Z by lia. rewrite bpow_add.
  assert (2 <= bpow (b - a)).
  { rewrite bpow_IZR by lia. apply IZR_le.
    replace (b - a)%Z with (Z.succ (b - a - 1)) by lia.
    rewrite Z.pow_succ_r by lia.
    pose proof (Z.pow_pos_nonneg 2 (b - a - 1)). lia. }
  pose proof (bpow_pos a). nra.
Qed.

Lemma bpow_lt_inv a b : bpow a < bpow b -> (a < b)%Z.
Proof.
  intros H. destruct (Z_lt_le_dec a b) as [|Hle]; auto.
  apply bpow_le in Hle. lra.
Qed.

(** digits *)
Lemma digits2_pos_bounds m :
  (2 ^ (Zpos (digits2_pos m) - 1) <= Zpos m < 2 ^ Zpos (digits2_pos m))%Z.
Proof.
  induction m as [m IH|m IH|]; cbn [digits2_pos].
  - rewrite Pos2Z.inj_succ.
    replace (Z.succ (Z.pos (digits2_pos m)) - 1)%Z
      with (Z.succ (Z.pos (digits2_pos m) - 1)) by lia.
    rewrite !Z.pow_succ_r by lia. lia.
  - rewrite Pos2Z.inj_succ.
    replace (Z.succ (Z.pos (digits2_pos m)) - 1)%Z
      with (Z.succ (Z.pos (digits2_pos m) - 1)) by lia.
    rewrite !Z.pow_succ_r by lia. lia.
  - simpl. lia.
Qed.

Lemma digits2_pos_unique m d :
  (2 ^ (d - 1) <= Zpos m < 2 ^ d)%Z -> Zpos (digits2_pos m) = d.
Proof.
  intros [H1 H2]. pose proof (digits2_pos_bounds m) as [H3 H4].
  set (d' := Zpos (digits2_pos m)) in *.
  assert (0 < d')%Z by (unfold d'; lia).
  assert (0 < d)%Z.
  { destruct (Z_lt_le_dec 0 d); auto.
    assert (2 ^ d <= 1)%Z.
    { destruct (Z.eq_dec d 0) as [->|]; [simpl; lia|].
      rewrite Z.pow_neg_r by lia. lia. }
    lia. }
  destruct (Z_lt_le_dec d d') as [Hlt|Hle].
  - assert (2 ^ d <= 2 ^ (d' - 1))%Z by (apply Z.pow_le_mono_r; lia). lia.
  - destruct (Z_lt_le_dec d' d) as [Hlt|Hle']; [|lia].
    assert (2 ^ d' <= 2 ^ (d - 1))%Z by (apply Z.pow_le_mono_r; lia). lia.
Qed.



Lemma loc_ok_range r s t : loc_ok r s t -> 0 <= t < 1.
Proof. destruct r, s; simpl; lra. Qed.

Lemma IZR_xO p : IZR (Zpos p~0) = 2 * IZR (Zpos p).
Proof. rewrite Pos2Z.inj_xO, mult_IZR. reflexivity. Qed.

Lemma IZR_xI p : IZR (Zpos p~1) = 2 * IZR (Zpos p) + 1.
Proof. rewrite Pos2Z.inj_xI, plus_IZR, mult_IZR. reflexivity. Qed.

Lemma shr_1_repr mrs x : represents mrs x -> represents (shr_1 mrs) (x / 2).
Proof.
  destruct mrs as [m r s]. intros [Hm (t & -> & Ht)].
  cbn [shr_m shr_r shr_s] in *. unfold represents.
  destruct m as [|p|p]; [| |lia].
  - cbn [shr_1 shr_m shr_r shr_s]. split; [lia|]. exists (t / 2).
    split; [lra|]. destruct r, s; simpl in *; lra.
  - destruct p as [p|p|]; cbn [shr_1 shr_m shr_r shr_s].
    + split; [lia|]. exists ((1 + t) / 2).
      split; [rewrite IZR_xI; lra|].
      destruct r, s; simpl in *; lra.
    + split; [lia|]. exists (t / 2).
      split; [rewrite IZR_xO; lra|].
      destruct r, s; simpl in *; lra.
    + split; [lia|]. exists ((1 + t) / 2).
      split; [lra|].
      destruct r, s; simpl in *; lra.
Qed.

Lemma iter_pos_nat {A : Type} (f : A -> A) p x :
  SpecFloat.iter_pos f p x = Nat.iter (Pos.to_nat p) f x.
Proof.
  revert x; induction p as [p IH|p IH|]; intros x; cbn [SpecFloat.iter_pos].
  - rewrite !IH. rewrite Pos2Nat.inj_xI.
    replace (S (2 * Pos.to_nat p)) with (Pos.to_nat p + (Pos.to_nat p + 1))%nat by lia.
    rewrite !Nat.iter_add. simpl. reflexivity.
  - rewrite !IH. rewrite Pos2Nat.inj_xO.
    replace (2 * Pos.to_nat p)%nat with (Pos.to_nat p + Pos.to_nat p)%nat by lia.
    rewrite Nat.iter_add. reflexivity.
  - reflexivity.
Qed.

Lemma shr_iter_repr n mrs x :
  represents mrs x -> represents (Nat.iter n shr_1 mrs) (x / 2 ^ n).
Proof.
  induction n as [|n IH]; intros H.
  - simpl. now replace (x / 1) with x by field.
  - simpl. replace (x / (2 * 2 ^ n)) with (x / 2 ^ n / 2).
    + apply shr_1_repr. now apply IH.
    + field. apply pow_nonzero. lra.
Qed.

Lemma shr_repr mrs e k x :
  (0 <= k)%Z -> represents mrs x ->
  snd (shr mrs e k) = (e + k)%Z /\ represents (fst (shr mrs e k)) (x / bpow k).
Proof.
  intros Hk H. destruct k as [|p|p]; [| |lia].
  - cbn [shr fst snd]. rewrite Z.add_0_r. split; auto.
    rewrite bpow_0. replace (x / 1) with x by field. exact H.
  - cbn [shr fst snd]. split; auto. rewrite iter_pos_nat.
    replace (bpow (Z.pos p)) with (2 ^ Pos.to_nat p).
    + now apply shr_iter_repr.
    + unfold bpow. rewrite <- (positive_nat_Z p), <- pow_powerRZ. reflexivity.
Qed.


Lemma repr_of_loc m l t :
  (0 <= m)%Z -> location_ok l t -> represents (shr_record_of_loc m l) (IZR m + t).
Proof.
  intros Hm H. unfold represents.
  destruct l as [|[]]; cbn [shr_record_of_loc shr_m shr_r shr_s location_ok] in *;
    (split; [lia|]); exists t; simpl; auto.
Qed.

Lemma round_nearest_even_spec mrs x :
  represents mrs x ->
  let m := round_nearest_even (shr_m mrs) (loc_of_shr_record mrs) in
  (m = shr_m mrs \/ m = (shr_m mrs + 1)%Z) /\ Rabs (IZR m - x) <= 1 / 2.
Proof.
  destruct mrs as [m r s]. intros [Hm (t & -> & Ht)].
  cbn [shr_m shr_r shr_s] in *. cbv zeta.
  destruct r, s; cbn [loc_of_shr_record round_nearest_even loc_ok] in *.
  - split; [right; reflexivity|]. rewrite plus_IZR.
    apply Rabs_le. lra.
  - destruct (Z.even m).
    + split; [left; reflexivity|]. apply Rabs_le. lra.
    + split; [right; reflexivity|]. rewrite plus_IZR. apply Rabs_le. lra.
  - split; [left; reflexivity|]. apply Rabs_le. lra.
  - split; [left; reflexivity|]. apply Rabs_le. lra.
Qed.

Lemma fexp_normal z : (-1021 <= z)%Z -> fexp prec emax z = (z - 53)%Z.
Proof. intros H. unfold fexp, emin, prec, emax. lia. Qed.

Lemma IZR_pow2 n : (0 <= n)%Z -> IZR (2 ^ n) = bpow n.
Proof. intros. now rewrite bpow_IZR. Qed.

(** Rounding a positive value that lies well inside the normal range. *)
Lemma round_aux_normal (mx : positive) (ex : Z) (lx : location) (t : R) :
  location_ok lx t ->
  (2 ^ 52 <= Zpos mx)%Z ->
  bpow (-1000) <= (IZR (Zpos mx) + t) * bpow ex <= bpow 1000 ->
  exists m e,
    binary_round_aux prec emax false (Zpos mx) ex lx = S754_finite false m e /\
    (2 ^ 52 <= Zpos m < 2 ^ 53)%Z /\ (-1074 <= e <= 971)%Z /\
    Rabs (IZR (Zpos m) * bpow e - (IZR (Zpos mx) + t) * bpow ex)
      <= bpow (-53) * ((IZR (Zpos mx) + t) * bpow ex).
Proof.
  intros Hl Hmx [Hlo Hhi].
  set (x := IZR (Zpos mx) + t) in *.
  set (d := Zpos (digits2_pos mx)).
  pose proof (digits2_pos_bounds mx) as [Hd1 Hd2]. fold d in Hd1, Hd2.
  assert (Ht : 0 <= t < 1) by (destruct lx as [|[]]; simpl in Hl; lra).
  assert (Hd : (53 <= d)%Z).
  { destruct (Z_lt_le_dec d 53) as [Hlt|]; auto.
    assert (2 ^ d <= 2 ^ 52)%Z by (apply Z.pow_le_mono_r; lia). lia. }
  assert (Hx1 : bpow (d - 1) <= x).
  { unfold x. rewrite <- IZR_pow2 by lia. apply IZR_le in Hd1. lra. }
  assert (Hx2 : x < bpow d).
  { unfold x. rewrite <- IZR_pow2 by lia.
    assert (Zpos mx + 1 <= 2 ^ d)%Z by lia.
    apply IZR_le in H. rewrite plus_IZR in H. lra. }
  pose proof (bpow_pos ex) as Hbe.
  assert (Hde1 : (-1000 < d + ex)%Z).
  { apply bpow_lt_inv. rewrite bpow_add.
    apply Rle_lt_trans with (1 := Hlo). nra. }
  assert (Hde2 : (d - 1 + ex <= 1000)%Z).
  { destruct (Z_lt_le_dec 1000 (d - 1 + ex)) as [Hlt|]; auto.
    apply bpow_lt in Hlt. rewrite bpow_add in Hlt. nra. }
  set (k := (d - 53)%Z).
  set (e1 := (ex + k)%Z).
  set (x1 := x / bpow k).
  pose proof (bpow_pos k) as Hbk.
  assert (HV : x * bpow ex = x1 * bpow e1).
  { unfold x1, e1. rewrite bpow_add. field. lra. }
  assert (Hx1' : bpow 52 <= x1 < bpow 53).
  { unfold x1. split.
    - apply Rmult_le_reg_r with (bpow k); auto.
      unfold Rdiv. rewrite Rmult_assoc, Rinv_l, Rmult_1_r by lra.
      rewrite <- bpow_add. now replace (52 + k)%Z with (d - 1)%Z by (unfold k; lia).
    - apply Rmult_lt_reg_r with (bpow k); auto.
      unfold Rdiv. rewrite Rmult_assoc, Rinv_l, Rmult_1_r by lra.
      rewrite <- bpow_add. now replace (53 + k)%Z with d by (unfold k; lia). }
  (* first shift *)
  unfold binary_round_aux.
  assert (Hs1 : shr_fexp prec emax (Zpos mx) ex lx =
                shr (shr_record_of_loc (Zpos mx) lx) ex k).
  { unfold shr_fexp. cbn [Zdigits2]. fold d.
    rewrite fexp_normal by lia. f_equal. unfold k. lia. }
  rewrite Hs1.
  destruct (shr_repr (shr_record_of_loc (Zpos mx) lx) ex k x) as [He1 Hr1].
  { unfold k. lia. }
  { unfold x. apply repr_of_loc; [lia|exact Hl]. }
  destruct (shr (shr_record_of_loc (Zpos mx) lx) ex k) as [mrs1 e1'].
  cbn [fst snd] in He1, Hr1. subst e1'. fold e1. fold x1 in Hr1.
  pose proof (round_nearest_even_spec mrs1 x1 Hr1) as [Hm2 Herr].
  cbv zeta in Hm2, Herr.
  set (m2 := round_nearest_even (shr_m mrs1) (loc_of_shr_record mrs1)) in *.
  destruct Hr1 as [Hm1 (t1 & Hx1t & Ht1)].
  apply loc_ok_range in Ht1.
  assert (Hm1lo : (2 ^ 52 <= shr_m mrs1)%Z).
  { assert (IZR (2 ^ 52) < IZR (shr_m mrs1 + 1)).
    { rewrite plus_IZR, IZR_pow2 by lia. lra. }
    apply lt_IZR in H. lia. }
  assert (Hm1hi : (shr_m mrs1 < 2 ^ 53)%Z).
  { apply lt_IZR. rewrite IZR_pow2 by lia. lra. }
  assert (Hm2r : (2 ^ 52 <= m2 <= 2 ^ 53)%Z) by lia.
  assert (He1lo : (-1053 < e1)%Z).
  { unfold e1, k. lia. }
  assert (He1hi : (e1 <= 948)%Z).
  { unfold e1, k. lia. }
  pose proof (bpow_pos e1) as Hbe1.
  assert (Hhalf : bpow e1 / 2 <= bpow (-53) * (x1 * bpow e1)).
  { assert (bpow (-53) * bpow 52 = 1 / 2).
    { rewrite <- bpow_add. simpl. unfold bpow. simpl. lra. }
    assert (bpow (-53) * bpow 52 <= bpow (-53) * x1).
    { apply Rmult_le_compat_l; [pose proof (bpow_pos (-53)); lra|lra]. }
    nra. }
  assert (Herr2 : Rabs (IZR m2 * bpow e1 - x1 * bpow e1) <= bpow e1 / 2).
  { replace (IZR m2 * bpow e1 - x1 * bpow e1) with ((IZR m2 - x1) * bpow e1) by ring.
    rewrite Rabs_mult, (Rabs_pos_eq (bpow e1)) by lra. nra. }
  rewrite HV.
  destruct (Z.eq_dec m2 (2 ^ 53)) as [Hc|Hc].
  - (* carry *)
    rewrite Hc in *.
    assert (Hs2 : shr_fexp prec emax (2 ^ 53) e1 loc_Exact =
                  ({| shr_m := 2 ^ 52; shr_r := false; shr_s := false |},
                   (e1 + 1)%Z)).
    { unfold shr_fexp.
      change (Zdigits2 (2 ^ 53)) with 54%Z.
      rewrite fexp_normal by lia.
      replace (54 + e1 - 53 - e1)%Z with 1%Z by lia. reflexivity. }
    rewrite Hs2. cbn [shr_m].
    change (2 ^ 52)%Z with (Zpos (2 ^ 52)).
    replace (e1 + 1 <=? emax - prec)%Z with true
      by (symmetry; apply Z.leb_le; unfold emax, prec; lia).
    exists (2 ^ 52)%positive, (e1 + 1)%Z.
    split; [reflexivity|]. split; [lia|]. split; [lia|].
    replace (IZR (Z.pos (2 ^ 52)) * bpow (e1 + 1)) with (IZR (2 ^ 53) * bpow e1).
    + lra.
    + rewrite bpow_add, bpow_1.
      change (Z.pos (2 ^ 52)) with (2 ^ 52)%Z.
      rewrite !IZR_pow2 by lia.
      replace 53%Z with (52 + 1)%Z by lia. rewrite bpow_add, bpow_1. ring.
  - assert (Hm2p : (0 < m2)%Z) by lia.
    destruct m2 as [|m|m] eqn:Em2; try lia.
    assert (Hdm : Zpos (digits2_pos m) = 53%Z)
      by (apply digits2_pos_unique; lia).
    assert (Hs2 : shr_fexp prec emax (Zpos m) e1 loc_Exact =
                  ({| shr_m := Zpos m; shr_r := false; shr_s := false |}, e1)).
    { unfold shr_fexp. cbn [Zdigits2]. rewrite Hdm.
      rewrite fexp_normal by lia.
      replace (53 + e1 - 53 - e1)%Z with 0%Z by lia. reflexivity. }
    rewrite Hs2. cbn [shr_m].
    replace (e1 <=? emax - prec)%Z with true
      by (symmetry; apply Z.leb_le; unfold emax, prec; lia).
    exists m, e1. split; [reflexivity|]. split; [lia|]. split; [lia|]. lra.
Qed.

Lemma iter_xO_value m p : Zpos (Pos.iter xO m p) = (Zpos m * 2 ^ Zpos p)%Z.
Proof.
  induction p as [|p IH] using Pos.peano_ind.
  - simpl. lia.
  - rewrite Pos.iter_succ, Pos2Z.inj_xO, IH, Pos2Z.inj_succ.
    rewrite Z.pow_succ_r by lia. ring.
Qed.

Lemma shl_align_value m e ez :
  (ez <= e)%Z ->
  snd (shl_align m e ez) = ez /\
  Zpos (fst (shl_align m e ez)) = (Zpos m * 2 ^ (e - ez))%Z.
Proof.
  intros H. unfold shl_align.
  destruct (ez - e)%Z as [|p|p] eqn:E; try lia.
  - assert (ez = e) by lia. subst ez. simpl.
    rewrite Z.sub_diag. simpl. split; [reflexivity|lia].
  - cbn [fst snd]. split; [reflexivity|].
    rewrite iter_xO_value. f_equal. f_equal. lia.
Qed.

Lemma shl_align_real m e ez :
  (ez <= e)%Z ->
  IZR (Zpos (fst (shl_align m e ez))) * bpow ez = IZR (Zpos m) * bpow e.
Proof.
  intros H. destruct (shl_align_value m e ez H) as [_ ->].
  rewrite mult_IZR, IZR_pow2 by lia.
  rewrite Rmult_assoc, <- bpow_add. f_equal. f_equal. lia.
Qed.

(** [binary_round] of a positive integer mantissa. *)
Lemma binary_round_normal (M : positive) (ez : Z) :
  bpow (-1000) <= IZR (Zpos M) * bpow ez <= bpow 1000 ->
  exists m e,
    binary_round prec emax false M ez = S754_finite false m e /\
    (2 ^ 52 <= Zpos m < 2 ^ 53)%Z /\ (-1074 <= e <= 971)%Z /\
    Rabs (IZR (Zpos m) * bpow e - IZR (Zpos M) * bpow ez)
      <= bpow (-53) * (IZR (Zpos M) * bpow ez).
Proof.
  intros [Hlo Hhi]. unfold binary_round.
  set (d := Zpos (digits2_pos M)).
  pose proof (digits2_pos_bounds M) as [Hd1 Hd2]. fold d in Hd1, Hd2.
  pose proof (bpow_pos ez) as Hbe.
  assert (Hdpos : (0 < d)%Z) by (unfold d; lia).
  assert (Hde1 : (-1000 < d + ez)%Z).
  { apply bpow_lt_inv. rewrite bpow_add.
    apply Rle_lt_trans with (1 := Hlo).
    rewrite <- (IZR_pow2 d) by lia. apply IZR_lt in Hd2. nra. }
  rewrite fexp_normal by lia.
  destruct (Z_lt_le_dec d 53) as [Hlt|Hge].
  - (* shift left to 53 digits *)
    destruct (shl_align_value M ez (d + ez - 53)) as [He Hm]; [lia|].
    pose proof (shl_align_real M ez (d + ez - 53)) as Hv.
    destruct (shl_align M ez (d + ez - 53)) as [mz ez'].
    cbn [fst snd] in *. subst ez'.
    specialize (Hv ltac:(lia)).
    assert (Hmz : (2 ^ 52 <= Zpos mz)%Z).
    { rewrite Hm. replace (ez - (d + ez - 53))%Z with (53 - d)%Z by lia.
      replace 52%Z with ((d - 1) + (53 - d))%Z by lia.
      rewrite Z.pow_add_r by lia.
      apply Z.mul_le_mono_nonneg_r; [|lia].
      apply Z.pow_nonneg. lia. }
    destruct (round_aux_normal mz (d + ez - 53) loc_Exact 0) as (m & e & H1 & H2 & H3 & H4).
    + reflexivity.
    + exact Hmz.
    + rewrite Rplus_0_r, Hv. lra.
    + exists m, e. rewrite Rplus_0_r, Hv in H4. auto.
  - assert (Hsa : shl_align M ez (d + ez - 53) = (M, ez)).
    { unfold shl_align. destruct (d + ez - 53 - ez)%Z eqn:E; try reflexivity. lia. }
    rewrite Hsa.
    destruct (round_aux_normal M ez loc_Exact 0) as (m & e & H1 & H2 & H3 & H4).
    + reflexivity.
    + assert (2 ^ 52 <= 2 ^ (d - 1))%Z by (apply Z.pow_le_mono_r; lia). lia.
    + rewrite Rplus_0_r. lra.
    + exists m, e. rewrite Rplus_0_r in H4. auto.
Qed.




Lemma normal_sf_pos s X : normal_sf s X -> 0 < X.
Proof.
  intros (m & e & _ & Hm & _ & ->).
  apply Rmult_lt_0_compat; [apply IZR_lt; lia|apply bpow_pos].
Qed.

Lemma SFmul_normal s1 s2 X Y :
  normal_sf s1 X -> normal_sf s2 Y ->
  bpow (-1000) <= X * Y <= bpow 1000 ->
  exists Z, normal_sf (SFmul prec emax s1 s2) Z /\
            Rabs (Z - X * Y) <= unit_roundoff * (X * Y).
Proof.
  intros (m1 & e1 & -> & Hm1 & He1 & ->) (m2 & e2 & -> & Hm2 & He2 & ->) Hr.
  cbn [SFmul xorb].
  assert (HV : IZR (Zpos m1) * bpow e1 * (IZR (Zpos m2) * bpow e2) =
               (IZR (Zpos (m1 * m2)) + 0) * bpow (e1 + e2)).
  { rewrite Pos2Z.inj_mul, mult_IZR, bpow_add. ring. }
  rewrite HV in *.
  destruct (round_aux_normal (m1 * m2) (e1 + e2) loc_Exact 0)
    as (m & e & H1 & H2 & H3 & H4).
  - reflexivity.
  - rewrite Pos2Z.inj_mul.
    assert (2 ^ 52 * 1 <= Zpos m1 * Zpos m2)%Z by nia. lia.
  - exact Hr.
  - exists (IZR (Zpos m) * bpow e). split; [|exact H4].
    exists m, e. auto.
Qed.

Lemma SFadd_normal s1 s2 X Y :
  normal_sf s1 X -> normal_sf s2 Y ->
  bpow (-1000) <= X + Y <= bpow 1000 ->
  exists Z, normal_sf (SFadd prec emax s1 s2) Z /\
            Rabs (Z - (X + Y)) <= unit_roundoff * (X + Y).
Proof.
  intros H1 H2 Hr.
  pose proof (normal_sf_pos _ _ H1) as HX.
  pose proof (normal_sf_pos _ _ H2) as HY.
  destruct H1 as (m1 & e1 & -> & Hm1 & He1 & EX).
  destruct H2 as (m2 & e2 & -> & Hm2 & He2 & EY).
  cbn [SFadd cond_Zopp].
  set (ez := Z.min e1 e2).
  assert (Hz1 : (ez <= e1)%Z) by (unfold ez; apply Z.le_min_l).
  assert (Hz2 : (ez <= e2)%Z) by (unfold ez; apply Z.le_min_r).
  pose proof (shl_align_real m1 e1 ez Hz1) as Ha.
  pose proof (shl_align_real m2 e2 ez Hz2) as Hb.
  set (a := fst (shl_align m1 e1 ez)) in *.
  set (b := fst (shl_align m2 e2 ez)) in *.
  change (Z.pos a + Z.pos b)%Z with (Zpos (a + b)).
  cbn [binary_normalize].
  assert (HV : IZR (Zpos (a + b)) * bpow ez = X + Y).
  { rewrite Pos2Z.inj_add, plus_IZR, Rmult_plus_distr_r, Ha, Hb. lra. }
  destruct (binary_round_normal (a + b) ez) as (m & e & R1 & R2 & R3 & R4).
  - rewrite HV. exact Hr.
  - exists (IZR (Zpos m) * bpow e). rewrite HV in R4. split; [|exact R4].
    exists m, e. auto.
Qed.

Lemma new_location_ok nb k :
  (0 < nb)%Z -> (0 <= k < nb)%Z ->
  location_ok (new_location nb k) (IZR k / IZR nb).
Proof.
  intros Hnb Hk.
  assert (Hnbr : 0 < IZR nb) by (apply IZR_lt; lia).
  assert (Hkr : 0 <= IZR k < IZR nb) by (split; [apply IZR_le|apply IZR_lt]; lia).
  assert (Hdiv : forall c, IZR k / IZR nb < c <-> IZR k < c * IZR nb).
  { intros c. split; intros H.
    - apply Rmult_lt_reg_r with (/ IZR nb); [now apply Rinv_0_lt_compat|].
      rewrite Rmult_assoc, Rinv_r by lra. unfold Rdiv in H. lra.
    - unfold Rdiv. apply Rmult_lt_reg_r with (IZR nb); auto.
      rewrite Rmult_assoc, Rinv_l by lra. lra. }
  assert (Hdiv' : forall c, c < IZR k / IZR nb <-> c * IZR nb < IZR k).
  { intros c. split; intros H.
    - apply Rmult_lt_reg_r with (/ IZR nb); [now apply Rinv_0_lt_compat|].
      rewrite Rmult_assoc, Rinv_r by lra. unfold Rdiv in H. lra.
    - unfold Rdiv. apply Rmult_lt_reg_r with (IZR nb); auto.
      rewrite Rmult_assoc, Rinv_l by lra. lra. }
  unfold new_location.
  destruct (Z.even nb) eqn:Ev.
  - unfold new_location_even.
    destruct (Z.eqb_spec k 0) as [->|Hk0].
    + simpl. unfold Rdiv. lra.
    + destruct (Z.compare_spec (2 * k) nb) as [E|E|E]; simpl.
      * rewrite <- E, mult_IZR. field. apply IZR_lt in Hnb.
        assert (0 < IZR k) by (apply IZR_lt; lia). lra.
      * split; [apply Hdiv'; rewrite Rmult_0_l; apply IZR_lt; lia|].
        apply Hdiv. apply IZR_lt in E. rewrite mult_IZR in E. lra.
      * split; [|apply Hdiv; lra].
        apply Hdiv'. apply IZR_lt in E. rewrite mult_IZR in E. lra.
  - unfold new_location_odd.
    destruct (Z.eqb_spec k 0) as [->|Hk0].
    + simpl. unfold Rdiv. lra.
    + assert (Hodd : (2 * k <> nb)%Z).
      { intros <-. rewrite Z.even_mul in Ev. discriminate. }
      destruct (Z.compare_spec (2 * k + 1) nb) as [E|E|E]; simpl.
      * split; [apply Hdiv'; rewrite Rmult_0_l; apply IZR_lt; lia|].
        apply Hdiv. assert (2 * k < nb)%Z by lia.
        apply IZR_lt in H. rewrite mult_IZR in H. lra.
      * split; [apply Hdiv'; rewrite Rmult_0_l; apply IZR_lt; lia|].
        apply Hdiv. assert (2 * k < nb)%Z by lia.
        apply IZR_lt in H. rewrite mult_IZR in H. lra.
      * split; [|apply Hdiv; lra].
        apply Hdiv'. assert (nb < 2 * k)%Z by lia.
        apply IZR_lt in H. rewrite mult_IZR in H. lra.
Qed.

Lemma SFdiv_normal s1 s2 X Y :
  normal_sf s1 X -> normal_sf s2 Y ->
  bpow (-1000) <= X / Y <= bpow 1000 ->
  exists Z, normal_sf (SFdiv prec emax s1 s2) Z /\
            Rabs (Z - X / Y) <= unit_roundoff * (X / Y).
Proof.
  intros (m1 & e1 & -> & Hm1 & He1 & ->) (m2 & e2 & -> & Hm2 & He2 & ->) Hr.
  cbn [SFdiv xorb].
  assert (Hd1 : Zpos (digits2_pos m1) = 53%Z) by (apply digits2_pos_unique; lia).
  assert (Hd2 : Zpos (digits2_pos m2) = 53%Z) by (apply digits2_pos_unique; lia).
  pose proof (bpow_pos e1) as Hb1. pose proof (bpow_pos e2) as Hb2.
  assert (HM1 : bpow 52 <= IZR (Zpos m1) < bpow 53).
  { rewrite <- !IZR_pow2 by lia. split; [apply IZR_le|apply IZR_lt]; lia. }
  assert (HM2 : bpow 52 <= IZR (Zpos m2) < bpow 53).
  { rewrite <- !IZR_pow2 by lia. split; [apply IZR_le|apply IZR_lt]; lia. }
  pose proof (bpow_pos 52) as Hb52.
  assert (Hq : IZR (Zpos m1) * bpow e1 / (IZR (Zpos m2) * bpow e2) =
               IZR (Zpos m1) / IZR (Zpos m2) * bpow (e1 - e2)).
  { rewrite bpow_sub. field. split; lra. }
  rewrite Hq in *.
  assert (Hratio : IZR (Zpos m1) / IZR (Zpos m2) < 2).
  { apply Rmult_lt_reg_r with (IZR (Zpos m2)); [lra|].
    unfold Rdiv. rewrite Rmult_assoc, Rinv_l, Rmult_1_r by lra.
    assert (bpow 53 = 2 * bpow 52)
      by (replace 53%Z with (1 + 52)%Z by lia; now rewrite bpow_add, bpow_1).
    lra. }
  assert (Hratio0 : 0 < IZR (Zpos m1) / IZR (Zpos m2)).
  { apply Rdiv_lt_0_compat; lra. }
  pose proof (bpow_pos (e1 - e2)) as Hb12.
  assert (Hediff : (-1021 <= e1 - e2)%Z).
  { destruct (Z_lt_le_dec (e1 - e2) (-1021)) as [Hlt|]; auto.
    assert (bpow (e1 - e2 + 1) <= bpow (-1021)) by (apply bpow_le; lia).
    rewrite bpow_add, bpow_1 in H.
    assert (bpow (-1021) < bpow (-1000)) by (apply bpow_lt; lia).
    nra. }
  unfold SFdiv_core_binary. cbn [Zdigits2]. rewrite Hd1, Hd2.
  replace (53 + e1 - (53 + e2))%Z with (e1 - e2)%Z by lia.
  rewrite fexp_normal by lia.
  replace (Z.min (e1 - e2 - 53) (e1 - e2)) with (e1 - e2 - 53)%Z by lia.
  replace (e1 - e2 - (e1 - e2 - 53))%Z with 53%Z by lia.
  cbv iota beta.
  rewrite Z.shiftl_mul_pow2 by lia.
  assert (Hgt : (Zpos m2 > 0)%Z) by lia.
  pose proof (Z_div_mod (Zpos m1 * 2 ^ 53) (Zpos m2) Hgt) as Hdm.
  destruct (Z.div_eucl (Zpos m1 * 2 ^ 53) (Zpos m2)) as [q r].
  destruct Hdm as [Hdm Hrr].
  assert (Hq52 : (2 ^ 52 <= q)%Z).
  { destruct (Z_lt_le_dec q (2 ^ 52)) as [Hlt|]; auto.
    assert (Zpos m2 * q <= Zpos m2 * (2 ^ 52 - 1))%Z
      by (apply Z.mul_le_mono_nonneg_l; lia).
    assert (2 ^ 52 * 2 ^ 53 <= Zpos m1 * 2 ^ 53)%Z
      by (apply Z.mul_le_mono_nonneg_r; lia).
    assert (Zpos m2 * 2 ^ 52 < 2 ^ 53 * 2 ^ 52)%Z
      by (apply Z.mul_lt_mono_pos_r; lia).
    lia. }
  destruct q as [|mq|mq]; try lia.
  assert (HV : IZR (Zpos m1) / IZR (Zpos m2) * bpow (e1 - e2) =
               (IZR (Zpos mq) + IZR r / IZR (Zpos m2)) * bpow (e1 - e2 - 53)).
  { rewrite (bpow_sub (e1 - e2) 53).
    assert (IZR (Zpos m1) * bpow 53 = IZR (Zpos m2) * IZR (Zpos mq) + IZR r).
    { rewrite <- IZR_pow2 by lia. rewrite <- !mult_IZR, <- plus_IZR.
      f_equal. exact Hdm. }
    pose proof (bpow_pos 53).
    replace (IZR (Zpos mq) + IZR r / IZR (Zpos m2))
      with (IZR (Zpos m1) * bpow 53 / IZR (Zpos m2))
      by (rewrite H; field; lra).
    field. split; lra. }
  rewrite HV in *.
  destruct (round_aux_normal mq (e1 - e2 - 53) (new_location (Zpos m2) r)
              (IZR r / IZR (Zpos m2)))
    as (m & e & R1 & R2 & R3 & R4).
  - apply new_location_ok; lia.
  - exact Hq52.
  - exact Hr.
  - exists (IZR (Zpos m) * bpow e). split; [|exact R4].
    exists m, e. auto.
Qed.


Lemma normal_sf_valid s X : normal_sf s X -> valid_binary s = true.
Proof.
  intros (m & e & -> & Hm & He & _).
  cbn [SpecFloat.valid_binary]. unfold SpecFloat.bounded, SpecFloat.canonical_mantissa.
  rewrite (digits2_pos_unique m 53) by lia.
  unfold fexp, emin, prec, emax.
  apply andb_true_intro. split; [apply Z.eqb_eq|apply Z.leb_le]; lia.
Qed.

Lemma mul_normal x y X Y :
  normal x X -> normal y Y ->
  bpow (-1000) <= X * Y <= bpow 1000 ->
  exists Z, normal (x * y) Z /\ Rabs (Z - X * Y) <= unit_roundoff * (X * Y).
Proof.
  intros Hx Hy Hr. unfold normal. rewrite mul_spec.
  now apply SFmul_normal.
Qed.

Lemma add_normal x y X Y :
  normal x X -> normal y Y ->
  bpow (-1000) <= X + Y <= bpow 1000 ->
  exists Z, normal (x + y) Z /\ Rabs (Z - (X + Y)) <= unit_roundoff * (X + Y).
Proof.
  intros Hx Hy Hr. unfold normal. rewrite add_spec.
  now apply SFadd_normal.
Qed.

Lemma div_normal x y X Y :
  normal x X -> normal y Y ->
  bpow (-1000) <= X / Y <= bpow 1000 ->
  exists Z, normal (x / y) Z /\ Rabs (Z - X / Y) <= unit_roundoff * (X / Y).
Proof.
  intros Hx Hy Hr. unfold normal. rewrite div_spec.
  now apply SFdiv_normal.
Qed.

Lemma of_Z_normal z :
  (0 < z <= 2 ^ 1000)%Z ->
  exists Z, normal (CDouble.of_Z z) Z /\ Rabs (Z - IZR z) <= unit_roundoff * IZR z.
Proof.
  intros Hz. destruct z as [|p|p]; try lia.
  unfold CDouble.of_Z, normal. cbn [binary_normalize].
  destruct (binary_round_normal p 0) as (m & e & R1 & R2 & R3 & R4).
  - rewrite bpow_0, Rmult_1_r. split.
    + apply Rle_trans with (bpow 0); [apply bpow_le; lia|].
      rewrite bpow_0. apply IZR_le. lia.
    + rewrite <- IZR_pow2 by lia. apply IZR_le. lia.
  - rewrite bpow_0, Rmult_1_r in R4.
    assert (Hn : normal_sf (binary_round prec emax false p 0)
                   (IZR (Zpos m) * bpow e)).
    { exists m, e. auto. }
    rewrite Prim2SF_SF2Prim by (eapply normal_sf_valid; exact Hn).
    exists (IZR (Zpos m) * bpow e). auto.
Qed.

Lemma add_zero_l y Y : normal y Y -> (0 + y)%float = y.
Proof.
  intros (m & e & Hy & _). apply Prim2SF_inj. rewrite add_spec.
  change (Prim2SF 0) with (S754_zero false). rewrite Hy. reflexivity.
Qed.

Lemma normal_finite y Y :
  normal y Y -> is_infinity y = false /\ is_nan y = false.
Proof.
  intros (m & e & Hy & _). unfold is_infinity, is_nan.
  rewrite !eqb_spec, abs_spec, Hy.
  change (Prim2SF infinity) with (S754_infinity false).
  unfold SFeqb. cbn [SFabs SFcompare].
  rewrite Z.compare_refl, Pos.compare_cont_refl. split; reflexivity.
Qed.

End RoundingError.

(** ** A calculus of accumulated roundings *)

Section ErrorCalculus.
Local Open Scope R_scope.

Lemma Rabs_le_bounds x a : Rabs x <= a -> - a <= x <= a.
Proof. unfold Rabs. destruct (Rcase_abs x); lra. Qed.

Lemma roundoff_range : 0 < unit_roundoff < 1 / 4.
Proof.
  unfold unit_roundoff. split; [apply bpow_pos|].
  apply Rlt_le_trans with (bpow (-2)); [apply bpow_lt; lia|].
  unfold bpow. simpl. lra.
Qed.

Lemma shrink_pos k : 0 < (1 - unit_roundoff) ^ k.
Proof. apply pow_lt. pose proof roundoff_range. lra. Qed.

Lemma grow_pos k : 0 < (/ (1 - unit_roundoff)) ^ k.
Proof.
  apply pow_lt. apply Rinv_0_lt_compat. pose proof roundoff_range. lra.
Qed.

Lemma shrink_grow k : (1 - unit_roundoff) ^ k * (/ (1 - unit_roundoff)) ^ k = 1.
Proof.
  rewrite <- Rpow_mult_distr, Rinv_r, pow1; auto.
  pose proof roundoff_range. lra.
Qed.

Lemma shrink_le_1 k : (1 - unit_roundoff) ^ k <= 1.
Proof.
  pose proof roundoff_range.
  apply Rle_trans with (1 ^ k); [apply pow_incr; lra|rewrite pow1; lra].
Qed.

Lemma grow_ge_1 k : 1 <= (/ (1 - unit_roundoff)) ^ k.
Proof.
  pose proof (shrink_grow k). pose proof (shrink_pos k).
  pose proof (shrink_le_1 k). pose proof (grow_pos k). nra.
Qed.

Lemma shrink_mono k l :
  (k <= l)%nat -> (1 - unit_roundoff) ^ l <= (1 - unit_roundoff) ^ k.
Proof.
  intros H. replace l with (k + (l - k))%nat by lia. rewrite pow_add.
  pose proof (shrink_pos k). pose proof (shrink_le_1 (l - k)).
  pose proof (shrink_pos (l - k)). nra.
Qed.

Lemma grow_mono k l :
  (k <= l)%nat ->
  (/ (1 - unit_roundoff)) ^ k <= (/ (1 - unit_roundoff)) ^ l.
Proof.
  intros H. replace l with (k + (l - k))%nat by lia. rewrite pow_add.
  pose proof (grow_pos k). pose proof (grow_ge_1 (l - k)). nra.
Qed.

(** Bernoulli's inequality for the shrinking factor. *)
Lemma shrink_bernoulli k :
  1 - INR k * unit_roundoff <= (1 - unit_roundoff) ^ k.
Proof.
  pose proof roundoff_range as Hu.
  induction k as [|k IH].
  - simpl. lra.
  - rewrite S_INR. cbn [pow]. pose proof (pos_INR k). nra.
Qed.

Lemma few_roundings k :
  (Z.of_nat k <= 2 ^ 40)%Z -> INR k * unit_roundoff <= bpow (-13).
Proof.
  intros H. rewrite INR_IZR_INZ. apply IZR_le in H.
  rewrite IZR_pow2 in H by lia. unfold unit_roundoff.
  replace (-13)%Z with (40 + -53)%Z by lia. rewrite bpow_add.
  pose proof (bpow_pos (-53)). nra.
Qed.

Lemma small_13 : bpow (-13) <= 1 / 4.
Proof.
  apply Rle_trans with (bpow (-2)); [apply bpow_le; lia|].
  unfold bpow. simpl. lra.
Qed.

Lemma shrink_half k :
  (Z.of_nat k <= 2 ^ 40)%Z -> 1 / 2 <= (1 - unit_roundoff) ^ k.
Proof.
  intros H. pose proof (few_roundings k H). pose proof small_13.
  pose proof (shrink_bernoulli k). lra.
Qed.

Lemma grow_two k :
  (Z.of_nat k <= 2 ^ 40)%Z -> (/ (1 - unit_roundoff)) ^ k <= 2.
Proof.
  intros H. pose proof (shrink_half k H). pose proof (shrink_grow k).
  pose proof (grow_pos k). nra.
Qed.

Lemma near_refl A : near 0 A A.
Proof. unfold near. simpl. lra. Qed.

Lemma near_pos k A X : 0 < A -> near k A X -> 0 < X.
Proof.
  intros HA [H _]. pose proof (shrink_pos k).
  apply Rlt_le_trans with (2 := H). nra.
Qed.

Lemma near_mono k l A X :
  (k <= l)%nat -> 0 < A -> near k A X -> near l A X.
Proof.
  intros Hkl HA [H1 H2]. pose proof (shrink_mono k l Hkl).
  pose proof (grow_mono k l Hkl). split; nra.
Qed.

Lemma near_trans k l A X Z :
  0 < A -> near k A X -> near l X Z -> near (k + l) A Z.
Proof.
  intros HA HX [H1 H2]. pose proof (near_pos k A X HA HX) as HXp.
  destruct HX as [H3 H4]. unfold near. rewrite !pow_add.
  pose proof (shrink_pos k). pose proof (shrink_pos l).
  pose proof (grow_pos k). pose proof (grow_pos l).
  split.
  - apply Rle_trans with (X * (1 - unit_roundoff) ^ l); [|exact H1]. nra.
  - apply Rle_trans with (X * (/ (1 - unit_roundoff)) ^ l); [exact H2|]. nra.
Qed.

(** One rounding. *)
Lemma near_round V Z :
  0 < V -> Rabs (Z - V) <= unit_roundoff * V -> near 1 V Z.
Proof.
  intros HV H. apply Rabs_le_bounds in H. pose proof roundoff_range as Hu.
  unfold near. rewrite !pow_1. split; [nra|].
  assert (1 + unit_roundoff <= / (1 - unit_roundoff)).
  { apply Rmult_le_reg_r with (1 - unit_roundoff); [lra|].
    rewrite Rinv_l by lra. nra. }
  nra.
Qed.

Lemma near_mul k l A B X Y :
  0 < A -> 0 < B -> near k A X -> near l B Y ->
  near (k + l) (A * B) (X * Y).
Proof.
  intros HA HB HX HY.
  pose proof (near_pos _ _ _ HA HX). pose proof (near_pos _ _ _ HB HY).
  destruct HX as [H1 H2], HY as [H3 H4]. unfold near. rewrite !pow_add.
  pose proof (shrink_pos k). pose proof (shrink_pos l).
  pose proof (grow_pos k). pose proof (grow_pos l).
  split.
  - replace (A * B * ((1 - unit_roundoff) ^ k * (1 - unit_roundoff) ^ l))
      with (A * (1 - unit_roundoff) ^ k * (B * (1 - unit_roundoff) ^ l)) by ring.
    apply Rmult_le_compat; nra.
  - replace (A * B * ((/ (1 - unit_roundoff)) ^ k * (/ (1 - unit_roundoff)) ^ l))
      with (A * (/ (1 - unit_roundoff)) ^ k * (B * (/ (1 - unit_roundoff)) ^ l))
      by ring.
    apply Rmult_le_compat; nra.
Qed.

Lemma near_add k A B X Y :
  near k A X -> near k B Y -> near k (A + B) (X + Y).
Proof. intros [H1 H2] [H3 H4]. unfold near. split; nra. Qed.

Lemma near_inv k A X : 0 < A -> near k A X -> near k (/ A) (/ X).
Proof.
  intros HA HX. pose proof (near_pos _ _ _ HA HX) as HXp.
  destruct HX as [H1 H2]. pose proof (shrink_grow k) as Hsg.
  pose proof (shrink_pos k) as Hs. pose proof (grow_pos k) as Hg.
  assert (HiA : 0 < / A) by now apply Rinv_0_lt_compat.
  assert (HiX : 0 < / X) by now apply Rinv_0_lt_compat.
  assert (EA : A * / A = 1) by (apply Rinv_r; lra).
  assert (EX : X * / X = 1) by (apply Rinv_r; lra).
  split.
  - (* / A * s <= / X, from X <= A * g *)
    apply Rmult_le_reg_r with (X * A); [nra|].
    replace (/ X * (X * A)) with (A * (X * / X)) by ring.
    replace (/ A * (1 - unit_roundoff) ^ k * (X * A))
      with (X * (1 - unit_roundoff) ^ k * (A * / A)) by ring.
    rewrite EA, EX. nra.
  - apply Rmult_le_reg_r with (X * A); [nra|].
    replace (/ X * (X * A)) with (A * (X * / X)) by ring.
    replace (/ A * (/ (1 - unit_roundoff)) ^ k * (X * A))
      with (X * (/ (1 - unit_roundoff)) ^ k * (A * / A)) by ring.
    rewrite EA, EX. nra.
Qed.

Lemma near_div k l A B X Y :
  0 < A -> 0 < B -> near k A X -> near l B Y ->
  near (k + l) (A / B) (X / Y).
Proof.
  intros HA HB HX HY. unfold Rdiv. apply near_mul; auto.
  - now apply Rinv_0_lt_compat.
  - now apply near_inv.
Qed.

(** A few roundings keep a value within a factor 2. *)
Lemma near_factor_2 k A X :
  0 < A -> (Z.of_nat k <= 2 ^ 40)%Z -> near k A X -> A / 2 <= X <= 2 * A.
Proof.
  intros HA Hk [H1 H2]. pose proof (shrink_half k Hk).
  pose proof (grow_two k Hk). split; nra.
Qed.

(** The distance after [k] roundings. *)
Lemma near_distance k A X :
  0 < A -> (Z.of_nat k <= 2 ^ 40)%Z -> near k A X ->
  Rabs (X - A) <= 2 * INR k * unit_roundoff * A.
Proof.
  intros HA Hk [H1 H2]. pose proof (few_roundings k Hk) as Hf.
  pose proof small_13 as H13. pose proof (shrink_bernoulli k) as Hb.
  pose proof (shrink_grow k) as Hsg. pose proof (grow_pos k) as Hg.
  pose proof (shrink_pos k) as Hs. pose proof roundoff_range as Hu.
  pose proof (pos_INR k) as Hk0.
  assert (He0 : 0 <= INR k * unit_roundoff) by nra.
  set (e := INR k * unit_roundoff) in *.
  assert (Hgrow : (/ (1 - unit_roundoff)) ^ k <= 1 + 2 * e).
  { apply Rmult_le_reg_l with ((1 - unit_roundoff) ^ k); [exact Hs|].
    rewrite Hsg. apply Rle_trans with ((1 - e) * (1 + 2 * e)); [nra|].
    apply Rmult_le_compat_r; lra. }
  apply Rabs_le. replace (2 * INR k * unit_roundoff * A) with (2 * e * A)
    by (unfold e; ring).
  split; nra.
Qed.

Lemma range_margin V W :
  bpow (-900) <= W <= bpow 900 -> W / 2 <= V <= 2 * W ->
  bpow (-1000) <= V <= bpow 1000.
Proof.
  intros [H1 H2] [H3 H4].
  assert (E1 : bpow (-900) = 2 * bpow (-901)).
  { replace (-900)%Z with (1 + -901)%Z by lia. now rewrite bpow_add, bpow_1. }
  assert (E2 : bpow 901 = 2 * bpow 900).
  { replace 901%Z with (1 + 900)%Z by lia. now rewrite bpow_add, bpow_1. }
  assert (L1 : bpow (-1000) <= bpow (-901)) by (apply bpow_le; lia).
  assert (L2 : bpow 901 <= bpow 1000) by (apply bpow_le; lia).
  split; lra.
Qed.

(** The same steps on doubles. *)
Lemma approx_pos k A x : 0 < A -> approx k A x -> exists X, normal x X /\ 0 < X.
Proof.
  intros HA (X & Hn & HX). exists X. split; auto. eapply near_pos; eauto.
Qed.

Lemma approx_mono k l A x :
  (k <= l)%nat -> 0 < A -> approx k A x -> approx l A x.
Proof.
  intros Hkl HA (X & Hn & HX). exists X. split; auto.
  eapply near_mono; eauto.
Qed.

Lemma approx_of_Z z :
  (0 < z <= 2 ^ 900)%Z -> approx 1 (IZR z) (CDouble.of_Z z).
Proof.
  intros Hz. destruct (of_Z_normal z) as (Z & Hn & Herr).
  - split; [lia|]. apply Z.le_trans with (2 ^ 900)%Z; [lia|].
    apply Z.pow_le_mono_r; lia.
  - exists Z. split; auto. apply near_round; auto. apply IZR_lt. lia.
Qed.

Lemma approx_mul k l A B x y :
  0 < A -> 0 < B -> (Z.of_nat (k + l) <= 2 ^ 40)%Z ->
  bpow (-900) <= A * B <= bpow 900 ->
  approx k A x -> approx l B y -> approx (S (k + l)) (A * B) (x * y)%float.
Proof.
  intros HA HB Hk [Hlo Hhi] (X & Hx & HX) (Y & Hy & HY).
  pose proof (near_mul k l A B X Y HA HB HX HY) as HXY.
  assert (HAB : 0 < A * B) by nra.
  pose proof (near_factor_2 _ _ _ HAB Hk HXY) as [H1 H2].
  destruct (mul_normal x y X Y Hx Hy) as (Z & Hz & Herr).
  - apply range_margin with (2 := conj H1 H2). split; assumption.
  - exists Z. split; auto.
    replace (S (k + l)) with (k + l + 1)%nat by lia.
    apply near_trans with (X * Y); auto.
    apply near_round; auto. nra.
Qed.

Lemma approx_add k A B x y :
  0 < A -> 0 < B -> (Z.of_nat k <= 2 ^ 40)%Z ->
  bpow (-900) <= A + B <= bpow 900 ->
  approx k A x -> approx k B y -> approx (S k) (A + B) (x + y)%float.
Proof.
  intros HA HB Hk [Hlo Hhi] (X & Hx & HX) (Y & Hy & HY).
  pose proof (near_add k A B X Y HX HY) as HXY.
  assert (HAB : 0 < A + B) by lra.
  pose proof (near_factor_2 _ _ _ HAB Hk HXY) as [H1 H2].
  destruct (add_normal x y X Y Hx Hy) as (Z & Hz & Herr).
  - apply range_margin with (2 := conj H1 H2). split; assumption.
  - exists Z. split; auto.
    replace (S k) with (k + 1)%nat by lia.
    apply near_trans with (X + Y); auto.
    apply near_round; auto. lra.
Qed.

Lemma approx_div k l A B x y :
  0 < A -> 0 < B -> (Z.of_nat (k + l) <= 2 ^ 40)%Z ->
  bpow (-900) <= A / B <= bpow 900 ->
  approx k A x -> approx l B y -> approx (S (k + l)) (A / B) (x / y)%float.
Proof.
  intros HA HB Hk [Hlo Hhi] (X & Hx & HX) (Y & Hy & HY).
  pose proof (near_div k l A B X Y HA HB HX HY) as HXY.
  assert (HAB : 0 < A / B) by (apply Rdiv_lt_0_compat; lra).
  pose proof (near_factor_2 _ _ _ HAB Hk HXY) as [H1 H2].
  destruct (div_normal x y X Y Hx Hy) as (Z & Hz & Herr).
  - apply range_margin with (2 := conj H1 H2). split; assumption.
  - exists Z. split; auto.
    replace (S (k + l)) with (k + l + 1)%nat by lia.
    apply near_trans with (X / Y); auto.
    apply near_round; auto. lra.
Qed.

Lemma approx_ext k A B x : A = B -> approx k A x -> approx k B x.
Proof. now intros ->. Qed.

End ErrorCalculus.

(** ** The Simpson integrator *)

Section Simpson.
Variable L : Libm.
Variables expr v : string.
Variable g0 : Globals.
Variable f : float -> float.
Variable sampled : float -> Prop.
Hypothesis v_fits : String.length v <= NAME_LEN - 1.
Hypothesis f_evaluates :
  forall x, sampled x -> fst (eval_with_var L g0 expr v x) = Ok (f x).

Lemma sample_at g x :
  sampled x -> same_view g g0 ->
  exists g1, eval_with_var L g expr v x = (Ok (f x), g1) /\ same_view g1 g0.
Proof.
  intros Hx Hg. exists (snd (eval_with_var L g expr v x)). split.
  - rewrite <- (f_evaluates x Hx),
      <- (eval_with_var_same_view L g g0 expr v x Hg).
    now destruct (eval_with_var L g expr v x).
  - eapply same_view_trans; [|exact Hg].
    now apply eval_with_var_restores.
Qed.

Lemma simpson_loop_refines a h cnt k g s :
  (forall i, k <= i < k + cnt ->
             sampled (a + CDouble.of_Z (Z.of_nat i) * h)%float) ->
  same_view g g0 ->
  exists g',
    simpson_loop L expr v a h cnt (Z.of_nat k) g s =
      (Ok (fold_left
             (simpson_term float PrimFloat.add PrimFloat.mul CDouble.of_Z f a h)
             (map Z.of_nat (seq k cnt)) s), g') /\
    same_view g' g0.
Proof.
  revert k g s; induction cnt as [|cnt IH]; intros k g s Hp Hg.
  - exists g. split; [reflexivity|exact Hg].
  - cbn [simpson_loop seq map fold_left]. cbv zeta.
    destruct (sample_at g (a + CDouble.of_Z (Z.of_nat k) * h)%float
                (Hp k ltac:(lia)) Hg)
      as (g1 & -> & Hg1).
    replace (Z.of_nat k + 1)%Z with (Z.of_nat (S k)) by lia.
    set (x := (a + CDouble.of_Z (Z.of_nat k) * h)%float).
    assert (Hacc : (s + (if Z.odd (Z.of_nat k) then 4 * f x else 2 * f x))%float
                   = simpson_term float PrimFloat.add PrimFloat.mul
                       CDouble.of_Z f a h s (Z.of_nat k)).
    { unfold simpson_term, simpson_weight.
      destruct (Z.odd (Z.of_nat k)); reflexivity. }
    rewrite Hacc. apply IH; [|exact Hg1].
    intros i Hi. apply Hp. lia.
Qed.

Lemma simpson_sum_refines a b n :
  sampled a -> sampled b ->
  (forall i, (1 <= i < n)%Z ->
             sampled (a + CDouble.of_Z i * ((b - a) / CDouble.of_Z n))%float) ->
  fst (simpson_sum L g0 expr v a b n) = Ok (simpson_rule_double f a b n).
Proof.
  intros Ha Hb Hp. unfold simpson_sum. cbv zeta.
  destruct (sample_at g0 a Ha (same_view_refl g0)) as (g1 & -> & Hg1).
  destruct (simpson_loop_refines a
              ((b - a) / CDouble.of_Z n)%float
              (Z.to_nat (n - 1)) 1 g1 (0 + f a)%float)
    as (g2 & Hloop & Hg2).
  { intros i Hi. apply Hp. lia. }
  { exact Hg1. }
  change (Z.of_nat 1) with 1%Z in Hloop. rewrite Hloop.
  destruct (sample_at g2 b Hb Hg2) as (g3 & -> & _).
  reflexivity.
Qed.

End Simpson.

Lemma simpson_segments_spec n :
  (n < INT_MAX)%Z ->
  exists n',
    simpson_segments n = Some n' /\
    (0 < n' <= INT_MAX)%Z /\ Z.even n' = true /\
    ((n <= 0)%Z -> n' = 200%Z) /\
    ((0 < n)%Z -> Z.odd n = true -> n' = (n + 1)%Z) /\
    ((0 < n)%Z -> Z.even n = true -> n' = n).
Proof.
  intros Hmax. unfold simpson_segments.
  destruct (n <=? 0)%Z eqn:E; [apply Z.leb_le in E|apply Z.leb_gt in E].
  - exists 200%Z. simpl.
    repeat split; intros; try reflexivity; try discriminate; lia.
  - pose proof (Z.negb_odd n) as Hev.
    destruct (Z.odd n) eqn:Ho; simpl in Hev.
    + apply Z.ltb_lt in Hmax. rewrite Hmax. apply Z.ltb_lt in Hmax.
      exists (n + 1)%Z. repeat split; intros; try lia; try congruence.
      rewrite Z.even_add, <- Hev. reflexivity.
    + exists n. repeat split; intros; try lia; try congruence.
Qed.

(** The rule in exact arithmetic on the square over [0,1]. *)
Section SimpsonExact.
Local Open Scope R_scope.

Lemma simpson_sum_square (h s0 : R) (m : nat) :
  fold_left (simpson_term R Rplus Rmult IZR (fun x => x * x) 0 h)
    (map Z.of_nat (seq 1 (2 * m + 1))) s0 =
  s0 + 4 * (INR m + 1) * (INR m + 1) * (2 * INR m + 1) * (h * h).
Proof.
  induction m as [|m IH].
  - simpl. unfold simpson_term, simpson_weight. simpl. ring.
  - replace (2 * S m + 1)%nat with (S (S (2 * m + 1))) by lia.
    rewrite !seq_S, !map_app, !fold_left_app, IH.
    cbn [map fold_left]. unfold simpson_term, simpson_weight.
    replace (Z.odd (Z.of_nat (1 + (2 * m + 1)))) with false
      by (replace (Z.of_nat (1 + (2 * m + 1)))
            with (0 + 2 * (Z.of_nat m + 1))%Z by lia;
          now rewrite Z.odd_add_mul_2).
    replace (Z.odd (Z.of_nat (1 + S (2 * m + 1)))) with true
      by (replace (Z.of_nat (1 + S (2 * m + 1)))
            with (1 + 2 * (Z.of_nat m + 1))%Z by lia;
          now rewrite Z.odd_add_mul_2).
    rewrite <- !INR_IZR_INZ.
    rewrite !S_INR, !plus_INR, !mult_INR, !S_INR. simpl INR. ring.
Qed.

Lemma simpson_rule_square_exact n :
  (2 <= n)%Z -> Z.even n = true ->
  simpson_rule_real (fun x => x * x) 0 1 n = 1 / 3.
Proof.
  intros Hn He. apply Z.even_spec in He as [k Hk].
  set (m := Z.to_nat (k - 1)).
  assert (Hcnt : Z.to_nat (n - 1) = (2 * m + 1)%nat) by (unfold m; lia).
  assert (Hr : IZR n = 2 * (INR m + 1)).
  { replace n with (Z.of_nat (2 * (m + 1))) by (unfold m; lia).
    rewrite <- INR_IZR_INZ, mult_INR, plus_INR. simpl. ring. }
  unfold simpson_rule_real, simpson_rule, interior_indices.
  rewrite Hcnt, simpson_sum_square, Hr.
  assert (0 <= INR m) by apply pos_INR.
  simpl. field. lra.
Qed.

End SimpsonExact.

(** The rule in double arithmetic on "x^2" over [0,1], against the rule
    in exact arithmetic: every sample and every addition is rounded, and
    the roundings add up to at most [n + 20]. *)
Section SimpsonRounding.
Local Open Scope R_scope.
Variable L : Libm.
Hypothesis pow_ok : pow_squares L.
Variable n : Z.
Hypothesis n_range : (2 <= n < 2 ^ 31)%Z.

Lemma one_is_of_Z : 1%float = CDouble.of_Z 1.
Proof. vm_compute. reflexivity. Qed.

Lemma approx_one : approx 1 1 1%float.
Proof. rewrite one_is_of_Z. apply (approx_of_Z 1). lia. Qed.

Lemma below_2_34 X : X <= 4 * bpow 31 + 4 -> X <= bpow 34.
Proof.
  intros H. replace 34%Z with (3 + 31)%Z by lia. rewrite bpow_add.
  assert (bpow 3 = 8) by (unfold bpow; simpl; lra).
  assert (1 <= bpow 31) by (rewrite <- bpow_0; apply bpow_le; lia).
  nra.
Qed.

Lemma count_real : 2 <= IZR n <= bpow 31.
Proof.
  split; [apply IZR_le; lia|].
  rewrite <- IZR_pow2 by lia. apply IZR_le. lia.
Qed.

Lemma step_real : bpow (-31) <= (1 - 0) / IZR n <= 1 / 2.
Proof.
  pose proof count_real as [H1 H2]. pose proof (bpow_pos 31) as Hp.
  assert (Hi : bpow (-31) = / bpow 31) by apply (bpow_opp 31).
  rewrite Hi. unfold Rdiv. rewrite Rminus_0_r, !Rmult_1_l.
  split.
  - apply Rinv_le_contravar; lra.
  - apply Rinv_le_contravar; lra.
Qed.

Lemma step_approx :
  approx 3 ((1 - 0) / IZR n) ((1 - 0) / CDouble.of_Z n)%float.
Proof.
  pose proof count_real as [H1 H2]. pose proof step_real as [H3 H4].
  change (1 - 0)%float with 1%float.
  replace ((1 - 0) / IZR n) with (1 / IZR n) in * by (unfold Rdiv; ring).
  apply (approx_div 1 1 1 (IZR n)); try lra.
  - simpl. lia.
  - split.
    + apply Rle_trans with (bpow (-31)); [apply bpow_le; lia|lra].
    + apply Rle_trans with 1; [lra|].
      rewrite <- bpow_0. apply bpow_le. lia.
  - apply approx_one.
  - apply approx_of_Z. split; [lia|].
    apply Z.le_trans with (2 ^ 31)%Z; [lia|]. apply Z.pow_le_mono_r; lia.
Qed.

Lemma point_real i :
  (1 <= i < n)%Z ->
  bpow (-31) <= 0 + IZR i * ((1 - 0) / IZR n) <= 1.
Proof.
  intros Hi. pose proof count_real as [H1 H2]. pose proof step_real as [H3 H4].
  assert (Hi1 : 1 <= IZR i) by (apply IZR_le; lia).
  assert (Hi2 : IZR i <= IZR n - 1).
  { rewrite <- minus_IZR. apply IZR_le. lia. }
  set (h := (1 - 0) / IZR n) in *.
  assert (Hn : IZR n * h = 1) by (unfold h; field; lra).
  split; nra.
Qed.

Lemma point_approx i :
  (1 <= i < n)%Z ->
  approx 5 (0 + IZR i * ((1 - 0) / IZR n))
    (0 + CDouble.of_Z i * ((1 - 0) / CDouble.of_Z n))%float.
Proof.
  intros Hi. pose proof (point_real i Hi) as [H1 H2].
  pose proof step_real as [H3 H4]. pose proof (bpow_pos (-31)) as Hp.
  assert (Hi1 : 1 <= IZR i) by (apply IZR_le; lia).
  rewrite Rplus_0_l in *.
  assert (Hm : approx 5 (IZR i * ((1 - 0) / IZR n))
                 (CDouble.of_Z i * ((1 - 0) / CDouble.of_Z n))%float).
  { apply (approx_mul 1 3); try lra.
    - simpl. lia.
    - split.
      + apply Rle_trans with (bpow (-31)); [apply bpow_le; lia|lra].
      + apply Rle_trans with 1; [lra|].
        rewrite <- bpow_0. apply bpow_le. lia.
    - apply approx_of_Z. split; [lia|].
      apply Z.le_trans with (2 ^ 31)%Z; [lia|]. apply Z.pow_le_mono_r; lia.
    - apply step_approx. }
  destruct Hm as (X & Hn & HX).
  rewrite (add_zero_l _ X Hn). exists X. auto.
Qed.

(** The square of a double near a real in [2^-31, 1]. *)
Lemma square_approx k A x :
  (k <= 8)%nat -> bpow (-31) <= A <= 1 -> approx k A x ->
  exists y, c_pow L x 2 = (y, E0) /\ approx (k + k + 3) (A * A) y.
Proof.
  intros Hk [H1 H2] (X & Hn & HX). pose proof (bpow_pos (-31)) as Hp.
  assert (HA : 0 < A) by lra.
  pose proof (near_factor_2 k A X HA ltac:(lia) HX) as [H3 H4].
  destruct pow_ok as [_ Hpow].
  destruct (Hpow x X Hn) as (y & Hy & Y & HnY & HY).
  - split.
    + apply Rle_trans with (bpow (-32)); [apply bpow_le; lia|].
      assert (bpow (-31) = 2 * bpow (-32)).
      { replace (-31)%Z with (1 + -32)%Z by lia. now rewrite bpow_add, bpow_1. }
      lra.
    + apply Rle_trans with 2; [lra|].
      rewrite <- bpow_1. apply bpow_le. lia.
  - exists y. split; auto. exists Y. split; auto.
    apply near_trans with (X * X).
    + nra.
    + apply near_mul; auto.
    + exact HY.
Qed.

Lemma sample_square i :
  (1 <= i < n)%Z ->
  exists y,
    c_pow L (0 + CDouble.of_Z i * ((1 - 0) / CDouble.of_Z n))%float 2
      = (y, E0) /\
    approx 13 ((0 + IZR i * ((1 - 0) / IZR n)) *
               (0 + IZR i * ((1 - 0) / IZR n))) y.
Proof.
  intros Hi.
  apply (square_approx 5 _ _ ltac:(lia) (point_real i Hi) (point_approx i Hi)).
Qed.

Lemma weight_approx i :
  approx 1 (IZR (simpson_weight i)) (CDouble.of_Z (simpson_weight i)).
Proof.
  apply approx_of_Z. unfold simpson_weight.
  destruct (Z.odd i); split; try lia;
    apply Z.le_trans with (2 ^ 3)%Z; try lia; apply Z.pow_le_mono_r; lia.
Qed.

Lemma weight_real i : 2 <= IZR (simpson_weight i) <= 4.
Proof.
  unfold simpson_weight. destruct (Z.odd i); lra.
Qed.

(** One weighted sample. *)
Lemma term_approx i :
  (1 <= i < n)%Z ->
  let T := IZR (simpson_weight i) *
           ((0 + IZR i * ((1 - 0) / IZR n)) *
            (0 + IZR i * ((1 - 0) / IZR n))) in
  bpow (-61) <= T <= 4 /\
  approx 15 T
    (CDouble.of_Z (simpson_weight i) *
     pow_2 L (0 + CDouble.of_Z i * ((1 - 0) / CDouble.of_Z n)))%float.
Proof.
  intros Hi T. pose proof (point_real i Hi) as [H1 H2].
  pose proof (weight_real i) as [H3 H4].
  destruct (sample_square i Hi) as (y & Hy & Happ).
  unfold pow_2. rewrite Hy. cbn [fst].
  set (P := 0 + IZR i * ((1 - 0) / IZR n)) in *.
  pose proof (bpow_pos (-31)) as Hp.
  assert (Hsq : bpow (-62) <= P * P <= 1).
  { replace (-62)%Z with (-31 + -31)%Z by lia. rewrite bpow_add. split; nra. }
  assert (HT : bpow (-61) <= T <= 4).
  { unfold T. assert (bpow (-61) = 2 * bpow (-62)).
    { replace (-61)%Z with (1 + -62)%Z by lia. now rewrite bpow_add, bpow_1. }
    pose proof (bpow_pos (-62)). split; nra. }
  split; [exact HT|].
  apply (approx_mul 1 13); try lra.
  - pose proof (bpow_pos (-62)). lra.
  - simpl. lia.
  - fold T. destruct HT. split.
    + apply Rle_trans with (bpow (-61)); [apply bpow_le; lia|lra].
    + apply Rle_trans with (bpow 2); [unfold bpow; simpl; lra|].
      apply bpow_le. lia.
  - apply weight_approx.
  - exact Happ.
Qed.

(** The loop: the running sum in doubles against the exact one. *)
Lemma simpson_fold_approx cnt :
  forall k s E,
    (1 <= k)%nat -> (Z.of_nat (k + cnt) <= n)%Z ->
    simpson_partial k s E ->
    simpson_partial (k + cnt)
      (fold_left
         (simpson_term float PrimFloat.add PrimFloat.mul CDouble.of_Z
            (pow_2 L) 0%float ((1 - 0) / CDouble.of_Z n)%float)
         (map Z.of_nat (seq k cnt)) s)
      (fold_left
         (simpson_term R Rplus Rmult IZR (fun x => x * x) 0
            ((1 - 0) / IZR n))
         (map Z.of_nat (seq k cnt)) E).
Proof.
  induction cnt as [|cnt IH]; intros k s E Hk Hn Hinv.
  - rewrite Nat.add_0_r. exact Hinv.
  - cbn [seq map fold_left].
    replace (k + S cnt)%nat with (S k + cnt)%nat by lia.
    apply IH; [lia|lia|].
    assert (Hi : (1 <= Z.of_nat k < n)%Z) by lia.
    destruct (term_approx (Z.of_nat k) Hi) as [[HT1 HT2] HT].
    cbv zeta in HT1, HT2, HT.
    unfold simpson_term.
    set (T := IZR (simpson_weight (Z.of_nat k)) *
              ((0 + IZR (Z.of_nat k) * ((1 - 0) / IZR n)) *
               (0 + IZR (Z.of_nat k) * ((1 - 0) / IZR n)))) in *.
    set (t := (CDouble.of_Z (simpson_weight (Z.of_nat k)) *
               pow_2 L (0 + CDouble.of_Z (Z.of_nat k) *
                            ((1 - 0) / CDouble.of_Z n)))%float) in *.
    pose proof (bpow_pos (-61)) as Hp61.
    assert (Hlow : bpow (-70) <= bpow (-61)) by (apply bpow_le; lia).
    right. destruct Hinv as [(-> & -> & ->)|(Hk2 & Happ & HE1 & HE2)].
    + split; [lia|]. rewrite Rplus_0_l.
      destruct HT as (X & HnX & HX). rewrite (add_zero_l t X HnX).
      split.
      * exists X. split; [exact HnX|exact HX].
      * simpl INR. lra.
    + split; [lia|].
      pose proof (bpow_pos (-70)) as Hp70.
      assert (Hk31 : INR k <= bpow 31).
      { rewrite INR_IZR_INZ, <- IZR_pow2 by lia. apply IZR_le. lia. }
      split.
      * replace (S k + 13)%nat with (S (k + 13)) by lia.
        apply approx_add; try lra.
        -- lia.
        -- split.
           ++ apply Rle_trans with (bpow (-70)); [apply bpow_le; lia|lra].
           ++ apply Rle_trans with (bpow 34); [|apply bpow_le; lia].
              apply below_2_34. lra.
        -- exact Happ.
        -- apply approx_mono with 15%nat; auto; [lia|lra].
      * rewrite S_INR. lra.
Qed.

(** The whole rule. *)
Lemma simpson_double_near_real :
  exists r,
    simpson_rule_double (pow_2 L) 0 1 n = r /\
    approx (Z.to_nat n + 20)
      (simpson_rule_real (fun x => x * x) 0 1 n) r.
Proof.
  eexists. split; [reflexivity|].
  unfold simpson_rule_double, simpson_rule_real, simpson_rule.
  cbv zeta. unfold interior_indices.
  pose proof count_real as [Hn1 Hn2]. pose proof step_real as [Hs1 Hs2].
  destruct pow_ok as [Hzero _].
  assert (Hstart : (CDouble.of_Z 0 + pow_2 L 0)%float = 0%float).
  { unfold pow_2. rewrite Hzero. vm_compute. reflexivity. }
  rewrite Hstart.
  replace (IZR 0 + 0 * 0) with 0 by ring.
  pose proof (simpson_fold_approx (Z.to_nat (n - 1)) 1 0%float 0
                ltac:(lia) ltac:(lia)
                (or_introl (conj eq_refl (conj eq_refl eq_refl)))) as Hfold.
  set (s := fold_left _ _ 0%float) in *.
  set (E := fold_left _ _ 0) in *.
  destruct Hfold as [(Hk & _)|(_ & Happ & HE1 & HE2)]; [lia|].
  replace (1 + Z.to_nat (n - 1))%nat with (Z.to_nat n) in * by lia.
  assert (HN : INR (Z.to_nat n) = IZR n).
  { rewrite INR_IZR_INZ, Z2Nat.id by lia. reflexivity. }
  rewrite HN in HE2.
  pose proof (bpow_pos (-70)) as Hp70.
  (* the last sample *)
  destruct (square_approx 1 1 1%float ltac:(lia)) as (yb & Hyb & Hb).
  { split; [|lra]. rewrite <- bpow_0. apply bpow_le. lia. }
  { apply approx_one. }
  assert (Hfb : pow_2 L 1 = yb) by (unfold pow_2; now rewrite Hyb).
  rewrite Hfb. cbn [Nat.add] in Hb.
  assert (Hsum : approx (Z.to_nat n + 14) (E + 1 * 1) (s + yb)%float).
  { replace (Z.to_nat n + 14)%nat with (S (Z.to_nat n + 13)) by lia.
    apply approx_add; try lra.
    - lia.
    - split.
      + apply Rle_trans with (bpow (-70)); [apply bpow_le; lia|lra].
      + apply Rle_trans with (bpow 34); [|apply bpow_le; lia].
        apply below_2_34. nra.
    - exact Happ.
    - apply approx_mono with 5%nat; auto; [lia|lra]. }
  set (h := (1 - 0) / IZR n) in *.
  assert (Hprod : approx (Z.to_nat n + 18) ((E + 1 * 1) * h)
                    ((s + yb) * ((1 - 0) / CDouble.of_Z n))%float).
  { replace (Z.to_nat n + 18)%nat with (S ((Z.to_nat n + 14) + 3)) by lia.
    pose proof (bpow_pos (-31)) as Hp31.
    apply approx_mul; try lra.
    - lia.
    - split.
      + apply Rle_trans with (1 * bpow (-31)).
        * rewrite Rmult_1_l. apply bpow_le. lia.
        * apply Rmult_le_compat; lra.
      + apply Rle_trans with (bpow 34); [|apply bpow_le; lia].
        apply below_2_34. nra.
    - exact Hsum.
    - apply step_approx. }
  replace (Z.to_nat n + 20)%nat with (S ((Z.to_nat n + 18) + 1)) by lia.
  pose proof (bpow_pos (-31)) as Hp31.
  assert (Hval : bpow (-31) <= (E + 1 * 1) * h <= bpow 34).
  { split.
    - apply Rle_trans with (1 * bpow (-31)); [lra|].
      apply Rmult_le_compat; lra.
    - apply below_2_34. nra. }
  apply approx_div; try lra.
  - lia.
  - destruct Hval as [Hv1 Hv2]. split.
    + apply Rle_trans with (bpow (-33)); [apply bpow_le; lia|].
      assert (bpow (-31) = 4 * bpow (-33)).
      { replace (-31)%Z with (2 + -33)%Z by lia. rewrite bpow_add.
        unfold bpow at 1. simpl. lra. }
      pose proof (bpow_pos (-33)).
      apply Rmult_le_reg_r with 3; [lra|].
      unfold Rdiv. rewrite Rmult_assoc, Rinv_l, Rmult_1_r by lra. lra.
    + apply Rle_trans with (bpow 34); [|apply bpow_le; lia].
      apply Rmult_le_reg_r with 3; [lra|].
      unfold Rdiv. rewrite Rmult_assoc, Rinv_l, Rmult_1_r by lra.
      pose proof (bpow_pos 34). lra.
  - exact Hprod.
  - apply (approx_of_Z 3). lia.
Qed.

End SimpsonRounding.

(** "x^2" through the evaluator: the value [pow] returns, when [pow]
    leaves [errno] alone. *)
Section SquareIntegrand.
Local Open Scope R_scope.

Lemma eval_square L g x y :
  snd (var_set (g_vars g) "x" x) = true ->
  c_pow L x 2 = (y, E0) ->
  fst (eval_with_var L g "x^2" "x" x) = Ok y.
Proof.
  intros Hbind H. rewrite eval_with_var_fst. unfold eval_expr_local.
  assert (Ht : tokenize_local "x^2" =
               Ok [TIdent "x"; TOperator OP_POW; TNumber 2])
    by (vm_compute; reflexivity).
  rewrite Ht.
  assert (Hr : to_rpn_local [TIdent "x"; TOperator OP_POW; TNumber 2] =
               Ok [TIdent "x"; TNumber 2; TOperator OP_POW])
    by (vm_compute; reflexivity).
  rewrite Hr. unfold eval_rpn_local.
  cbn [eval_rpn_loop eval_token].
  change ("x" =? "ans")%string with false. cbv iota.
  cbn [with_vars g_vars].
  rewrite (var_get_var_set_same (g_vars g) "x" x) by (auto; vm_compute; lia).
  cbn -[checked_pow]. unfold checked_pow. rewrite H. reflexivity.
Qed.

(** The stand-in library squares by two multiplications. *)
Lemma libm_ref_squares : pow_squares libm_ref.
Proof.
  split; [vm_compute; reflexivity|].
  intros x X Hn [H1 H2].
  assert (Hfind : find (fun k => (CDouble.of_Z (Z.of_nat k) =? 2)%float)
                    (seq 0 64) = Some 2%nat) by (vm_compute; reflexivity).
  assert (HX : 0 < X) by (pose proof (bpow_pos (-100)); lra).
  assert (Hx : approx 0 X x) by (exists X; split; [exact Hn|apply near_refl]).
  assert (Hlo : bpow (-900) <= bpow (-200)) by (apply bpow_le; lia).
  assert (Hhi : bpow 200 <= bpow 900) by (apply bpow_le; lia).
  assert (Hlo1 : bpow (-200) <= bpow (-100)) by (apply bpow_le; lia).
  assert (Hhi1 : bpow 100 <= bpow 200) by (apply bpow_le; lia).
  assert (Hsq : bpow (-200) <= X * X <= bpow 200).
  { replace (-200)%Z with (-100 + -100)%Z by lia.
    replace 200%Z with (100 + 100)%Z by lia. rewrite !bpow_add.
    pose proof (bpow_pos (-100)). split; nra. }
  assert (H1x : approx 2 (X * 1) (x * 1)%float).
  { apply (approx_mul 0 1 X 1 x 1%float);
      [exact HX|lra|simpl; lia|rewrite Rmult_1_r; lra|exact Hx
      |apply approx_one]. }
  assert (Hy : approx 3 (X * X) (x * (x * 1))%float).
  { apply approx_ext with (X * (X * 1)); [ring|].
    apply (approx_mul 0 2 X (X * 1) x (x * 1)%float);
      [exact HX|lra|simpl; lia|rewrite Rmult_1_r; lra|exact Hx|exact H1x]. }
  exists (x * (x * 1))%float. split; [|exact Hy].
  change (c_pow libm_ref x 2) with (pow_ref x 2). unfold pow_ref.
  rewrite Hfind. cbn [pow_nat].
  destruct Hy as (Y & HnY & _).
  destruct (normal_finite _ Y HnY) as [-> _]. reflexivity.
Qed.

End SquareIntegrand.

(** C6: the segment count is coerced to 200 when not positive and to the
    next even number when odd (below [INT_MAX], where the increment does
    not overflow); whenever the integrand evaluates to [f] at every
    point, [integ_simpson] returns Simpson's rule for [f] on the coerced
    count, computed in double arithmetic in the order of the loop; that
    rule, in exact arithmetic, gives 1/3 for the square over [0,1] with
    every even count of at least 2; and in double arithmetic, under any
    math library whose [pow] squares to within three roundings and in
    any state in which [x] can be bound, "x^2" over [0,1] with any even
    count [n] from 2 on succeeds with a double within
    [(n + 20) * 2^-53] of 1/3, the roundings of the [n + 1] samples and
    additions; with a [pow] that squares by multiplication it comes
    within 1e-15 of 1/3 for every even count up to 200. *)
Theorem C6_simpson_rule :
  (forall n : Z,
      (n < INT_MAX)%Z ->
      exists n',
        simpson_segments n = Some n' /\
        (0 < n' <= INT_MAX)%Z /\ Z.even n' = true /\
        ((n <= 0)%Z -> n' = 200%Z) /\
        ((0 < n)%Z -> Z.odd n = true -> n' = (n + 1)%Z) /\
        ((0 < n)%Z -> Z.even n = true -> n' = n)) /\
  (forall (L : Libm) (g : Globals) (expr v : string) (f : float -> float)
          (a b : float) (n n' : Z),
      String.length v <= NAME_LEN - 1 ->
      (forall x, fst (eval_with_var L g expr v x) = Ok (f x)) ->
      simpson_segments n = Some n' ->
      option_map fst (integ_simpson L g expr v a b n) =
      Some (Ok (simpson_rule_double f a b n'))) /\
  (forall n : Z,
      (2 <= n)%Z -> Z.even n = true ->
      simpson_rule_real (fun x => x * x)%R 0%R 1%R n = (1 / 3)%R) /\
  (forall (L : Libm) (g : Globals) (n : Z),
      pow_squares L ->
      snd (var_set (g_vars g) "x" 0) = true ->
      (2 <= n < INT_MAX)%Z -> Z.even n = true ->
      exists (r : float) (R : R),
        option_map fst (integ_simpson L g "x^2" "x" 0 1 n) =
          Some (Ok r) /\
        normal r R /\
        (Rabs (R - 1 / 3) <= IZR (n + 20) * bpow (-53))%R) /\
  pow_squares libm_ref /\
  forallb (fun n => match integ_simpson libm_ref g_zero "x^2" "x" 0 1 n with
                    | Some out => near_third (fst out)
                    | None => false
                    end)
    (even_counts 100) = true.
Proof.
  split; [exact simpson_segments_spec|].
  split; [|split; [exact simpson_rule_square_exact|split; [|split]]].
  - intros L g expr v f a b n n' Hv Hf Hn. unfold integ_simpson.
    rewrite Hn. simpl. f_equal.
    apply (simpson_sum_refines L expr v g f (fun _ => True)); auto.
  - intros L g n HL Hbind Hn Hev.
    assert (Hn31 : (2 <= n < 2 ^ 31)%Z) by (unfold INT_MAX in Hn; lia).
    destruct (simpson_segments_spec n ltac:(lia))
      as (n' & Hseg & _ & _ & _ & _ & Hsame).
    rewrite (Hsame ltac:(lia) Hev) in Hseg.
    destruct (simpson_double_near_real L HL n Hn31) as (r & Hr & R & HnR & HR).
    rewrite (simpson_rule_square_exact n ltac:(lia) Hev) in HR.
    exists r, R. split; [|split; [exact HnR|]].
    + unfold integ_simpson. rewrite Hseg. simpl. f_equal. rewrite <- Hr.
      apply (simpson_sum_refines L "x^2" "x" g (pow_2 L)
               (fun x => snd (c_pow L x 2) = E0)).
      * vm_compute. lia.
      * intros x Hx. apply eval_square.
        -- now rewrite (var_set_succeeds_any _ _ x 0%float).
        -- unfold pow_2. destruct (c_pow L x 2) as [y e]. simpl in *.
           now subst e.
      * destruct HL as [-> _]. reflexivity.
      * destruct (square_approx L HL 1 1%R 1%float ltac:(lia))
          as (y & -> & _); [|apply approx_one|reflexivity].
        split; [|lra]. rewrite <- bpow_0. apply bpow_le. lia.
      * intros i Hi.
        destruct (sample_square L HL n Hn31 i Hi) as (y & -> & _).
        reflexivity.
    + assert (Hk : (Z.of_nat (Z.to_nat n + 20) <= 2 ^ 40)%Z) by lia.
      assert (H13 : (0 < 1 / 3)%R) by lra.
      pose proof (near_distance _ _ _ H13 Hk HR) as Hd.
      apply Rle_trans with (1 := Hd).
      rewrite INR_IZR_INZ.
      replace (Z.of_nat (Z.to_nat n + 20)) with (n + 20)%Z by lia.
      fold unit_roundoff.
      assert (0 <= IZR (n + 20) * unit_roundoff)%R.
      { apply Rmult_le_pos; [apply IZR_le; lia|].
        pose proof roundoff_range. lra. }
      lra.
  - exact libm_ref_squares.
  - vm_compute. reflexivity.
Qed.

(** C6 at work: "x*x" over [0,1] on two segments, in both arithmetics,
    and "x^2" on 12000 segments, a count at which the sum in doubles is
    more than 1e-15 away from 1/3. *)
Lemma C6_witness :
  option_map fst (integ_simpson libm_ref g_zero "x*x" "x" 0 1 2) =
    Some (Ok (simpson_rule_double (fun x => x * x)%float 0 1 2)) /\
  simpson_rule_double (fun x => x * x)%float 0 1 2 = (1 / 3)%float /\
  simpson_rule_real (fun x => x * x)%R 0%R 1%R 2 = (1 / 3)%R /\
  exists (r : float) (R : R),
    option_map fst (integ_simpson libm_ref g_zero "x^2" "x" 0 1 12000) =
      Some (Ok r) /\
    normal r R /\ (Rabs (R - 1 / 3) <= 12020 * bpow (-53))%R.
Proof.
  destruct C6_simpson_rule as (_ & Hrule & Hexact & Hround & Href & _).
  split; [|split; [|split]].
  - apply (Hrule libm_ref g_zero "x*x"%string "x"%string
             (fun x => x * x)%float 0%float 1%float 2%Z 2%Z).
    + vm_compute. lia.
    + intros x. vm_compute. reflexivity.
    + reflexivity.
  - vm_compute. reflexivity.
  - apply (Hexact 2%Z); [lia|reflexivity].
  - apply (Hround libm_ref g_zero 12000%Z Href);
      [reflexivity|unfold INT_MAX; lia|reflexivity].
Defined.

(* ================================================================== *)
(** * Further properties of the source *)

(** ** The variable table as a map *)

Section VarsAsMap.

Lemma var_get_none_iff vs nm :
  var_get vs nm = None <-> var_find_index vs nm = None.
Proof.
  unfold var_get. split.
  - destruct (var_find_index vs nm) as [i|] eqn:E; auto.
    destruct (find_index_spec _ _ _ E) as (it & -> & _). discriminate.
  - now intros ->.
Qed.

Lemma first_free_none_iff vs :
  first_free vs = None <-> forallb in_use vs = true.
Proof.
  induction vs as [|a vs IH]; simpl; [tauto|].
  destruct (in_use a); simpl.
  - rewrite <- IH. destruct (first_free vs); simpl; split; congruence.
  - split; discriminate.
Qed.

(** A slot that does not answer to [m], before or after, does not move
    the index [m] is found at. *)
Lemma find_index_update_other vs i f m it :
  nth_error vs i = Some it ->
  in_use it && (name it =? m)%string = false ->
  in_use (f it) && (name (f it) =? m)%string = false ->
  var_find_index (update i f vs) m = var_find_index vs m.
Proof.
  revert i; induction vs as [|a vs IH]; intros [|i]; simpl; try discriminate.
  - intros [= ->] -> ->. reflexivity.
  - intros Hn Ha Hfa. now rewrite (IH i Hn Ha Hfa).
Qed.

(** Taking a slot out of use cannot make a name appear. *)
Lemma find_index_none_unset vs i f m :
  (forall it, in_use (f it) = false) ->
  var_find_index vs m = None -> var_find_index (update i f vs) m = None.
Proof.
  intros Hf. revert i; induction vs as [|a vs IH]; intros [|i]; simpl; auto.
  - rewrite Hf. simpl.
    destruct (in_use a && (name a =? m)%string); try discriminate.
    destruct (var_find_index vs m); simpl; auto; discriminate.
  - destruct (in_use a && (name a =? m)%string); try discriminate.
    destruct (var_find_index vs m) eqn:E; simpl; try discriminate.
    intros _. now rewrite (IH i eq_refl).
Qed.

Lemma names_unique_update_value vs i f :
  (forall it, in_use (f it) = in_use it /\ name (f it) = name it) ->
  names_unique vs -> names_unique (update i f vs).
Proof.
  intros Hf. revert i; induction vs as [|a vs IH]; intros [|i]; simpl; auto.
  - destruct (Hf a) as [-> ->]. auto.
  - intros [Ha Hu]. split; auto.
    intros Hin. rewrite find_index_update_value; auto.
Qed.

Lemma names_unique_unset vs i f :
  (forall it, in_use (f it) = false) ->
  names_unique vs -> names_unique (update i f vs).
Proof.
  intros Hf. revert i; induction vs as [|a vs IH]; intros [|i]; simpl; auto.
  - intros [_ Hu]. split; auto. rewrite Hf. discriminate.
  - intros [Ha Hu]. split; auto.
    intros Hin. apply find_index_none_unset; auto.
Qed.

Lemma names_unique_fill vs i it :
  var_find_index vs (name it) = None -> first_free vs = Some i ->
  names_unique vs -> names_unique (update i (fun _ => it) vs).
Proof.
  revert i; induction vs as [|a vs IH]; simpl; intros i; try discriminate.
  destruct (in_use a) eqn:Ea; simpl.
  - destruct (name a =? name it)%string eqn:En; try discriminate.
    destruct (var_find_index vs (name it)) eqn:Ef; try discriminate.
    destruct (first_free vs) as [j|] eqn:Eff; simpl; try discriminate.
    intros _ [= <-] [Ha Hu]. simpl. split; [|now apply IH].
    intros _. specialize (Ha eq_refl).
    destruct (first_free_spec _ _ Eff) as (b & Hnth & Hb).
    rewrite (find_index_update_other vs j _ (name a) b); auto.
    + now rewrite Hb.
    + rewrite String.eqb_sym, En. apply andb_false_r.
  - intros Hnone [= <-] [_ Hu]. simpl. split; auto.
    intros _. destruct (var_find_index vs (name it)); [discriminate|reflexivity].
Qed.

Lemma find_index_unique_unset vs nm i f :
  (forall it, in_use (f it) = false) ->
  names_unique vs -> var_find_index vs nm = Some i ->
  var_find_index (update i f vs) nm = None.
Proof.
  intros Hf. revert i; induction vs as [|a vs IH]; simpl; intros i;
    try discriminate.
  intros [Ha Hu].
  destruct (in_use a && (name a =? nm)%string) eqn:E.
  - intros [= <-]. simpl. rewrite Hf. simpl.
    apply andb_prop in E as [Hin Hn]. apply String.eqb_eq in Hn. subst nm.
    now rewrite (Ha Hin).
  - destruct (var_find_index vs nm) as [j|] eqn:Ef; simpl; try discriminate.
    intros [= <-]. simpl. rewrite E. now rewrite (IH j Hu eq_refl).
Qed.

Lemma names_unique_empty n : names_unique (repeat empty_slot n).
Proof. induction n; simpl; auto. split; auto. discriminate. Qed.

End VarsAsMap.

(** X1: a [var_set] that reports success is read back by [var_get], for a
    name that fits the name buffer; a second [var_set] on the name
    replaces the value. *)
Theorem var_get_after_var_set :
  forall (vs : list VarItem) (nm : string) (v w : float),
    String.length nm <= NAME_LEN - 1 ->
    snd (var_set vs nm v) = true ->
    var_get (fst (var_set vs nm v)) nm = Some v /\
    snd (var_set (fst (var_set vs nm v)) nm w) = true /\
    var_get (fst (var_set (fst (var_set vs nm v)) nm w)) nm = Some w.
Proof.
  assert (H1 : forall vs nm v, String.length nm <= NAME_LEN - 1 ->
             snd (var_set vs nm v) = true ->
             var_get (fst (var_set vs nm v)) nm = Some v).
  { intros vs nm v Hlen. unfold var_set, var_get.
    destruct (var_find_index vs nm) as [i|] eqn:Ef; simpl.
    - intros _. rewrite find_index_update_value by (intros; simpl; auto).
      rewrite Ef. destruct (find_index_spec _ _ _ Ef) as (it & Hnth & _).
      now rewrite (nth_error_update_same _ _ _ _ Hnth).
    - destruct (first_free vs) as [i|] eqn:Eff; simpl; [|discriminate].
      intros _. rewrite (find_index_fill vs nm i)
        by (auto; simpl; now apply strncpy_name_short).
      destruct (first_free_spec _ _ Eff) as (it & Hnth & _).
      now rewrite (nth_error_update_same _ _ _ _ Hnth). }
  intros vs nm v w Hlen Hok.
  pose proof (H1 vs nm v Hlen Hok) as Hget.
  assert (Hok2 : snd (var_set (fst (var_set vs nm v)) nm w) = true).
  { unfold var_set at 1.
    destruct (var_find_index (fst (var_set vs nm v)) nm) eqn:E; auto.
    apply var_get_none_iff in E. congruence. }
  auto.
Qed.

Lemma var_get_after_var_set_witness :
  var_get (fst (var_set empty_table "rate" 2.5)) "rate" = Some 2.5%float /\
  var_get (fst (var_set (fst (var_set empty_table "rate" 2.5)) "rate" 4))
    "rate" = Some 4%float.
Proof.
  destruct (var_get_after_var_set empty_table "rate" 2.5%float 4%float)
    as (H1 & _ & H2).
  - vm_compute. lia.
  - vm_compute. reflexivity.
  - split; [exact H1|exact H2].
Defined.

(** X2: [var_set] reports failure exactly when the name is not bound and
    every slot is in use, and then the table is left as it was. *)
Theorem var_set_fails_iff_full :
  forall (vs : list VarItem) (nm : string) (v : float),
    (snd (var_set vs nm v) = false <->
     var_get vs nm = None /\ forallb in_use vs = true) /\
    (snd (var_set vs nm v) = false -> fst (var_set vs nm v) = vs).
Proof.
  intros vs nm v. rewrite var_get_none_iff, <- first_free_none_iff.
  unfold var_set.
  destruct (var_find_index vs nm) as [i|]; simpl.
  - split; [split|]; try discriminate. intros [H _]. discriminate.
  - destruct (first_free vs) as [i|]; simpl.
    + split; [split|]; try discriminate. intros [_ H]. discriminate.
    + split; [split|]; auto.
Qed.

Lemma var_set_fails_iff_full_witness :
  let full := repeat {| name := "a"; value := 0%float; in_use := true |}
                MAX_VARS in
  snd (var_set full "b" 1%float) = false /\
  fst (var_set full "b" 1%float) = full.
Proof.
  intros full.
  destruct (var_set_fails_iff_full full "b" 1%float) as [[_ Hfull] Hkeep].
  assert (H : snd (var_set full "b" 1%float) = false)
    by (apply Hfull; split; vm_compute; reflexivity).
  split; [exact H|exact (Hkeep H)].
Defined.

(** X3: [var_set] and [var_del] on one name leave what every other name
    reads as it was (for [var_set], other than the stored, truncated
    name as well). *)
Theorem var_set_var_del_frame :
  forall (vs : list VarItem) (n m : string) (x : float),
    m <> n ->
    (m <> strncpy_name n ->
     var_get (fst (var_set vs n x)) m = var_get vs m) /\
    var_get (fst (var_del vs n)) m = var_get vs m.
Proof.
  intros vs n m x Hmn. split.
  - intros Hm'. now apply var_get_set_other.
  - unfold var_del.
    destruct (var_find_index vs n) as [i|] eqn:Ef; simpl; auto.
    destruct (find_index_spec _ _ _ Ef) as (it & Hnth & Hu & Hname).
    apply var_get_update_other with (it := it); simpl; auto.
    rewrite Hname. replace (n =? m)%string with false.
    + apply andb_false_r.
    + symmetry. apply String.eqb_neq. congruence.
Qed.

Lemma var_set_var_del_frame_witness :
  var_get (fst (var_set g_x2.(g_vars) "y" 7)) "x" = Some 2%float /\
  var_get (fst (var_del g_x2.(g_vars) "y")) "x" = Some 2%float.
Proof.
  assert (Hxy : "x"%string <> "y"%string) by discriminate.
  destruct (var_set_var_del_frame (g_vars g_x2) "y" "x" 7%float Hxy)
    as [Hs Hd].
  split.
  - rewrite Hs; [vm_compute; reflexivity|vm_compute; discriminate].
  - rewrite Hd. vm_compute. reflexivity.
Defined.

Lemma update_keeps_length i f vs :
  List.length (update i f vs) = List.length vs.
Proof.
  revert i; induction vs as [|a vs IH]; intros [|i]; simpl; auto.
Qed.

Lemma names_unique_var_set vs nm v :
  String.length nm <= NAME_LEN - 1 ->
  names_unique vs -> names_unique (fst (var_set vs nm v)).
Proof.
  intros Hnm Hu. unfold var_set.
  destruct (var_find_index vs nm) as [i|] eqn:Ef; simpl.
  - apply names_unique_update_value; auto.
  - destruct (first_free vs) as [i|] eqn:Eff; simpl; auto.
    apply names_unique_fill; auto. simpl. now rewrite strncpy_name_short.
Qed.

Lemma names_unique_var_del vs nm :
  names_unique vs -> names_unique (fst (var_del vs nm)).
Proof.
  intros Hu. unfold var_del.
  destruct (var_find_index vs nm) as [i|]; simpl; auto.
  apply names_unique_unset; auto.
Qed.

(** X4: the table never holds a name twice.  The zeroed table has no
    duplicate, and [var_set] (for a name that fits the buffer) and
    [var_del] keep it so; neither changes the number of slots. *)
Theorem names_unique_invariant :
  names_unique empty_table /\
  (forall (vs : list VarItem) (nm : string) (v : float),
      String.length nm <= NAME_LEN - 1 ->
      names_unique vs ->
      names_unique (fst (var_set vs nm v)) /\
      List.length (fst (var_set vs nm v)) = List.length vs) /\
  (forall (vs : list VarItem) (nm : string),
      names_unique vs ->
      names_unique (fst (var_del vs nm)) /\
      List.length (fst (var_del vs nm)) = List.length vs).
Proof.
  split; [apply names_unique_empty|split].
  - intros vs nm v Hnm Hu. split; [now apply names_unique_var_set|].
    unfold var_set. destruct (var_find_index vs nm); simpl.
    + apply update_keeps_length.
    + destruct (first_free vs); simpl; auto. apply update_keeps_length.
  - intros vs nm Hu. split; [now apply names_unique_var_del|].
    unfold var_del. destruct (var_find_index vs nm); simpl; auto.
    apply update_keeps_length.
Qed.

Lemma names_unique_invariant_witness :
  names_unique (fst (var_set (fst (var_del (g_vars g_x2) "x")) "y" 1)).
Proof.
  destruct names_unique_invariant as (He & Hs & Hd).
  apply Hs; [vm_compute; lia|].
  apply Hd. apply Hs; [vm_compute; lia|exact He].
Defined.

(** X5: [var_del] reports whether the name was bound, leaves the table
    as it was when it was not, and on a table without duplicate names the
    name is unbound afterwards. *)
Theorem var_del_unbinds :
  forall (vs : list VarItem) (nm : string),
    (snd (var_del vs nm) = true <-> var_get vs nm <> None) /\
    (snd (var_del vs nm) = false -> fst (var_del vs nm) = vs) /\
    (names_unique vs -> var_get (fst (var_del vs nm)) nm = None).
Proof.
  intros vs nm. rewrite var_get_none_iff. unfold var_del.
  destruct (var_find_index vs nm) as [i|] eqn:Ef; simpl.
  - split; [split; auto; discriminate|split; [discriminate|]].
    intros Hu. apply var_get_none_iff.
    apply find_index_unique_unset; auto.
  - split; [split; [discriminate|congruence]|split; auto].
    intros _. now apply var_get_none_iff.
Qed.

Lemma var_del_unbinds_witness :
  var_get (fst (var_del (g_vars g_x2) "x")) "x" = None.
Proof.
  apply (var_del_unbinds (g_vars g_x2) "x").
  apply names_unique_var_set; [vm_compute; lia|apply names_unique_empty].
Defined.

(** ** What the lexer emits *)

Section LexerInvariant.
Import CType.

Lemma tolower_name_char c :
  is_func_char_local c = true -> is_name_char (tolower c) = true.
Proof.
  destruct c as [[] [] [] [] [] [] [] []]; vm_compute; intros H;
    try discriminate H; reflexivity.
Qed.

Lemma scan_name_spec s j buf buf' j' :
  scan_name s j buf = (buf', j') ->
  exists run,
    buf' = buf ++ map tolower run /\
    forallb is_func_char_local run = true /\
    j' = j + List.length run /\
    (j <= NAME_LEN - 1 -> j' <= NAME_LEN - 1).
Proof.
  revert j buf; induction s as [|c s IH]; intros j buf; cbn [scan_name].
  - intros [= <- <-]. exists []. rewrite app_nil_r. simpl. auto.
  - destruct (is_func_char_local c && (j <? NAME_LEN - 1)%nat) eqn:E.
    + apply andb_prop in E as [Hc Hj]. apply Nat.ltb_lt in Hj.
      intros H. destruct (IH _ _ H) as (run & -> & Hall & -> & Hb).
      exists (c :: run). simpl. rewrite Hc, Hall, <- app_assoc. simpl.
      repeat split; auto; lia.
    + intros [= <- <-]. exists []. rewrite app_nil_r. simpl. auto.
Qed.

Lemma forallb_name_chars run :
  forallb is_func_char_local run = true ->
  forallb is_name_char (map tolower run) = true.
Proof.
  induction run as [|c run IH]; simpl; auto.
  intros H. apply andb_prop in H as [Hc Hall].
  now rewrite (tolower_name_char c Hc), IH.
Qed.

(** The name the identifier branch builds, at a letter or underscore. *)
Lemma scanned_name c s buf j :
  is_func_char_local c = true ->
  scan_name (c :: s) 0 [] = (buf, j) ->
  let nm := string_of_list_ascii buf in
  1 <= String.length nm <= NAME_LEN - 1 /\
  forallb is_name_char (chars nm) = true /\
  strncpy_name nm = nm /\ 1 <= j <= NAME_LEN - 1.
Proof.
  intros Hc Hs. cbn [scan_name] in Hs. rewrite Hc in Hs.
  change (0 <? NAME_LEN - 1)%nat with true in Hs. simpl "&&" in Hs.
  destruct (scan_name_spec _ _ _ _ _ Hs) as (run & -> & Hall & -> & Hb).
  assert (Hj : 1 + List.length run <= NAME_LEN - 1)
    by (apply Hb; vm_compute; lia).
  cbv zeta. unfold chars.
  rewrite list_ascii_of_string_of_list_ascii, length_string_of_list.
  simpl List.length. rewrite length_map.
  change (NAME_LEN - 1) with 15 in Hj |- *.
  repeat split; try lia.
  - simpl. now rewrite (tolower_name_char c Hc), forallb_name_chars.
  - apply strncpy_name_short. change (NAME_LEN - 1) with 15.
    rewrite length_string_of_list. simpl. rewrite length_map. lia.
Qed.

(** Whatever the lexer keeps true of its output array when it appends a
    token of the promised shape is true of the array it returns. *)
Lemma tokenize_loop_invariant (I : list CalcToken -> Prop) :
  (forall out tk, I out -> lexed_token tk -> I (out ++ [tk])) ->
  forall s skip prev out toks,
    tokenize_loop s skip prev out = Ok toks -> I out -> I toks.
Proof.
  intros Hstep. induction s as [|c s IH]; intros skip prev out toks H Hout.
  - simpl in H. now injection H as <-.
  - destruct skip as [|k]; [|simpl in H; eapply IH; eauto].
    cbn [tokenize_loop] in H.
    destruct (code c <=? 32)%nat; [eapply IH; eauto|].
    destruct (isdigit c || (c =? ".")%char).
    { destruct (Strtod.strtod (c :: s)) as [[v n] errno].
      destruct (n =? 0)%nat; try discriminate.
      destruct (errno_eqb errno ERANGE); try discriminate.
      eapply IH; eauto. apply Hstep; simpl; auto. }
    destruct (is_func_char_local c) eqn:Hc.
    { destruct (scan_name (c :: s) 0 []) as [buf j] eqn:Hs.
      destruct (scanned_name c s buf j Hc Hs) as (Hlen & Hchars & Hcpy & _).
      cbv zeta in H. rewrite Hcpy in H.
      destruct (is_func_name_local (string_of_list_ascii buf)) as [ar|] eqn:Hf;
        (eapply IH; [exact H|]); apply Hstep; simpl; auto. }
    destruct (c =? "(")%char; [eapply IH; eauto; apply Hstep; simpl; auto|].
    destruct (c =? ")")%char; [eapply IH; eauto; apply Hstep; simpl; auto|].
    destruct (c =? ",")%char; [eapply IH; eauto; apply Hstep; simpl; auto|].
    destruct (is_operator_char c); [|discriminate].
    eapply IH; eauto. apply Hstep; simpl; auto.
Qed.

Lemma tokenize_local_lexed s toks :
  tokenize_local s = Ok toks -> Forall lexed_token toks.
Proof.
  intros H.
  apply (tokenize_loop_invariant (Forall lexed_token)) in H; auto.
  intros out tk Hout Htk. apply Forall_app. split; auto.
Qed.

(** Each token consumes at least one character. *)
Lemma tokenize_loop_count s skip prev out toks :
  tokenize_loop s skip prev out = Ok toks ->
  List.length toks <= List.length out + List.length s.
Proof.
  revert skip prev out toks; induction s as [|c s IH];
    intros skip prev out toks H.
  - simpl in H. injection H as <-. simpl. lia.
  - assert (Happ : forall tk k p,
               tokenize_loop s k p (out ++ [tk]) = Ok toks ->
               List.length toks <= List.length out + List.length (c :: s)).
    { intros tk k p H'. apply IH in H'. rewrite length_app in H'.
      simpl in *. lia. }
    destruct skip as [|k]; [|simpl in H; apply IH in H; simpl; lia].
    cbn [tokenize_loop] in H.
    destruct (code c <=? 32)%nat; [apply IH in H; simpl; lia|].
    destruct (isdigit c || (c =? ".")%char).
    { destruct (Strtod.strtod (c :: s)) as [[v n] errno].
      destruct (n =? 0)%nat; try discriminate.
      destruct (errno_eqb errno ERANGE); try discriminate. eauto. }
    destruct (is_func_char_local c).
    { destruct (scan_name (c :: s) 0 []) as [buf j]. cbv zeta in H.
      destruct (is_func_name_local (string_of_list_ascii buf)); eauto. }
    destruct (c =? "(")%char; [eauto|].
    destruct (c =? ")")%char; [eauto|].
    destruct (c =? ",")%char; [eauto|].
    destruct (is_operator_char c); [eauto|discriminate].
Qed.

Lemma chars_length s : List.length (chars s) = String.length s.
Proof. induction s; simpl; auto. Qed.

(** The array at return: on success it is what [tokenize_loop] returns. *)
Lemma written_loop_agrees s skip prev out toks :
  tokenize_loop s skip prev out = Ok toks ->
  toks = written_loop s skip prev out.
Proof.
  revert skip prev out; induction s as [|c s IH]; intros skip prev out H.
  - simpl in H. now injection H as <-.
  - destruct skip as [|k]; [|simpl in H; simpl; now apply IH].
    cbn [tokenize_loop] in H. cbn [written_loop].
    destruct (code c <=? 32)%nat; [now apply IH|].
    destruct (isdigit c || (c =? ".")%char).
    { destruct (Strtod.strtod (c :: s)) as [[v n] errno].
      destruct (n =? 0)%nat; try discriminate.
      destruct (errno_eqb errno ERANGE); try discriminate.
      now apply IH. }
    destruct (is_func_char_local c).
    { destruct (scan_name (c :: s) 0 []) as [buf j]. cbv zeta in *.
      destruct (is_func_name_local (string_of_list_ascii buf));
        now apply IH. }
    destruct (c =? "(")%char; [now apply IH|].
    destruct (c =? ")")%char; [now apply IH|].
    destruct (c =? ",")%char; [now apply IH|].
    destruct (is_operator_char c); [now apply IH|discriminate].
Qed.

(** Each token written has consumed at least one character, also on a
    run that fails. *)
Lemma written_loop_count s skip prev out :
  List.length (written_loop s skip prev out) <=
  List.length out + List.length s.
Proof.
  revert skip prev out; induction s as [|c s IH]; intros skip prev out.
  - simpl. lia.
  - assert (Happ : forall tk k p,
               List.length (written_loop s k p (out ++ [tk])) <=
               List.length out + List.length (c :: s)).
    { intros tk k p. pose proof (IH k p (out ++ [tk])) as H'.
      rewrite length_app in H'. simpl in *. lia. }
    assert (Hout : List.length out <= List.length out + List.length (c :: s))
      by lia.
    destruct skip as [|k];
      [|simpl; pose proof (IH k prev out); lia].
    cbn [written_loop].
    destruct (code c <=? 32)%nat; [pose proof (IH 0 prev out); simpl; lia|].
    destruct (isdigit c || (c =? ".")%char).
    { destruct (Strtod.strtod (c :: s)) as [[v n] errno].
      destruct (n =? 0)%nat; auto.
      destruct (errno_eqb errno ERANGE); auto. }
    destruct (is_func_char_local c).
    { destruct (scan_name (c :: s) 0 []) as [buf j]. cbv zeta.
      destruct (is_func_name_local (string_of_list_ascii buf)); auto. }
    destruct (c =? "(")%char; [auto|].
    destruct (c =? ")")%char; [auto|].
    destruct (c =? ",")%char; [auto|].
    destruct (is_operator_char c); auto.
Qed.

End LexerInvariant.

(** X6: every identifier token the lexer emits carries a name of 1 to 15
    characters, all lowercase letters or underscores, that is not a
    function name, and every function token carries a name of the
    registry with the registry's arity. *)
Theorem lexer_tokens_well_formed :
  forall (s : string) (toks : list CalcToken),
    tokenize_local s = Ok toks -> Forall lexed_token toks.
Proof.
  intros s toks H. unfold tokenize_local in H.
  apply (tokenize_loop_invariant (Forall lexed_token)) in H; auto.
  intros out tk Hout Htk. apply Forall_app. split; auto.
Qed.

Lemma lexer_tokens_well_formed_witness :
  Forall lexed_token [TFunc "sin" 1; TLParen; TIdent "rate_a"; TRParen].
Proof.
  apply (lexer_tokens_well_formed "SIN(Rate_A)").
  vm_compute. reflexivity.
Defined.

(** X7: whether lexing succeeds or fails, the token array holds at most
    one token per character of the text when [tokenize_local] returns,
    and on success it is the list returned.  The array only grows, so no
    write of a text of at most 1024 characters, and so of an input line
    of at most 511, falls outside the 1024-token array. *)
Theorem lexer_token_count :
  forall s : string,
    List.length (tokenize_written s) <= String.length s /\
    (forall toks, tokenize_local s = Ok toks -> tokenize_written s = toks) /\
    (String.length s <= MAX_TOKENS ->
     List.length (tokenize_written s) <= MAX_TOKENS).
Proof.
  intros s.
  assert (H : List.length (tokenize_written s) <= String.length s).
  { unfold tokenize_written.
    pose proof (written_loop_count (chars s) 0 CALC_T_OPERATOR []) as H.
    now rewrite chars_length in H. }
  split; [exact H|split; [|lia]].
  intros toks Htoks. symmetry. now apply written_loop_agrees.
Qed.

(** A text that fails at its last character: three tokens are in the
    array when the lexer gives up. *)
Lemma lexer_token_count_witness :
  tokenize_local "1+1$" = Err (UnrecognizedCharacter "$") /\
  tokenize_written "1+1$" = [TNumber 1; TOperator OP_ADD; TNumber 1] /\
  List.length (tokenize_written "1+1$") <= 4.
Proof.
  split; [vm_compute; reflexivity|split; [vm_compute; reflexivity|]].
  exact (proj1 (lexer_token_count "1+1$")).
Defined.

(** ** What the shunting yard does to the tokens *)

Section ParserFacts.

Lemma pop_operators_spec op stack out stack' out' :
  pop_operators op stack out = (stack', out') ->
  exists popped,
    out' = out ++ popped /\ stack = popped ++ stack' /\
    Forall (fun tk => exists o, tk = TOperator o) popped.
Proof.
  revert out; induction stack as [|tk stack IH]; intros out; simpl.
  - intros [= <- <-]. exists []. now rewrite app_nil_r.
  - destruct tk as [v|o2| | |nm ar| |nm];
      try (intros [= <- <-]; exists []; now rewrite app_nil_r).
    destruct ((negb (is_right_assoc_local op) &&
               (precedence_local op <=? precedence_local o2)%Z) ||
              (is_right_assoc_local op &&
               (precedence_local op <? precedence_local o2)%Z)).
    + intros H. destruct (IH _ H) as (popped & -> & -> & Hall).
      exists (TOperator o2 :: popped). rewrite <- app_assoc. simpl.
      repeat split; auto. constructor; eauto.
    + intros [= <- <-]. exists []. now rewrite app_nil_r.
Qed.

Lemma pop_to_lparen_spec stack out stack' out' :
  pop_to_lparen stack out = Some (stack', out') ->
  exists popped rest,
    out' = out ++ popped /\ stack = popped ++ stack' /\
    stack' = TLParen :: rest /\
    Forall (fun tk => is_lparen tk = false) popped.
Proof.
  revert out; induction stack as [|tk stack IH]; intros out; simpl;
    try discriminate.
  destruct tk as [v|o2| | |nm ar| |nm];
    try (intros H; destruct (IH _ H) as (popped & rest & -> & -> & -> & Hall);
         eexists (_ :: popped), rest; rewrite <- app_assoc; simpl;
         repeat split; auto).
  intros [= <- <-]. exists [], stack. now rewrite app_nil_r.
Qed.

Lemma flush_spec stack out rpn :
  flush stack out = Ok rpn ->
  rpn = out ++ stack /\ Forall (fun tk => is_lparen tk = false) stack.
Proof.
  revert out; induction stack as [|tk stack IH]; intros out; simpl.
  - intros [= <-]. now rewrite app_nil_r.
  - destruct tk as [v|o2| | |nm ar| |nm]; try discriminate;
      intros H; destruct (IH _ H) as (-> & Hall);
      rewrite <- app_assoc; simpl; split; auto.
Qed.

Lemma stack_tokens_kept l :
  Forall (fun tk => is_stack_token tk = true) l ->
  Forall (fun tk => is_lparen tk = false) l ->
  filter is_rpn_token l = l /\ filter is_operand l = [] /\
  filter is_lparen l = [].
Proof.
  induction l as [|tk l IH]; simpl; auto.
  intros Hs Hl. inversion Hs as [|? ? Hs1 Hs2]; subst.
  inversion Hl as [|? ? Hl1 Hl2]; subst.
  destruct (IH Hs2 Hl2) as (-> & -> & ->).
  destruct tk; simpl in *; try discriminate; auto.
Qed.

Lemma operators_are_stack_tokens l :
  Forall (fun tk => exists o, tk = TOperator o) l ->
  Forall (fun tk => is_stack_token tk = true) l /\
  Forall (fun tk => is_lparen tk = false) l.
Proof.
  induction 1 as [|tk l [o ->] _ [IH1 IH2]]; split; auto.
Qed.

Lemma stack_filters l :
  Forall (fun tk => is_stack_token tk = true) l ->
  filter is_operand l = [].
Proof.
  induction 1 as [|tk l Htk _ IH]; simpl; auto.
  destruct tk; simpl in *; try discriminate; auto.
Qed.

(** The invariant of the main loop: the output is the tokens seen so far
    that are not parentheses or commas, in some order; the operands keep
    their order; every left parenthesis on the stack is still waiting
    for its right one. *)
Lemma to_rpn_loop_spec input :
  forall stack out rpn,
    Forall (fun tk => is_stack_token tk = true) stack ->
    to_rpn_loop input stack out = Ok rpn ->
    Permutation rpn
      (out ++ filter is_rpn_token stack ++ filter is_rpn_token input) /\
    filter is_operand rpn = filter is_operand out ++ filter is_operand input /\
    List.length (filter is_lparen stack) + List.length (filter is_lparen input)
    = List.length (filter is_rparen input).
Proof.
  induction input as [|tk input IH]; intros stack out rpn Hst H.
  - simpl in H. destruct (flush_spec _ _ _ H) as (-> & Hl).
    destruct (stack_tokens_kept stack Hst Hl) as (Hk & Ho & Hp).
    simpl. rewrite Hk, Hp, app_nil_r, filter_app, Ho, !app_nil_r.
    repeat split; auto.
  - destruct tk as [v|op| | |nm ar| |nm]; cbn [to_rpn_loop] in H.
    + apply IH in H; auto. destruct H as (Hp & Ho & Hc).
      rewrite filter_app, <- app_assoc in Ho. simpl in Ho.
      rewrite <- app_assoc in Hp. simpl in *. repeat split; auto.
      eapply Permutation_trans; [exact Hp|].
      apply Permutation_app_head.
      apply Permutation_middle.
    + destruct (pop_operators op stack out) as [stack' out'] eqn:Hpop.
      destruct (pop_operators_spec _ _ _ _ _ Hpop) as (popped & -> & -> & Hops).
      destruct (operators_are_stack_tokens _ Hops) as (Hps & Hpl).
      destruct (stack_tokens_kept _ Hps Hpl) as (Hk & Hpo & Hpp).
      apply Forall_app in Hst as [_ Hst'].
      apply IH in H; [|constructor; auto].
      destruct H as (Hp & Ho & Hc).
      rewrite !filter_app, Hk, Hpp. rewrite filter_app, Hpo, app_nil_r in Ho.
      simpl in *. repeat split; auto.
      eapply Permutation_trans; [exact Hp|].
      rewrite <- !app_assoc. do 2 apply Permutation_app_head.
      apply Permutation_middle.
    + apply IH in H; [|constructor; auto]. simpl in *.
      destruct H as (Hp & Ho & Hc). repeat split; auto. lia.
    + destruct (pop_to_lparen stack out) as [[stack' out']|] eqn:Hpop;
        [|discriminate].
      destruct (pop_to_lparen_spec _ _ _ _ Hpop)
        as (popped & rest & -> & -> & -> & Hpl).
      apply Forall_app in Hst as [Hps Hst'].
      destruct (stack_tokens_kept _ Hps Hpl) as (Hk & Hpo & Hpp).
      inversion Hst' as [|? ? _ Hrest]; subst.
      assert (Hgoal : forall stack2 out2,
                 Forall (fun tk => is_stack_token tk = true) stack2 ->
                 to_rpn_loop input stack2 out2 = Ok rpn ->
                 out2 ++ filter is_rpn_token stack2 =
                   (out ++ popped) ++ filter is_rpn_token rest ->
                 filter is_operand out2 = filter is_operand out ->
                 filter is_lparen stack2 = filter is_lparen rest ->
                 Permutation rpn
                   (out ++ filter is_rpn_token (popped ++ TLParen :: rest) ++
                    filter is_rpn_token (TRParen :: input)) /\
                 filter is_operand rpn =
                   filter is_operand out ++ filter is_operand (TRParen :: input) /\
                 List.length (filter is_lparen (popped ++ TLParen :: rest)) +
                 List.length (filter is_lparen (TRParen :: input)) =
                 List.length (filter is_rparen (TRParen :: input))).
      { intros stack2 out2 Hs2 H2 Ha Hb Hc2. apply IH in H2; auto.
        destruct H2 as (Hp & Ho & Hc).
        rewrite !filter_app, Hk, Hpp. simpl. rewrite Hb in Ho.
        rewrite Hc2 in Hc. repeat split; auto; try lia.
        rewrite app_assoc in Hp. rewrite Ha in Hp.
        rewrite <- !app_assoc in Hp. rewrite <- !app_assoc. exact Hp. }
      assert (Hop : filter is_operand (out ++ popped) = filter is_operand out)
        by (rewrite filter_app, Hpo; apply app_nil_r).
      destruct rest as [|tk2 rest2].
      * apply (Hgoal [] (out ++ popped)); auto.
      * inversion Hrest as [|? ? Htk2 Hrest2]; subst.
        destruct tk2 as [v|op| | |nm ar| |nm]; try discriminate Htk2.
        -- apply (Hgoal (TOperator op :: rest2) (out ++ popped)); auto.
        -- apply (Hgoal (TLParen :: rest2) (out ++ popped)); auto.
        -- apply (Hgoal rest2 ((out ++ popped) ++ [TFunc nm ar])); auto.
           ++ simpl. now rewrite <- !app_assoc.
           ++ rewrite filter_app, Hop. simpl. apply app_nil_r.
    + apply IH in H; [|constructor; auto]. simpl in *.
      destruct H as (Hp & Ho & Hc). repeat split; auto.
      eapply Permutation_trans; [exact Hp|].
      apply Permutation_app_head.
      apply Permutation_middle.
    + destruct (pop_to_lparen stack out) as [[stack' out']|] eqn:Hpop;
        [|discriminate].
      destruct (pop_to_lparen_spec _ _ _ _ Hpop)
        as (popped & rest & -> & -> & -> & Hpl).
      apply Forall_app in Hst as [Hps Hst'].
      destruct (stack_tokens_kept _ Hps Hpl) as (Hk & Hpo & Hpp).
      apply IH in H; auto. destruct H as (Hp & Ho & Hc).
      rewrite !filter_app, Hk, Hpp.
      rewrite filter_app, Hpo, app_nil_r in Ho. simpl in *.
      repeat split; auto.
      now rewrite <- !app_assoc in Hp |- *.
    + apply IH in H; auto. destruct H as (Hp & Ho & Hc).
      rewrite filter_app, <- app_assoc in Ho. simpl in Ho.
      rewrite <- app_assoc in Hp. simpl in *. repeat split; auto.
      eapply Permutation_trans; [exact Hp|].
      apply Permutation_app_head.
      apply Permutation_middle.
Qed.

End ParserFacts.

Section ParserResults.

Lemma flush_errors stack out e :
  flush stack out = Err e -> e = MismatchedParen.
Proof.
  revert out; induction stack as [|tk stack IH]; intros out; simpl;
    try discriminate.
  destruct tk; try (now intros [= <-]); apply IH.
Qed.

Lemma to_rpn_loop_errors input stack out e :
  to_rpn_loop input stack out = Err e ->
  e = MismatchedParen \/ e = MismatchedComma.
Proof.
  revert stack out; induction input as [|tk input IH]; intros stack out H.
  - left. eapply flush_errors; eauto.
  - destruct tk as [v|op| | |nm ar| |nm]; cbn [to_rpn_loop] in H; eauto.
    + destruct (pop_operators op stack out). eauto.
    + destruct (pop_to_lparen stack out) as [[[|t1 [|t2 st]] out']|];
        try (injection H as <-; auto); eauto.
      destruct t2; eauto.
    + destruct (pop_to_lparen stack out) as [[st out']|]; eauto.
      injection H as <-. auto.
Qed.

Lemma to_rpn_local_tokens toks rpn :
  to_rpn_local toks = Ok rpn -> Permutation rpn (filter is_rpn_token toks).
Proof.
  intros H. apply to_rpn_loop_spec in H; auto.
  destruct H as (Hp & _). exact Hp.
Qed.

End ParserResults.

(** X8: the postfix form is a rearrangement of the input tokens without
    the parentheses and commas: nothing else is dropped and nothing is
    added, so it holds no parenthesis or comma and is no longer than the
    input. *)
Theorem to_rpn_rearranges_tokens :
  forall (toks rpn : list CalcToken),
    to_rpn_local toks = Ok rpn ->
    Permutation rpn (filter is_rpn_token toks) /\
    Forall (fun tk => is_rpn_token tk = true) rpn /\
    List.length rpn <= List.length toks.
Proof.
  intros toks rpn H. apply to_rpn_loop_spec in H; auto.
  destruct H as (Hp & _). simpl in Hp. split; [exact Hp|split].
  - apply (Permutation_Forall (Permutation_sym Hp)).
    apply Forall_forall. intros tk Hin. now apply filter_In in Hin.
  - rewrite (Permutation_length Hp). apply filter_length_le.
Qed.

Lemma to_rpn_rearranges_tokens_witness :
  Permutation
    [TNumber 1; TNumber 2; TNumber 3; TOperator OP_MUL; TOperator OP_ADD]
    (filter is_rpn_token
       [TNumber 1; TOperator OP_ADD; TLParen; TNumber 2; TOperator OP_MUL;
        TNumber 3; TRParen]).
Proof.
  apply (to_rpn_rearranges_tokens
           [TNumber 1; TOperator OP_ADD; TLParen; TNumber 2; TOperator OP_MUL;
            TNumber 3; TRParen]).
  vm_compute. reflexivity.
Defined.

(** X9: the shunting yard keeps the operands (numbers and identifiers) in
    the order of the input. *)
Theorem to_rpn_keeps_operand_order :
  forall (toks rpn : list CalcToken),
    to_rpn_local toks = Ok rpn ->
    filter is_operand rpn = filter is_operand toks.
Proof.
  intros toks rpn H. apply to_rpn_loop_spec in H; auto.
  destruct H as (_ & Ho & _). exact Ho.
Qed.

Lemma to_rpn_keeps_operand_order_witness :
  filter is_operand
    [TIdent "a"; TIdent "b"; TIdent "c"; TOperator OP_POW; TOperator OP_SUB] =
  filter is_operand
    [TIdent "a"; TOperator OP_SUB; TIdent "b"; TOperator OP_POW; TIdent "c"].
Proof.
  apply (to_rpn_keeps_operand_order
           [TIdent "a"; TOperator OP_SUB; TIdent "b"; TOperator OP_POW;
            TIdent "c"]).
  vm_compute. reflexivity.
Defined.

(** X10: the shunting yard succeeds only when the input has as many left
    as right parentheses, and when it fails it is with the parenthesis or
    the comma error; so an unbalanced input always fails with one of the
    two. *)
Theorem to_rpn_needs_balanced_parens :
  forall (toks : list CalcToken),
    (forall rpn, to_rpn_local toks = Ok rpn ->
                 List.length (filter is_lparen toks) =
                 List.length (filter is_rparen toks)) /\
    (forall e, to_rpn_local toks = Err e ->
               e = MismatchedParen \/ e = MismatchedComma) /\
    (List.length (filter is_lparen toks) <> List.length (filter is_rparen toks) ->
     to_rpn_local toks = Err MismatchedParen \/
     to_rpn_local toks = Err MismatchedComma).
Proof.
  intros toks.
  assert (Hok : forall rpn, to_rpn_local toks = Ok rpn ->
                  List.length (filter is_lparen toks) =
                  List.length (filter is_rparen toks)).
  { intros rpn H. apply to_rpn_loop_spec in H; auto.
    destruct H as (_ & _ & Hc). exact Hc. }
  split; [exact Hok|split].
  - intros e H. eapply to_rpn_loop_errors; eauto.
  - intros Hne. destruct (to_rpn_local toks) as [rpn|e] eqn:E.
    + elim Hne. eauto.
    + destruct (to_rpn_loop_errors _ _ _ _ E) as [-> | ->]; auto.
Qed.

Lemma to_rpn_needs_balanced_parens_witness :
  to_rpn_local [TLParen; TNumber 1; TOperator OP_ADD; TNumber 2] =
    Err MismatchedParen \/
  to_rpn_local [TLParen; TNumber 1; TOperator OP_ADD; TNumber 2] =
    Err MismatchedComma.
Proof.
  apply (to_rpn_needs_balanced_parens
           [TLParen; TNumber 1; TOperator OP_ADD; TNumber 2]).
  vm_compute. lia.
Defined.

(** ** What the evaluator needs of its input, and what it never reports *)

Section EvaluatorFacts.
Variable L : Libm.

Lemma push_checked_ok v st st' :
  push_checked v st = Ok st' -> st' = v :: st.
Proof.
  unfold push_checked. destruct (MAX_STACK <=? List.length st)%nat;
    [discriminate|now intros [= <-]].
Qed.

Lemma lift_push_ok r st st' :
  lift_push r st = Ok st' -> exists y, st' = y :: st.
Proof.
  destruct r; simpl; [intros [= <-]; eauto|discriminate].
Qed.

(** One token moves the height of the stack by its [stack_effect]. *)
Lemma eval_token_height g tk st st' :
  eval_token L g tk st = Ok st' ->
  Z.of_nat (List.length st') = (Z.of_nat (List.length st) + stack_effect tk)%Z.
Proof.
  destruct tk as [v|op| | |nm ar| |nm];
    cbn [eval_token stack_effect]; try discriminate.
  - intros H. apply push_checked_ok in H. subst. simpl List.length. lia.
  - destruct op; cbn [is_postfix_local apply_binary];
      destruct st as [|b [|a st]]; cbn [lift_push];
      try discriminate; intros H;
      first [ injection H as <-
            | apply lift_push_ok in H as [y ->]
            | destruct (negb (factorial_ok_local b));
              [discriminate|injection H as <-]
            | destruct (b =? 0)%float; [discriminate|injection H as <-] ];
      simpl List.length; lia.
  - destruct (ar =? 1)%Z.
    + destruct st as [|x st]; [discriminate|].
      intros H. apply lift_push_ok in H as [y ->]. simpl List.length. lia.
    + destruct (ar =? 2)%Z; [|discriminate].
      destruct (negb (nm =? "pow")%string); [discriminate|].
      destruct st as [|b [|a st]]; try discriminate.
      intros H. apply lift_push_ok in H as [y ->]. simpl List.length. lia.
  - destruct (nm =? "ans")%string.
    + intros H. apply push_checked_ok in H. subst. simpl List.length. lia.
    + destruct (var_get (g_vars g) nm); [|discriminate].
      intros H. apply push_checked_ok in H. subst. simpl List.length. lia.
Qed.

Lemma eval_rpn_loop_height g rpn st v :
  eval_rpn_loop L g rpn st = Ok v ->
  (Z.of_nat (List.length st) + stack_effects rpn = 1)%Z.
Proof.
  revert st; induction rpn as [|tk rpn IH]; intros st; simpl.
  - destruct st as [|x [|y st]]; try discriminate. intros _.
    unfold stack_effects. simpl. lia.
  - destruct (eval_token L g tk st) as [st'|e] eqn:E; [|discriminate].
    intros H. apply IH in H. apply eval_token_height in E.
    unfold stack_effects in *. simpl. lia.
Qed.

(** A token as the lexer makes it never trips the evaluator's checks on
    its own input. *)
Lemma eval_token_no_internal_error g tk st e :
  lexed_token tk -> is_rpn_token tk = true ->
  eval_token L g tk st = Err e -> is_internal_error e = false.
Proof.
  assert (Hpush : forall v, push_checked v st = Err e ->
                            is_internal_error e = false).
  { intros v. unfold push_checked.
    destruct (MAX_STACK <=? List.length st)%nat; [|discriminate].
    now intros [= <-]. }
  assert (Hpow : forall a b st1, lift_push (checked_pow L a b) st1 = Err e ->
                                 is_internal_error e = false).
  { intros a b st1. unfold checked_pow. destruct (c_pow L a b) as [y en].
    destruct (errno_eqb en EDOM || errno_eqb en ERANGE); simpl;
      [now intros [= <-]|discriminate]. }
  destruct tk as [v|op| | |nm ar| |nm]; simpl; try discriminate; eauto.
  - intros _ _. destruct op; simpl;
      destruct st as [|b [|a st1]]; simpl;
      try (now intros [= <-]); try discriminate; eauto;
      try (destruct (negb (factorial_ok_local b)); simpl;
           [now intros [= <-]|discriminate]).
    + destruct (b =? 0)%float; simpl; [now intros [= <-]|discriminate].
  - intros Hf _ He. revert Hf. unfold is_func_name_local.
    repeat match goal with
           | |- context [String.eqb nm ?k] =>
               destruct (String.eqb_spec nm k) as [->|_];
               [ simpl; intros [= <-]; destruct st as [|x [|y st1]];
                 cbn -[checked_pow] in He;
                 try (eapply Hpow; exact He);
                 repeat (match type of He with
                         | context [if ?c then _ else _] => destruct c
                         end; cbn in He);
                 try discriminate He; injection He as <-; reflexivity
               | idtac ]
           end.
    simpl. discriminate.
  - intros _ _. destruct (nm =? "ans")%string; eauto.
    destruct (var_get (g_vars g) nm); eauto. now intros [= <-].
Qed.

Lemma eval_rpn_loop_no_internal_error g rpn st e :
  Forall lexed_token rpn -> Forall (fun tk => is_rpn_token tk = true) rpn ->
  eval_rpn_loop L g rpn st = Err e -> is_internal_error e = false.
Proof.
  revert st; induction rpn as [|tk rpn IH]; intros st Hl Hr; simpl.
  - destruct st as [|x [|y st]]; try discriminate; now intros [= <-].
  - inversion Hl; inversion Hr; subst.
    destruct (eval_token L g tk st) as [st'|e'] eqn:E.
    + now apply IH.
    + intros [= <-]. eapply eval_token_no_internal_error; eauto.
Qed.

(** The stack overflow check cannot fire while the tokens left are fewer
    than the room left. *)
Lemma eval_rpn_loop_no_overflow g rpn st :
  List.length st + List.length rpn <= MAX_STACK ->
  eval_rpn_loop L g rpn st <> Err StackOverflow.
Proof.
  revert st; induction rpn as [|tk rpn IH]; intros st Hlen; simpl.
  - destruct st as [|x [|y st]]; discriminate.
  - simpl in Hlen.
    destruct (eval_token L g tk st) as [st'|e] eqn:E.
    + apply IH. apply eval_token_height in E.
      assert (stack_effect tk <= 1)%Z
        by (destruct tk as [| [] | | |? ar| |]; simpl; try lia;
            destruct (ar =? 1)%Z; lia).
      lia.
    + intros [= ->].
      assert (Hp : forall v, push_checked v st <> Err StackOverflow).
      { intros v. unfold push_checked.
        destruct (MAX_STACK <=? List.length st)%nat eqn:El; [|discriminate].
        apply Nat.leb_le in El. lia. }
      destruct tk as [v|op| | |nm ar| |nm]; simpl in E; try discriminate.
      * now apply Hp in E.
      * destruct op; simpl in E;
          destruct st as [|b [|a st1]]; simpl in E; try discriminate;
          try (destruct (negb (factorial_ok_local b)); discriminate);
          try (destruct (b =? 0)%float; discriminate);
          unfold checked_pow in E; destruct (c_pow L a b) as [y en];
          destruct (errno_eqb en EDOM || errno_eqb en ERANGE); discriminate.
      * destruct (ar =? 1)%Z.
        -- destruct st as [|x st1]; [discriminate|].
           unfold apply_func1 in E.
           repeat match type of E with
                  | context [String.eqb nm ?k] =>
                      destruct (String.eqb nm k)
                  end;
             try discriminate;
             try (destruct (x <? 0)%float; discriminate);
             try (destruct (x <=? 0)%float; discriminate).
        -- destruct (ar =? 2)%Z; [|discriminate].
           destruct (negb (nm =? "pow")%string); [discriminate|].
           destruct st as [|b [|a st1]]; try discriminate.
           unfold checked_pow in E. destruct (c_pow L a b) as [y en].
           destruct (errno_eqb en EDOM || errno_eqb en ERANGE); discriminate.
      * destruct (nm =? "ans")%string; [now apply Hp in E|].
        destruct (var_get (g_vars g) nm); [now apply Hp in E|discriminate].
Qed.

(** Away from the trigonometric functions the angle mode is not read. *)
Lemma eval_token_mode g m tk st :
  uses_angle_mode tk = false ->
  eval_token L (with_mode g m) tk st = eval_token L g tk st.
Proof.
  destruct tk as [v|op| | |nm ar| |nm]; simpl; auto.
  destruct (ar =? 1)%Z; auto. simpl. intros H.
  destruct st as [|x st]; auto. f_equal.
  unfold apply_func1.
  repeat match type of H with
         | context [String.eqb nm ?k] =>
             destruct (String.eqb nm k); simpl in H; try discriminate H
         end.
  reflexivity.
Qed.

End EvaluatorFacts.

Section LexerErrors.
Import CType.

Lemma tokenize_loop_errors s skip prev out e :
  tokenize_loop s skip prev out = Err e -> is_lexer_error e = true.
Proof.
  revert skip prev out; induction s as [|c s IH]; intros skip prev out H.
  - discriminate.
  - destruct skip as [|k]; [|simpl in H; eauto].
    cbn [tokenize_loop] in H.
    destruct (code c <=? 32)%nat; [eauto|].
    destruct (isdigit c || (c =? ".")%char).
    { destruct (Strtod.strtod (c :: s)) as [[v n] errno].
      destruct (n =? 0)%nat; [now injection H as <-|].
      destruct (errno_eqb errno ERANGE); [now injection H as <-|eauto]. }
    destruct (is_func_char_local c).
    { destruct (scan_name (c :: s) 0 []) as [buf j]. cbv zeta in H.
      destruct (is_func_name_local (string_of_list_ascii buf)); eauto. }
    destruct (c =? "(")%char; [eauto|].
    destruct (c =? ")")%char; [eauto|].
    destruct (c =? ",")%char; [eauto|].
    destruct (is_operator_char c); [eauto|now injection H as <-].
Qed.

End LexerErrors.

(** X11: an evaluation that succeeds has consumed a postfix form whose
    stack effects add up to one: the operands outnumber the binary
    operators and [pow] calls by exactly one. *)
Theorem eval_rpn_success_is_balanced :
  forall (L : Libm) (g : Globals) (rpn : list CalcToken) (v : float),
    eval_rpn_local L g rpn = Ok v -> stack_effects rpn = 1%Z.
Proof.
  intros L g rpn v H. unfold eval_rpn_local in H.
  apply eval_rpn_loop_height in H. simpl in H. lia.
Qed.

Lemma eval_rpn_success_is_balanced_witness :
  stack_effects [TNumber 1; TNumber 2; TNumber 3; TOperator OP_MUL;
                 TOperator OP_ADD] = 1%Z.
Proof.
  apply (eval_rpn_success_is_balanced libm_ref g_zero _ 7%float).
  vm_compute. reflexivity.
Defined.

(** X12: on any text, the pipeline never reports one of the evaluator's
    internal errors (illegal postfix token, unknown function, unsupported
    arity, unknown operator): the lexer and the shunting yard only hand
    over what the evaluator knows. *)
Theorem eval_expr_no_internal_error :
  forall (L : Libm) (g : Globals) (s : string) (e : CalcError),
    eval_expr_local L g s = Err e -> is_internal_error e = false.
Proof.
  intros L g s e. unfold eval_expr_local.
  destruct (tokenize_local s) as [toks|e1] eqn:Hlex.
  - destruct (to_rpn_local toks) as [rpn|e2] eqn:Hrpn.
    + intros H. pose proof (to_rpn_local_tokens _ _ Hrpn) as Hp.
      pose proof (tokenize_local_lexed _ _ Hlex) as Hl.
      assert (Hf : Forall (fun tk => lexed_token tk /\ is_rpn_token tk = true)
                     rpn).
      { apply (Permutation_Forall (Permutation_sym Hp)).
        apply Forall_forall. intros tk Hin. apply filter_In in Hin as [Hin Hk].
        split; auto. rewrite Forall_forall in Hl. auto. }
      apply Forall_and_inv in Hf as [Hf1 Hf2].
      eapply eval_rpn_loop_no_internal_error; eauto.
    + intros [= <-].
      destruct (to_rpn_loop_errors _ _ _ _ Hrpn) as [-> | ->]; reflexivity.
  - intros [= <-]. apply tokenize_loop_errors in Hlex.
    destruct e1; try discriminate Hlex; reflexivity.
Qed.

Lemma eval_expr_no_internal_error_witness :
  is_internal_error (UndefinedVariable "foo") = false.
Proof.
  apply (eval_expr_no_internal_error libm_ref g_zero "foo(1,2)").
  vm_compute. reflexivity.
Defined.

(** X13: a text of at most 1024 characters never overflows the operand
    stack: the stack holds at most one value per token, and there is at
    most one token per character. *)
Theorem eval_expr_no_stack_overflow :
  forall (L : Libm) (g : Globals) (s : string),
    String.length s <= MAX_STACK ->
    eval_expr_local L g s <> Err StackOverflow.
Proof.
  intros L g s Hlen. unfold eval_expr_local.
  destruct (tokenize_local s) as [toks|e1] eqn:Hlex.
  - destruct (to_rpn_local toks) as [rpn|e2] eqn:Hrpn.
    + apply eval_rpn_loop_no_overflow. simpl.
      apply tokenize_loop_count in Hlex. rewrite chars_length in Hlex.
      apply to_rpn_local_tokens in Hrpn.
      rewrite (Permutation_length Hrpn).
      pose proof (filter_length_le is_rpn_token toks). simpl in Hlex. lia.
    + destruct (to_rpn_loop_errors _ _ _ _ Hrpn) as [-> | ->]; discriminate.
  - intros [= ->]. apply tokenize_loop_errors in Hlex. discriminate Hlex.
Qed.

Lemma eval_expr_no_stack_overflow_witness :
  eval_expr_local libm_ref g_zero "1+(2+(3+(4+5)))" <> Err StackOverflow.
Proof.
  apply eval_expr_no_stack_overflow. vm_compute. lia.
Defined.

(** X14: the angle mode is read only by the six trigonometric functions:
    a postfix form without them evaluates the same in either mode. *)
Theorem eval_rpn_mode_independent :
  forall (L : Libm) (g : Globals) (m : AngleMode) (rpn : list CalcToken),
    forallb (fun tk => negb (uses_angle_mode tk)) rpn = true ->
    eval_rpn_local L (with_mode g m) rpn = eval_rpn_local L g rpn.
Proof.
  intros L g m rpn. unfold eval_rpn_local. generalize (@nil float).
  induction rpn as [|tk rpn IH]; intros st H; simpl in *; auto.
  apply andb_prop in H as [Htk Hall].
  rewrite eval_token_mode by (now destruct (uses_angle_mode tk)).
  destruct (eval_token L g tk st); auto.
Qed.

Lemma eval_rpn_mode_independent_witness :
  eval_rpn_local libm_ref (with_mode g_zero MODE_DEG)
    [TNumber 2; TFunc "sqrt" 1; TNumber 3; TOperator OP_MUL] =
  eval_rpn_local libm_ref g_zero
    [TNumber 2; TFunc "sqrt" 1; TNumber 3; TOperator OP_MUL].
Proof.
  apply eval_rpn_mode_independent. vm_compute. reflexivity.
Defined.

(** ** The numeric methods and the state *)

Section NumericState.
Variable L : Libm.
Variables expr v : string.
Variable g0 : Globals.
Hypothesis v_fits : String.length v <= NAME_LEN - 1.

Lemma eval_with_var_view g x :
  same_view g g0 -> same_view (snd (eval_with_var L g expr v x)) g0.
Proof.
  intros Hg. eapply same_view_trans; [|exact Hg].
  now apply eval_with_var_restores.
Qed.

Lemma diff_center_view g x h :
  same_view g g0 -> same_view (snd (diff_center L g expr v x h)) g0.
Proof.
  intros Hg. unfold diff_center.
  pose proof (eval_with_var_view g (x + h)%float Hg) as H1.
  destruct (eval_with_var L g expr v (x + h)%float) as [[f1|e1] g1]; auto.
  pose proof (eval_with_var_view g1 (x - h)%float H1) as H2.
  destruct (eval_with_var L g1 expr v (x - h)%float) as [[f2|e2] g2]; auto.
Qed.

Lemma newton_loop_view maxit tol k g x :
  same_view g g0 ->
  same_view (snd (newton_loop L expr v maxit tol k g x)) g0.
Proof.
  revert g x; induction k as [|k IH]; intros g x Hg; cbn [newton_loop]; auto.
  pose proof (eval_with_var_view g x Hg) as H1.
  destruct (eval_with_var L g expr v x) as [[fx|e] g1]; auto.
  pose proof (diff_center_view g1 x 1e-6%float H1) as H2.
  destruct (diff_center L g1 expr v x 1e-6) as [dfx g2]. simpl in H2.
  destruct (negb (CDouble.isfinite dfx) || (dfx =? 0)%float); auto.
  destruct (CDouble.fabs fx <? tol)%float; auto.
Qed.

Lemma simpson_loop_view a h cnt i g s :
  same_view g g0 ->
  same_view (snd (simpson_loop L expr v a h cnt i g s)) g0.
Proof.
  revert i g s; induction cnt as [|cnt IH]; intros i g s Hg;
    cbn [simpson_loop]; auto.
  cbv zeta.
  pose proof (eval_with_var_view g (a + CDouble.of_Z i * h)%float Hg) as H1.
  destruct (eval_with_var L g expr v (a + CDouble.of_Z i * h)%float)
    as [[fx|e] g1]; auto.
Qed.

Lemma plot_range_loop_view xmin xmax W cnt i g ymin ymax :
  same_view g g0 ->
  same_view (snd (plot_range_loop L expr v xmin xmax W cnt i g ymin ymax)) g0.
Proof.
  revert i g ymin ymax; induction cnt as [|cnt IH]; intros i g ymin ymax Hg;
    cbn [plot_range_loop]; auto.
  cbv zeta.
  match goal with
  | |- context [eval_with_var L g expr v ?x] =>
      pose proof (eval_with_var_view g x Hg) as H1;
      destruct (eval_with_var L g expr v x) as [[y|e] g1]; auto
  end.
  destruct (CDouble.isfinite y); auto.
Qed.

End NumericState.

(** X15: the derivative, the solver, the integrator and the plot's
    range pass, each a sequence of evaluations under a transient binding,
    leave the state as they found it (same bindings slot by slot, same
    last result, same angle mode), whatever they return; the integrator
    for every segment count below [INT_MAX], where its count does not
    overflow. *)
Theorem numeric_methods_restore_state :
  forall (L : Libm) (g : Globals) (expr v : string),
    String.length v <= NAME_LEN - 1 ->
    (forall x h, same_view (snd (diff_center L g expr v x h)) g) /\
    (forall x0 maxit tol,
        same_view (snd (solve_newton L g expr v x0 maxit tol)) g) /\
    (forall a b n,
        (n < INT_MAX)%Z ->
        exists out,
          integ_simpson L g expr v a b n = Some out /\
          same_view (snd out) g) /\
    (forall xmin xmax W, same_view (snd (plot_yrange L g expr v xmin xmax W)) g).
Proof.
  intros L g expr v Hv. pose proof (same_view_refl g) as Hg.
  split; [|split; [|split]].
  - intros x h. now apply diff_center_view.
  - intros x0 maxit tol. now apply newton_loop_view.
  - intros a b n Hn. unfold integ_simpson.
    destruct (simpson_segments_spec n Hn) as (n' & -> & _).
    eexists. split; [reflexivity|]. unfold simpson_sum. cbv zeta.
    pose proof (eval_with_var_view L expr v g Hv g a Hg) as H1.
    destruct (eval_with_var L g expr v a) as [[fa|e] g1]; auto.
    match goal with
    | |- context [simpson_loop L expr v a ?h ?cnt ?i g1 ?s] =>
        pose proof (simpson_loop_view L expr v g Hv a h cnt i g1 s H1) as H2;
        destruct (simpson_loop L expr v a h cnt i g1 s) as [[s'|e] g2]; auto
    end.
    pose proof (eval_with_var_view L expr v g Hv g2 b H2) as H3.
    destruct (eval_with_var L g2 expr v b) as [[fb|e] g3]; auto.
  - intros xmin xmax W. unfold plot_yrange. cbv zeta.
    match goal with
    | |- context [plot_range_loop L expr v xmin xmax ?w ?cnt ?i g ?lo ?hi] =>
        pose proof (plot_range_loop_view L expr v g Hv xmin xmax w cnt i g
                      lo hi Hg) as H1;
        destruct (plot_range_loop L expr v xmin xmax w cnt i g lo hi)
          as [[ymin ymax] g1]
    end.
    destruct (plot_pad_test ymin ymax); auto.
Qed.

Lemma numeric_methods_restore_state_witness :
  same_view (snd (solve_newton libm_ref g_x2 "x*x-2" "x" 1 30 1e-10)) g_x2.
Proof.
  assert (Hv : String.length "x" <= NAME_LEN - 1) by (vm_compute; lia).
  destruct (numeric_methods_restore_state libm_ref g_x2 "x*x-2" "x" Hv)
    as (_ & Hsolve & _).
  exact (Hsolve 1%float 30%Z 1e-10%float).
Defined.

(** X16: when the function evaluates at the iterate but one of the two
    evaluations of the central difference fails, the solver reports the
    derivative error at that iterate, not the error of the evaluation. *)
Theorem newton_masks_derivative_failure :
  forall (L : Libm) (g g1 : Globals) (expr v : string) (x0 fx : float)
         (maxit : Z) (tol : float) (e : CalcError),
    (0 < maxit)%Z ->
    eval_with_var L g expr v x0 = (Ok fx, g1) ->
    fst (eval_with_var L g1 expr v (x0 + 1e-6)) = Err e \/
    (exists f1 g2,
        eval_with_var L g1 expr v (x0 + 1e-6) = (Ok f1, g2) /\
        fst (eval_with_var L g2 expr v (x0 - 1e-6)) = Err e) ->
    fst (solve_newton L g expr v x0 maxit tol) =
      Err (ZeroOrNonFiniteDerivative x0).
Proof.
  intros L g g1 expr v x0 fx maxit tol e Hm He Hd.
  unfold solve_newton.
  destruct (Z.to_nat maxit) as [|k] eqn:Ek; [lia|].
  cbn [newton_loop]. rewrite He.
  assert (Hnan : fst (diff_center L g1 expr v x0 1e-6) = nan).
  { unfold diff_center. destruct Hd as [Hd|(f1 & g2 & Hd1 & Hd2)].
    - destruct (eval_with_var L g1 expr v (x0 + 1e-6)%float) as [[f1|e1] g2];
        [discriminate Hd|reflexivity].
    - rewrite Hd1.
      destruct (eval_with_var L g2 expr v (x0 - 1e-6)%float) as [[f2|e2] g3];
        [discriminate Hd2|reflexivity]. }
  destruct (diff_center L g1 expr v x0 1e-6) as [dfx g2]. simpl in Hnan.
  subst dfx. reflexivity.
Qed.

Lemma newton_masks_derivative_failure_witness :
  fst (eval_with_var libm_ref g_zero "1/(x-0.000001)" "x" 0.000001)
    = Err DivisionByZero /\
  fst (solve_newton libm_ref g_zero "1/(x-0.000001)" "x" 0 30 1e-10)
    = Err (ZeroOrNonFiniteDerivative 0).
Proof.
  split; [vm_compute; reflexivity|].
  apply (newton_masks_derivative_failure libm_ref g_zero
           (snd (eval_with_var libm_ref g_zero "1/(x-0.000001)" "x" 0))
           "1/(x-0.000001)" "x" 0%float (-1000000)%float 30%Z 1e-10%float
           DivisionByZero).
  - lia.
  - vm_compute. reflexivity.
  - left. vm_compute. reflexivity.
Defined.

(** X17: the solver and the integrator (for every segment count below
    [INT_MAX]) stop at the first evaluation that fails and return its
    error; a solver without budget fails as not converged before
    evaluating anything. *)
Theorem first_failure_propagates :
  forall (L : Libm) (g : Globals) (expr v : string) (e : CalcError),
    (forall x0 maxit tol,
        (0 < maxit)%Z ->
        fst (eval_with_var L g expr v x0) = Err e ->
        fst (solve_newton L g expr v x0 maxit tol) = Err e) /\
    (forall x0 maxit tol,
        (maxit <= 0)%Z ->
        solve_newton L g expr v x0 maxit tol = (Err (DidNotConverge maxit), g)) /\
    (forall a b n,
        (n < INT_MAX)%Z ->
        fst (eval_with_var L g expr v a) = Err e ->
        exists out,
          integ_simpson L g expr v a b n = Some out /\ fst out = Err e).
Proof.
  intros L g expr v e. split; [|split].
  - intros x0 maxit tol Hm He. unfold solve_newton.
    destruct (Z.to_nat maxit) as [|k] eqn:Ek; [lia|].
    cbn [newton_loop].
    destruct (eval_with_var L g expr v x0) as [[fx|e1] g1]; simpl in He;
      [discriminate|]. now injection He as ->.
  - intros x0 maxit tol Hm. unfold solve_newton.
    replace (Z.to_nat maxit) with 0 by lia. reflexivity.
  - intros a b n Hn He. unfold integ_simpson.
    destruct (simpson_segments_spec n Hn) as (n' & -> & _).
    eexists. split; [reflexivity|]. unfold simpson_sum. cbv zeta.
    destruct (eval_with_var L g expr v a) as [[fa|e1] g1]; simpl in He;
      [discriminate|]. now injection He as ->.
Qed.

Lemma first_failure_propagates_witness :
  fst (solve_newton libm_ref g_zero "x+q" "x" 1 30 1e-10)
    = Err (UndefinedVariable "q") /\
  solve_newton libm_ref g_zero "x" "x" 1 0 1e-10
    = (Err (DidNotConverge 0), g_zero) /\
  option_map fst (integ_simpson libm_ref g_zero "(x" "x" 0 1 10) =
    Some (Err MismatchedParen).
Proof.
  destruct (first_failure_propagates libm_ref g_zero "x+q" "x"
              (UndefinedVariable "q")) as (H1 & _ & _).
  destruct (first_failure_propagates libm_ref g_zero "x" "x"
              MismatchedParen) as (_ & H2 & _).
  destruct (first_failure_propagates libm_ref g_zero "(x" "x"
              MismatchedParen) as (_ & _ & H3).
  split; [|split].
  - apply H1; [lia|vm_compute; reflexivity].
  - apply H2. lia.
  - destruct (H3 0%float 1%float 10%Z) as (out & Hout & Herr);
      [reflexivity|vm_compute; reflexivity|].
    rewrite Hout. simpl. now rewrite Herr.
Defined.

(** ** print_bin *)

Section PrintBin.

Lemma land_one x : Z.land x 1 = (x mod 2)%Z.
Proof.
  change 1%Z with (Z.ones 1). rewrite Z.land_ones by lia. reflexivity.
Qed.

Lemma bit_of v i :
  (0 <= v)%Z ->
  let bit := Z.land (Z.shiftr v (Z.of_nat i)) 1 in
  (bit = 0 \/ bit = 1)%Z /\
  (v mod 2 ^ Z.of_nat (S i) = bit * 2 ^ Z.of_nat i + v mod 2 ^ Z.of_nat i)%Z.
Proof.
  intros Hv bit. subst bit.
  rewrite land_one, Z.shiftr_div_pow2 by lia. split.
  - pose proof (Z.mod_pos_bound (v / 2 ^ Z.of_nat i) 2). lia.
  - rewrite Nat2Z.inj_succ, Z.pow_succ_r by lia.
    rewrite (Z.mul_comm 2), Z.rem_mul_r by lia. lia.
Qed.

Lemma print_bin_loop_started v n acc :
  (0 <= v)%Z ->
  let '(out, fin) := print_bin_loop v n true in
  fin = true /\
  fold_left bin_step out acc = (acc * 2 ^ Z.of_nat n + v mod 2 ^ Z.of_nat n)%Z /\
  Forall (fun c => c = "0"%char \/ c = "1"%char) out.
Proof.
  intros Hv. revert acc; induction n as [|i IH]; intros acc.
  - simpl. rewrite Z.mod_1_r. repeat split; auto; lia.
  - cbn [print_bin_loop]. cbv zeta.
    destruct (bit_of v i Hv) as (Hbit & Hmod).
    set (bit := Z.land (Z.shiftr v (Z.of_nat i)) 1) in *.
    replace (if (bit =? 0)%Z then true else true) with true
      by (destruct (bit =? 0)%Z; reflexivity).
    specialize (IH (bin_step acc (if (bit =? 0)%Z then "0" else "1")%char)).
    destruct (print_bin_loop v i true) as [rest fin].
    destruct IH as (-> & Hval & Hall). split; [reflexivity|split].
    + cbn [app fold_left]. rewrite Hval, Hmod. unfold bin_step.
      rewrite Nat2Z.inj_succ, Z.pow_succ_r by lia.
      destruct Hbit as [-> | ->]; cbn [Z.eqb Ascii.eqb Bool.eqb]; lia.
    + cbn [app]. constructor; auto. destruct (bit =? 0)%Z; auto.
Qed.

Lemma print_bin_loop_fresh v n :
  (0 <= v)%Z ->
  let '(out, fin) := print_bin_loop v n false in
  let r := (v mod 2 ^ Z.of_nat n)%Z in
  (r = 0%Z -> out = [] /\ fin = false) /\
  (r <> 0%Z ->
   fin = true /\ fold_left bin_step out 0%Z = r /\
   (exists rest, out = "1"%char :: rest) /\
   Forall (fun c => c = "0"%char \/ c = "1"%char) out).
Proof.
  intros Hv. induction n as [|i IH].
  - simpl. rewrite Z.mod_1_r. split; auto. intros H. now elim H.
  - cbn [print_bin_loop]. cbv zeta.
    destruct (bit_of v i Hv) as (Hbit & Hmod).
    set (bit := Z.land (Z.shiftr v (Z.of_nat i)) 1) in *.
    pose proof (Z.mod_pos_bound v (2 ^ Z.of_nat i)) as Hb.
    assert (0 < 2 ^ Z.of_nat i)%Z by (apply Z.pow_pos_nonneg; lia).
    destruct Hbit as [Hbit|Hbit]; rewrite Hbit in *; cbn [Z.eqb].
    + destruct (print_bin_loop v i false) as [rest fin].
      cbn [app]. cbv zeta in IH |- *. rewrite Hmod.
      replace (0 * 2 ^ Z.of_nat i + v mod 2 ^ Z.of_nat i)%Z
        with (v mod 2 ^ Z.of_nat i)%Z by lia.
      exact IH.
    + pose proof (print_bin_loop_started v i 1%Z Hv) as Hs.
      destruct (print_bin_loop v i true) as [rest fin].
      destruct Hs as (-> & Hval & Hall). cbv zeta. rewrite Hmod.
      split; [intros Hr; lia|]. intros _.
      split; [reflexivity|split; [|split]].
      * cbn [app fold_left]. change (bin_step 0 "1"%char) with 1%Z.
        rewrite Hval. lia.
      * exists rest. reflexivity.
      * cbn [app]. constructor; auto.
Qed.

End PrintBin.

(** X18: for a value that fits the word, the digits [print_bin] writes
    read back as that value; they are all 0 or 1, a single 0 for zero and
    otherwise start with 1 (no leading zeros). *)
Theorem print_bin_round_trip :
  forall (bits : nat) (v : Z),
    (0 <= v < 2 ^ Z.of_nat bits)%Z ->
    bin_value (print_bin bits v) = v /\
    Forall (fun c => c = "0"%char \/ c = "1"%char) (print_bin bits v) /\
    (v = 0%Z -> print_bin bits v = ["0"%char]) /\
    (v <> 0%Z -> exists rest, print_bin bits v = "1"%char :: rest).
Proof.
  intros bits v Hv. unfold print_bin, bin_value.
  pose proof (print_bin_loop_fresh v bits (proj1 Hv)) as H.
  destruct (print_bin_loop v bits false) as [out fin]. cbv zeta in H.
  rewrite Z.mod_small in H by exact Hv. destruct H as (H0 & H1).
  destruct (Z.eq_dec v 0) as [Hz|Hnz].
  - destruct (H0 Hz) as (-> & ->). subst v. simpl.
    repeat split; auto. intros H. now elim H.
  - destruct (H1 Hnz) as (-> & Hval & Hhd & Hall).
    repeat split; auto. intros H. now elim Hnz.
Qed.

Lemma print_bin_round_trip_witness :
  print_bin 64 10 = chars "1010" /\ bin_value (print_bin 64 10) = 10%Z.
Proof.
  split; [vm_compute; reflexivity|].
  apply (print_bin_round_trip 64 10).
  vm_compute. split; [discriminate|reflexivity].
Defined.

(** ** trim_spaces *)

Section TrimSpaces.

Lemma leading_blanks_spec s :
  let i := leading_blanks s in
  i <= List.length s /\
  forallb is_blank (firstn i s) = true /\
  (forall c rest, skipn i s = c :: rest -> is_blank c = false).
Proof.
  induction s as [|c s IH]; simpl.
  - repeat split; auto. discriminate.
  - destruct (is_blank c) eqn:E; simpl.
    + destruct IH as (H1 & H2 & H3). rewrite E. repeat split; auto. lia.
    + repeat split; auto; try lia. now intros c' rest [= <- _].
Qed.

Lemma trailing_bound_spec s i jp0 :
  i <= jp0 ->
  let jp := trailing_bound s i jp0 in
  i <= jp <= jp0 /\
  (forall k, jp <= k < jp0 -> is_blank (nth k s "000"%char) = true) /\
  (i < jp -> is_blank (nth (jp - 1) s "000"%char) = false).
Proof.
  induction jp0 as [|j IH]; intros Hi; cbn [trailing_bound].
  - cbv zeta. repeat split; try lia.
  - destruct ((i <=? j)%nat && is_blank (nth j s "000"%char)) eqn:E.
    + apply andb_prop in E as [Hij Hb]. apply Nat.leb_le in Hij.
      destruct (IH Hij) as (H1 & H2 & H3). cbv zeta. repeat split; try lia; auto.
      intros k Hk. destruct (Nat.eq_dec k j) as [->|Hne]; auto.
      apply H2. lia.
    + cbv zeta. repeat split; try lia.
      intros Hlt. replace (S j - 1) with j by lia.
      apply andb_false_iff in E as [E|E]; auto.
      apply Nat.leb_gt in E. lia.
Qed.

Lemma blanks_from s jp :
  (forall k, jp <= k < List.length s -> is_blank (nth k s "000"%char) = true) ->
  forallb is_blank (skipn jp s) = true.
Proof.
  revert jp; induction s as [|c s IH]; intros jp H.
  - now rewrite skipn_nil.
  - destruct jp as [|jp]; simpl.
    + assert (Hc : is_blank c = true) by (apply (H 0); simpl; lia).
      rewrite Hc. simpl.
      apply (IH 0). intros k Hk. apply (H (S k)). simpl. lia.
    + apply IH. intros k Hk. apply (H (S k)). simpl. lia.
Qed.

(** A text that is empty or has no blank at either end is left alone. *)
Lemma trim_spaces_fixed t :
  (forall c rest, t = c :: rest -> is_blank c = false) ->
  (forall c front, t = front ++ [c] -> is_blank c = false) ->
  trim_spaces t = t.
Proof.
  intros Hhd Hlast. unfold trim_spaces.
  destruct t as [|c rest]; [reflexivity|].
  assert (Hi : leading_blanks (c :: rest) = 0)
    by (simpl; now rewrite (Hhd c rest eq_refl)).
  rewrite Hi.
  destruct (exists_last (l := c :: rest)) as (front & d & Hfd); [discriminate|].
  rewrite Hfd in *. rewrite length_app. simpl List.length.
  replace (List.length front + 1) with (S (List.length front)) by lia.
  cbn [trailing_bound].
  rewrite app_nth2, Nat.sub_diag by lia. simpl nth.
  rewrite (Hlast d front eq_refl), andb_false_r.
  rewrite Nat.sub_0_r. cbn [skipn].
  rewrite <- (length_app front [d]) || idtac.
  replace (S (List.length front)) with (List.length (front ++ [d]))
    by (rewrite length_app; simpl; lia).
  apply firstn_all.
Qed.

End TrimSpaces.

(** X19: [trim_spaces] removes blanks (spaces and tabs) at the two ends
    and nothing else: the text is a run of blanks, the result, and a run
    of blanks; the result neither starts nor ends with a blank; and
    trimming twice is trimming once. *)
Theorem trim_spaces_strips_ends :
  forall s : list ascii,
    (exists l r,
        s = l ++ trim_spaces s ++ r /\
        forallb is_blank l = true /\ forallb is_blank r = true) /\
    (forall c rest, trim_spaces s = c :: rest -> is_blank c = false) /\
    (forall c front, trim_spaces s = front ++ [c] -> is_blank c = false) /\
    trim_spaces (trim_spaces s) = trim_spaces s.
Proof.
  intros s.
  destruct (leading_blanks_spec s) as (Hi & Hl & Hhd).
  set (i := leading_blanks s) in *.
  destruct (trailing_bound_spec s i (List.length s) Hi) as (Hj & Hr & Hlast).
  assert (Ht : trim_spaces s =
               firstn (trailing_bound s i (List.length s) - i) (skipn i s))
    by reflexivity.
  set (jp := trailing_bound s i (List.length s)) in *.
  assert (Hhead : forall c rest, trim_spaces s = c :: rest -> is_blank c = false).
  { intros c rest H. rewrite Ht in H.
    destruct (skipn i s) as [|c' rest'] eqn:E.
    - rewrite firstn_nil in H. discriminate.
    - destruct (jp - i); [discriminate|]. simpl in H. injection H as <- _.
      eapply Hhd; eauto. }
  assert (Htail : forall c front, trim_spaces s = front ++ [c] ->
                                  is_blank c = false).
  { intros c front H.
    assert (Hlen : List.length (trim_spaces s) = jp - i)
      by (rewrite Ht, length_firstn, length_skipn; lia).
    rewrite H, length_app in Hlen. simpl in Hlen.
    assert (Hnth : nth (jp - 1) s "000"%char = c).
    { rewrite <- (firstn_skipn i s) at 1.
      rewrite app_nth2 by (rewrite length_firstn; lia).
      rewrite length_firstn, Nat.min_l by lia.
      rewrite <- (firstn_skipn (jp - i) (skipn i s)).
      rewrite app_nth1 by (rewrite length_firstn, length_skipn; lia).
      rewrite <- Ht, H, app_nth2 by lia.
      replace (jp - 1 - i - List.length front) with 0 by lia. reflexivity. }
    rewrite <- Hnth. apply Hlast. lia. }
  split; [|split; [exact Hhead|split; [exact Htail|]]].
  - exists (firstn i s), (skipn jp s). repeat split; auto.
    + rewrite Ht.
      rewrite <- (firstn_skipn i s) at 1. f_equal.
      rewrite <- (firstn_skipn (jp - i) (skipn i s)) at 1. f_equal.
      rewrite skipn_skipn. f_equal. lia.
    + now apply blanks_from.
  - now apply trim_spaces_fixed.
Qed.

(** ** The evaluation step of the main loop *)

Section HistoryFacts.

Lemma lastn_short {A : Type} n (l : list A) :
  List.length l <= n -> lastn n l = l.
Proof.
  intros H. unfold lastn. now replace (List.length l - n) with 0 by lia.
Qed.

Lemma lastn_drop_oldest {A : Type} n (l : list A) (x : A) :
  List.length l = S n -> lastn (S n) (l ++ [x]) = tl l ++ [x].
Proof.
  intros H. unfold lastn. rewrite length_app. simpl List.length.
  replace (List.length l + 1 - S n) with 1 by lia.
  destruct l; [discriminate|reflexivity].
Qed.

End HistoryFacts.

(** X20: the history is a bounded queue.  On a history within the bound,
    [history_add] appends one record carrying the expression, the value
    and the flag, and keeps the newest [MAX_HISTORY] records: the bound
    holds again and only the oldest record can be lost.  A successful
    record has an empty error text, and a stored error text is the first
    127 characters of the message. *)
Theorem history_add_keeps_newest :
  forall (hist : list HistoryItem) (expr : string) (value : float)
         (ok : bool) (errmsg : option string),
    List.length hist <= MAX_HISTORY ->
    exists item,
      history_add hist expr value ok errmsg =
        lastn MAX_HISTORY (hist ++ [item]) /\
      List.length (history_add hist expr value ok errmsg) <= MAX_HISTORY /\
      h_expr item = expr /\ h_result item = value /\ h_ok item = ok /\
      (ok = true -> h_err item = ""%string) /\
      (forall m, ok = false -> errmsg = Some m ->
                 h_err item = substring 0 127 m).
Proof.
  intros hist expr value ok errmsg Hlen. unfold history_add.
  match goal with |- context [_ ++ [?it]] => exists it end.
  cbn [h_expr h_result h_ok h_err].
  split; [|split; [|repeat split]].
  - destruct (Nat.eqb_spec (List.length hist) MAX_HISTORY) as [E|E].
    + symmetry. apply lastn_drop_oldest. exact E.
    + symmetry. apply lastn_short. rewrite length_app. simpl. lia.
  - rewrite length_app. simpl List.length.
    destruct (Nat.eqb_spec (List.length hist) MAX_HISTORY) as [E|E].
    + destruct hist; [discriminate|]. simpl in *. lia.
    + lia.
  - intros ->. destruct errmsg; reflexivity.
  - intros m -> ->. reflexivity.
Qed.

Lemma history_add_keeps_newest_witness :
  exists item,
    history_add [] "1/0" 0 false (Some "division by zero"%string) = [item] /\
    h_err item = "division by zero"%string.
Proof.
  destruct (history_add_keeps_newest [] "1/0" 0 false
              (Some "division by zero"%string)) as (item & H & _ & _ & _ & _ & _ & He).
  - unfold MAX_HISTORY. simpl. lia.
  - exists item. split.
    + rewrite H. reflexivity.
    + rewrite (He _ eq_refl eq_refl). reflexivity.
Defined.

(** X21: what one evaluated line does to the calculator.  A line that
    fails changes no variable, neither the register nor the mode nor the
    expression kept for repetition.  A line that evaluates to [val] sets
    the register, so that the expression [ans] then evaluates to [val];
    it leaves the mode and every variable other than [ans] as they were;
    and every later expression is evaluated as under the old state with
    the register replaced. *)
Theorem main_evaluate_outcome :
  forall (L : Libm) (render : CalcError -> string) (s : Session)
         (line : string),
    let s' := main_evaluate L render s line in
    (forall e, eval_expr_local L (s_globals s) line = Err e ->
       s_globals s' = s_globals s /\ s_last_expr s' = s_last_expr s) /\
    (forall val, eval_expr_local L (s_globals s) line = Ok val ->
       eval_expr_local L (s_globals s') "ans" = Ok val /\
       g_last_result (s_globals s') = val /\
       g_mode (s_globals s') = g_mode (s_globals s) /\
       (forall nm, nm <> "ans"%string ->
          var_get (g_vars (s_globals s')) nm =
          var_get (g_vars (s_globals s)) nm) /\
       (forall expr,
          eval_expr_local L (s_globals s') expr =
          eval_expr_local L
            {| g_vars := g_vars (s_globals s); g_last_result := val;
               g_mode := g_mode (s_globals s) |} expr)).
Proof.
  intros L render s line s'. subst s'. unfold main_evaluate.
  assert (Hother : forall val nm, nm <> "ans"%string ->
            var_get (fst (var_set (g_vars (s_globals s)) "ans" val)) nm =
            var_get (g_vars (s_globals s)) nm)
    by (intros val nm Hnm; apply var_get_set_other; auto).
  split.
  - intros e ->. split; reflexivity.
  - intros val ->. cbn [s_globals g_last_result g_mode g_vars].
    split; [|split; [reflexivity|split; [reflexivity|split; [apply Hother|]]]].
    + unfold eval_expr_local.
      assert (Ht : tokenize_local "ans" = Ok [TIdent "ans"])
        by (vm_compute; reflexivity).
      rewrite Ht.
      assert (Hr : to_rpn_local [TIdent "ans"] = Ok [TIdent "ans"])
        by (vm_compute; reflexivity).
      rewrite Hr. reflexivity.
    + intros expr. apply eval_expr_reads; simpl; auto.
Qed.

(** ** Blank input *)

Section BlankInput.

Lemma tokenize_loop_blank s prev out :
  Forall (fun c => CType.code c <= 32) s ->
  tokenize_loop s 0 prev out = Ok out.
Proof.
  induction 1 as [|c s Hc _ IH]; [reflexivity|].
  cbn [tokenize_loop].
  apply Nat.leb_le in Hc. rewrite Hc. exact IH.
Qed.

End BlankInput.

(** X22: an expression made only of white space and control characters
    (codes up to 32), the empty text included, is rejected with the
    malformed-expression error at stack height 0, under any state. *)
Theorem blank_expression_is_rejected :
  forall (L : Libm) (g : Globals) (expr : string),
    Forall (fun c => CType.code c <= 32) (chars expr) ->
    eval_expr_local L g expr = Err (MalformedExpression 0).
Proof.
  intros L g expr H. unfold eval_expr_local, tokenize_local.
  rewrite (tokenize_loop_blank _ _ _ H). reflexivity.
Qed.

Lemma blank_expression_is_rejected_witness :
  eval_expr_local libm_ref g_zero "  " = Err (MalformedExpression 0).
Proof.
  apply blank_expression_is_rejected.
  repeat constructor; vm_compute; discriminate.
Defined.

(** ** Identifiers and the variable table *)

Section IdentifierLookup.

Lemma scan_name_whole name j buf :
  forallb is_func_char_local name = true ->
  j + List.length name <= NAME_LEN - 1 ->
  scan_name name j buf =
    (buf ++ map CType.tolower name, j + List.length name).
Proof.
  change (NAME_LEN - 1) with 15.
  revert j buf; induction name as [|c name IH]; intros j buf Hall Hlen.
  - simpl. now rewrite app_nil_r, Nat.add_0_r.
  - simpl in Hall, Hlen. apply andb_prop in Hall as [Hc Hall].
    cbn [scan_name]. rewrite Hc. change (NAME_LEN - 1) with 15.
    assert (Hj : (j <? 15)%nat = true) by (apply Nat.ltb_lt; lia).
    rewrite Hj. cbn [andb]. rewrite (IH (S j)); auto; try lia.
    rewrite <- app_assoc. simpl. f_equal. lia.
Qed.

Lemma tokenize_local_identifier nm :
  nm <> ""%string ->
  forallb is_func_char_local (chars nm) = true ->
  String.length nm <= NAME_LEN - 1 ->
  is_func_name_local (lowercase nm) = None ->
  tokenize_local nm = Ok [TIdent (lowercase nm)].
Proof.
  intros Hne Hall Hlen Hfn. unfold tokenize_local, lowercase in *.
  rewrite <- chars_length in Hlen.
  destruct (chars nm) as [|c s] eqn:E.
  - destruct nm; [congruence|discriminate E].
  - assert (Hc : is_func_char_local c = true)
      by (simpl in Hall; now apply andb_prop in Hall as [? _]).
    rewrite (tokenize_loop_name c s _ _ Hc).
    rewrite (scan_name_whole (c :: s) 0 []) by auto.
    cbv beta iota zeta. rewrite app_nil_l, Hfn.
    rewrite strncpy_name_short
      by (now rewrite length_string_of_list, length_map).
    replace (0 + List.length (c :: s) - 1) with (List.length s)
      by (simpl; lia).
    rewrite <- (app_nil_r s) at 1. rewrite tokenize_loop_skip. reflexivity.
Qed.

End IdentifierLookup.

(** X23: an expression that is one name of at most 15 letters and
    underscores, not a function name and not [ans], evaluates to what the
    variable table holds under the name written in small letters, and is
    an undefined-variable error when the table holds nothing there.
    Capital letters in an expression therefore never reach a variable
    stored under a name with capitals. *)
Theorem identifier_reads_lowercased_variable :
  forall (L : Libm) (g : Globals) (nm : string),
    nm <> ""%string ->
    forallb is_func_char_local (chars nm) = true ->
    String.length nm <= NAME_LEN - 1 ->
    is_func_name_local (lowercase nm) = None ->
    lowercase nm <> "ans"%string ->
    eval_expr_local L g nm =
      match var_get (g_vars g) (lowercase nm) with
      | Some v => Ok v
      | None => Err (UndefinedVariable (lowercase nm))
      end.
Proof.
  intros L g nm Hne Hall Hlen Hfn Hans. unfold eval_expr_local.
  rewrite (tokenize_local_identifier nm Hne Hall Hlen Hfn).
  change (to_rpn_local [TIdent (lowercase nm)])
    with (Ok [TIdent (lowercase nm)]).
  unfold eval_rpn_local. cbn [eval_rpn_loop eval_token].
  apply String.eqb_neq in Hans. rewrite Hans.
  destruct (var_get (g_vars g) (lowercase nm)); reflexivity.
Qed.

Lemma identifier_reads_lowercased_variable_witness :
  let g := with_vars g_zero (fst (var_set empty_table "Rate" 5%float)) in
  var_get (g_vars g) "Rate" = Some 5%float /\
  eval_expr_local libm_ref g "Rate" = Err (UndefinedVariable "rate").
Proof.
  intros g. split; [vm_compute; reflexivity|].
  rewrite (identifier_reads_lowercased_variable libm_ref g "Rate").
  - vm_compute. reflexivity.
  - discriminate.
  - vm_compute. reflexivity.
  - vm_compute. lia.
  - vm_compute. reflexivity.
  - vm_compute. discriminate.
Defined.

(** ** The table at start-up *)

(** X24: [vars_init_defaults] on the zero-initialised table fills the
    first three slots with [pi], [e] and [ans = 0] and leaves the other
    61 free, with no name twice; under that table the expressions [pi]
    and [e] evaluate to the constant [M_PI] and to what [exp(1.0)]
    returned. *)
Theorem startup_table_holds_constants :
  forall (L : Libm) (g : Globals),
    g_vars g = vars_init_defaults L empty_table ->
    bindings (g_vars g) =
      [Some ("pi"%string, CDouble.M_PI); Some ("e"%string, c_exp L 1);
       Some ("ans"%string, 0%float)] ++ repeat None (MAX_VARS - 3) /\
    names_unique (g_vars g) /\
    eval_expr_local L g "pi" = Ok CDouble.M_PI /\
    eval_expr_local L g "e" = Ok (c_exp L 1).
Proof.
  intros L g Hg.
  assert (Hpi : tokenize_local "pi" = Ok [TIdent "pi"])
    by (vm_compute; reflexivity).
  assert (He : tokenize_local "e" = Ok [TIdent "e"])
    by (vm_compute; reflexivity).
  split; [rewrite Hg; reflexivity|split; [|split]].
  - rewrite Hg. unfold vars_init_defaults.
    repeat (apply names_unique_var_set; [vm_compute; lia|]).
    apply names_unique_empty.
  - unfold eval_expr_local. rewrite Hpi.
    change (to_rpn_local [TIdent "pi"]) with (Ok [TIdent "pi"]).
    unfold eval_rpn_local. cbn [eval_rpn_loop eval_token]. rewrite Hg.
    reflexivity.
  - unfold eval_expr_local. rewrite He.
    change (to_rpn_local [TIdent "e"]) with (Ok [TIdent "e"]).
    unfold eval_rpn_local. cbn [eval_rpn_loop eval_token]. rewrite Hg.
    reflexivity.
Qed.

Lemma startup_table_holds_constants_witness :
  eval_expr_local libm_ref
    {| g_vars := vars_init_defaults libm_ref empty_table;
       g_last_result := 0%float; g_mode := MODE_RAD |} "pi" =
  Ok CDouble.M_PI.
Proof.
  destruct (startup_table_holds_constants libm_ref
              {| g_vars := vars_init_defaults libm_ref empty_table;
                 g_last_result := 0%float; g_mode := MODE_RAD |} eq_refl)
    as (_ & _ & H & _).
  exact H.
Defined.
